(** * Utensil detection: attention tracker and frame transport

    A shallow embedding of the logic of [pi_client.py],
    [utensil_detector.py], [cv.py] and [server_mac.py]:

    - the per-frame attention tracker (the three-state label and the
      two dictionaries [utensil_first_seen] and [last_alert_time]);
    - the length-prefixed framing that carries pickled frames and
      results over a TCP socket, and the server's accept loop;
    - [process_frame], which turns the boxes of the two YOLO models
      into the results sent to the client, and the counting loops of the
      standalone detectors;
    - the main loops: what they do with failed camera reads and with
      transport errors.

    The tracker comes twice.  [Tracker64] has the timestamps of
    [time.time()] as binary64 floats, with the subtractions rounded as
    Python rounds them; the properties of the threshold and of the
    cooldown are stated there.  [Tracker] has them as exact rationals,
    for the properties that hold whatever the two comparisons answer and
    for the scenario in which they answer the same on both.  Box
    coordinates are rationals; the YOLO models, the camera and the codec
    of [pickle] are parameters. *)

From Stdlib Require Import QArith Qpower Lqa NArith SpecFloat.
From stdpp Require Import gmap strings list fin_maps.

(** ** The attention tracker, on exact timestamps *)

Module Tracker.

(** One entry of [results['utensils']] or [results['hands']]. *)
Record detection := Detection {
  class_name : string;
  confidence : Q;
  bbox : Z * Z * Z * Z
}.

(** One entry of [results['keypoints']]. *)
Record keypoint := Keypoint {
  left_wrist : option (Z * Z);
  right_wrist : option (Z * Z)
}.

(** The dictionary returned by [process_frame]. *)
Record results := Results {
  utensils : list detection;
  hands : list detection;
  keypoints : list keypoint
}.

(** [utensil_count[class_name] = utensil_count.get(class_name, 0) + 1]
    on a dictionary kept in insertion order. *)
Fixpoint count_up (d : list (string * nat)) (k : string) : list (string * nat) :=
  match d with
  | [] => [(k, 1)]
  | (k', n) :: d' =>
      if decide (k' = k) then (k', S n) :: d' else (k', n) :: count_up d' k
  end.

Definition utensil_count (rs : results) : list (string * nat) :=
  fold_left count_up (map class_name (utensils rs)) [].

(** [utensil_count.keys()] *)
Definition keys (d : list (string * nat)) : list string := map fst d.

Definition hand_count (rs : results) : nat := length (hands rs).

Inductive state := NOTHING | UNATTENDED | ATTENDED.

Definition state_eqb (a b : state) : bool :=
  match a, b with
  | NOTHING, NOTHING | UNATTENDED, UNATTENDED | ATTENDED, ATTENDED => true
  | _, _ => false
  end.

(** The [if / elif / elif / else] chain that picks [state]. *)
Definition classify (has_utensils has_hands : bool) : state :=
  if negb has_utensils && negb has_hands then NOTHING
  else if has_utensils && negb has_hands then UNATTENDED
  else if has_utensils && has_hands then ATTENDED
  else NOTHING.

Definition has_utensils (rs : results) : bool := Nat.ltb 0 (length (utensil_count rs)).
Definition has_hands (rs : results) : bool := Nat.ltb 0 (hand_count rs).

Definition label (rs : results) : state :=
  classify (has_utensils rs) (has_hands rs).

Definition UNATTENDED_THRESHOLD : Q := 2.
Definition ALERT_COOLDOWN : Q := 5.

(** Python's [a >= b] on timestamps. *)
Definition Qge_bool (a b : Q) : bool := Qle_bool b a.

(** The two dictionaries that persist across frames. *)
Record tracker := Tracker {
  utensil_first_seen : gmap string Q;
  last_alert_time : gmap string Q
}.

Definition initial : tracker := Tracker ∅ ∅.

(** [utensil_type not in last_alert_time or
     current_time - last_alert_time[utensil_type] >= ALERT_COOLDOWN] *)
Definition cooled_down (la : gmap string Q) (utensil_type : string)
    (current_time : Q) : bool :=
  match la !! utensil_type with
  | None => true
  | Some last => Qge_bool (current_time - last) ALERT_COOLDOWN
  end.

(** Body of [for utensil_type in utensil_count.keys()]; the second
    component collects the alerts spoken so far in this frame. *)
Definition track_utensil (st : state) (current_time : Q)
    (acc : tracker * list string) (utensil_type : string)
    : tracker * list string :=
  let '(tr, alerts) := acc in
  if state_eqb st UNATTENDED then
    match utensil_first_seen tr !! utensil_type with
    | None =>
        (Tracker (<[utensil_type := current_time]> (utensil_first_seen tr))
                 (last_alert_time tr), alerts)
    | Some first =>
        let unattended_duration := (current_time - first)%Q in
        if Qge_bool unattended_duration UNATTENDED_THRESHOLD then
          if cooled_down (last_alert_time tr) utensil_type current_time then
            (Tracker (utensil_first_seen tr)
                     (<[utensil_type := current_time]> (last_alert_time tr)),
             alerts ++ [utensil_type])
          else acc
        else acc
    end
  else
    match utensil_first_seen tr !! utensil_type with
    | Some _ =>
        (Tracker (delete utensil_type (utensil_first_seen tr))
                 (last_alert_time tr), alerts)
    | None => acc
    end.

(** [[u for u in utensil_first_seen.keys() if u not in utensil_count]].
    The keys come in the map's own order; the deletions that follow
    commute, so the order does not matter. *)
Definition utensils_to_remove (fs : gmap string Q) (cnt : list (string * nat))
    : list string :=
  filter (λ u, u ∉ keys cnt) (map fst (map_to_list fs)).

Definition remove_undetected (fs : gmap string Q) (cnt : list (string * nat))
    : gmap string Q :=
  fold_left (λ m u, delete u m) (utensils_to_remove fs cnt) fs.

(** One pass of the tracking code of the main loop: the new
    dictionaries, the label and the alerts emitted, in order. *)
Definition tick (tr : tracker) (rs : results) (current_time : Q)
    : tracker * state * list string :=
  let cnt := utensil_count rs in
  let st := label rs in
  let '(tr1, alerts) :=
    fold_left (track_utensil st current_time) (keys cnt) (tr, []) in
  (Tracker (remove_undetected (utensil_first_seen tr1) cnt)
           (last_alert_time tr1), st, alerts).

(** A frame as the tracker sees it: the results and [time.time()]. *)
Definition frame_input : Type := results * Q.

(** The main loop over a finite run of frames: the alerts of each frame
    and the dictionaries at the end. *)
Fixpoint run (tr : tracker) (frames : list frame_input)
    : list (list string) * tracker :=
  match frames with
  | [] => ([], tr)
  | (rs, now) :: rest =>
      let '(tr', _, alerts) := tick tr rs now in
      let '(out, tr_end) := run tr' rest in
      (alerts :: out, tr_end)
  end.

(** Sample detections and frames. *)
Definition item (c : string) : detection := Detection c 1 (0, 0, 1, 1)%Z.
Definition person : detection := item "person"%string.

Definition fork_alone : results := Results [item "fork"%string] [] [].
Definition fork_with_person : results := Results [item "fork"%string] [person] [].

(** *** Notions used to state the properties *)

(** Whether the loop body alerts for a type whose two dictionary entries
    are [fs] and [la]. *)
Definition alert_due (st : state) (now : Q) (fs la : option Q) : bool :=
  state_eqb st UNATTENDED &&
  match fs with
  | None => false
  | Some first =>
      Qge_bool (now - first) UNATTENDED_THRESHOLD &&
      match la with
      | None => true
      | Some last => Qge_bool (now - last) ALERT_COOLDOWN
      end
  end.

(** The [utensil_first_seen] entry of a detected type after the body. *)
Definition first_seen_after (st : state) (now : Q) (fs : option Q) : option Q :=
  if state_eqb st UNATTENDED then Some (default now fs) else None.

(** Its [last_alert_time] entry after the body. *)
Definition last_alert_after (st : state) (now : Q) (fs la : option Q) : option Q :=
  if alert_due st now fs la then Some now else la.

(** The alerts of a frame that are for the type [k]. *)
Definition only (k : string) (l : list string) : list string :=
  filter (λ a, a = k) l.

(** [detected rs k]: the type [k] is a key of this frame's
    [utensil_count]. *)
Definition detected (rs : results) (k : string) : Prop :=
  k ∈ keys (utensil_count rs).

#[global] Instance detected_dec rs k : Decision (detected rs k).
Proof. unfold detected. apply _. Defined.

(** Whether the frame [rs] at time [now] alerts for [k]. *)
Definition alerts_for (tr : tracker) (rs : results) (now : Q) (k : string)
    : bool :=
  bool_decide (detected rs k) &&
  alert_due (label rs) now (utensil_first_seen tr !! k)
            (last_alert_time tr !! k).

(** The dictionaries after a frame, and the alerts it emitted. *)
Definition tick_state (tr : tracker) (rs : results) (now : Q) : tracker :=
  (tick tr rs now).1.1.

Definition tick_alerts (tr : tracker) (rs : results) (now : Q) : list string :=
  (tick tr rs now).2.

(** An unattended frame that shows the type [k]. *)
Definition shows_unattended (k : string) (f : frame_input) : Prop :=
  label f.1 = UNATTENDED ∧ detected f.1 k.

(** *** The scenarios of the specification *)

Definition scenario_1 : list frame_input :=
  [(fork_alone, 0%Q); (fork_alone, 19 # 10); (fork_alone, 2%Q)].

Definition scenario_1_to_3 : list frame_input :=
  scenario_1 ++ [(fork_with_person, 21 # 10); (fork_alone, 22 # 10)].

End Tracker.

(** ** Timestamps as Python has them *)

Module Binary64.

(** [time.time()] returns a Python [float], an IEEE 754 binary64 number;
    arithmetic on floats rounds to the nearest float, ties to the even
    mantissa. *)
Definition prec : Z := 53.
Definition emax : Z := 1024.
Definition float64 : Type := spec_float.

(** [a - b] and [a >= b] on floats. *)
Definition fsub (a b : float64) : float64 := SFsub prec emax a b.
Definition fge (a b : float64) : bool := SFleb b a.

(** [float(n)] for an integer [n] below [2^53], and the float that the
    decimal literal with value [n / d] denotes: the one nearest to it,
    which is also what dividing [float(n)] by [float(d)] gives. *)
Definition of_Z (n : Z) : float64 := binary_normalize prec emax n 0 false.
Definition decimal (n d : Z) : float64 := SFdiv prec emax (of_Z n) (of_Z d).

(** [m * 2^e], and the number that a finite float stands for. *)
Definition scaled (m e : Z) : Q := inject_Z m * 2 ^ e.

Definition to_Q (x : float64) : Q :=
  match x with
  | S754_finite s m e => scaled (if s then Z.neg m else Z.pos m) e
  | _ => 0
  end.

(** What [time.time()] can return: a float, finite. *)
Definition timestamp (x : float64) : bool :=
  valid_binary prec emax x &&
  match x with
  | S754_zero _ | S754_finite _ _ _ => true
  | _ => false
  end.

End Binary64.

(** ** The attention tracker on float timestamps *)

(** The tracking code once more, with the timestamps, the two constants
    and the two subtractions and comparisons as Python computes them.
    Module [Tracker] above has the same code on exact rationals; it
    serves for the properties in which no rounding is involved. *)
Module Tracker64.

Import Tracker Binary64.

Definition UNATTENDED_THRESHOLD : float64 := of_Z 2.
Definition ALERT_COOLDOWN : float64 := of_Z 5.

(** The two dictionaries that persist across frames. *)
Record tracker := Tracker {
  utensil_first_seen : gmap string float64;
  last_alert_time : gmap string float64
}.

Definition initial : tracker := Tracker ∅ ∅.

(** [utensil_type not in last_alert_time or
     current_time - last_alert_time[utensil_type] >= ALERT_COOLDOWN] *)
Definition cooled_down (la : gmap string float64) (utensil_type : string)
    (current_time : float64) : bool :=
  match la !! utensil_type with
  | None => true
  | Some last => fge (fsub current_time last) ALERT_COOLDOWN
  end.

(** Body of [for utensil_type in utensil_count.keys()]; the second
    component collects the alerts spoken so far in this frame. *)
Definition track_utensil (st : state) (current_time : float64)
    (acc : tracker * list string) (utensil_type : string)
    : tracker * list string :=
  let '(tr, alerts) := acc in
  if state_eqb st UNATTENDED then
    match utensil_first_seen tr !! utensil_type with
    | None =>
        (Tracker (<[utensil_type := current_time]> (utensil_first_seen tr))
                 (last_alert_time tr), alerts)
    | Some first =>
        let unattended_duration := fsub current_time first in
        if fge unattended_duration UNATTENDED_THRESHOLD then
          if cooled_down (last_alert_time tr) utensil_type current_time then
            (Tracker (utensil_first_seen tr)
                     (<[utensil_type := current_time]> (last_alert_time tr)),
             alerts ++ [utensil_type])
          else acc
        else acc
    end
  else
    match utensil_first_seen tr !! utensil_type with
    | Some _ =>
        (Tracker (delete utensil_type (utensil_first_seen tr))
                 (last_alert_time tr), alerts)
    | None => acc
    end.

(** [[u for u in utensil_first_seen.keys() if u not in utensil_count]] *)
Definition utensils_to_remove (fs : gmap string float64)
    (cnt : list (string * nat)) : list string :=
  filter (λ u, u ∉ keys cnt) (map fst (map_to_list fs)).

Definition remove_undetected (fs : gmap string float64)
    (cnt : list (string * nat)) : gmap string float64 :=
  fold_left (λ m u, delete u m) (utensils_to_remove fs cnt) fs.

(** One pass of the tracking code of the main loop. *)
Definition tick (tr : tracker) (rs : results) (current_time : float64)
    : tracker * state * list string :=
  let cnt := utensil_count rs in
  let st := label rs in
  let '(tr1, alerts) :=
    fold_left (track_utensil st current_time) (keys cnt) (tr, []) in
  (Tracker (remove_undetected (utensil_first_seen tr1) cnt)
           (last_alert_time tr1), st, alerts).

Definition frame_input : Type := results * float64.

Fixpoint run (tr : tracker) (frames : list frame_input)
    : list (list string) * tracker :=
  match frames with
  | [] => ([], tr)
  | (rs, now) :: rest =>
      let '(tr', _, alerts) := tick tr rs now in
      let '(out, tr_end) := run tr' rest in
      (alerts :: out, tr_end)
  end.

(** *** Notions used to state the properties *)

(** The code's test [current_time - since >= bound]. *)
Definition elapsed (current_time since bound : float64) : bool :=
  fge (fsub current_time since) bound.

(** Whether the loop body alerts for a type whose two dictionary entries
    are [fs] and [la]. *)
Definition alert_due (st : state) (now : float64) (fs la : option float64)
    : bool :=
  state_eqb st UNATTENDED &&
  match fs with
  | None => false
  | Some first =>
      elapsed now first UNATTENDED_THRESHOLD &&
      match la with
      | None => true
      | Some last => elapsed now last ALERT_COOLDOWN
      end
  end.

Definition first_seen_after (st : state) (now : float64) (fs : option float64)
    : option float64 :=
  if state_eqb st UNATTENDED then Some (default now fs) else None.

Definition last_alert_after (st : state) (now : float64)
    (fs la : option float64) : option float64 :=
  if alert_due st now fs la then Some now else la.

(** Whether the frame [rs] at time [now] alerts for [k]. *)
Definition alerts_for (tr : tracker) (rs : results) (now : float64)
    (k : string) : bool :=
  bool_decide (detected rs k) &&
  alert_due (label rs) now (utensil_first_seen tr !! k)
            (last_alert_time tr !! k).

Definition tick_state (tr : tracker) (rs : results) (now : float64) : tracker :=
  (tick tr rs now).1.1.

Definition tick_alerts (tr : tracker) (rs : results) (now : float64)
    : list string :=
  (tick tr rs now).2.

(** An unattended frame that shows the type [k]. *)
Definition shows_unattended (k : string) (f : frame_input) : Prop :=
  label f.1 = UNATTENDED ∧ detected f.1 k.

(** Every alert of a run with the time of the frame that emitted it, in
    the order of emission. *)
Definition alert_log (tr : tracker) (frames : list frame_input)
    : list (string * float64) :=
  concat (zip_with (λ f alerts, map (λ k, (k, f.2)) alerts)
                   frames (run tr frames).1).

(** The time of the first event of a log that is for [k]. *)
Fixpoint next_alert (k : string) (log : list (string * float64))
    : option float64 :=
  match log with
  | [] => None
  | (k', T) :: log' => if decide (k' = k) then Some T else next_alert k log'
  end.

(** Events of a log are [spaced] by [gap] when any later event of the
    same type comes at least [gap] after an earlier one, as numbers. *)
Fixpoint spaced (gap : Q) (log : list (string * float64)) : Prop :=
  match log with
  | [] => True
  | e :: log' =>
      Forall (λ e', e'.1 = e.1 → (gap <= to_Q e'.2 - to_Q e.2)%Q) log' ∧
      spaced gap log'
  end.

(** *** Sample timestamps and runs *)

Definition t_0 : float64 := S754_zero false.

(** Scenario 1 of the specification: ticks at 0.0, 1.9 and 2.0. *)
Definition scenario_1 : list frame_input :=
  [(fork_alone, t_0); (fork_alone, decimal 19 10); (fork_alone, of_Z 2)].

(** A fork seen alone at 0.4 and again at 2.4. *)
Definition from_0_4 : list frame_input :=
  [(fork_alone, decimal 4 10); (fork_alone, decimal 24 10)].

(** A fork left alone, with ticks at 0.0, 2.1 and 7.1. *)
Definition left_alone : list frame_input :=
  [(fork_alone, t_0); (fork_alone, decimal 21 10);
   (fork_alone, decimal 71 10)].

(** The same with somebody at the sink at 3.0 and gone again at 4.0. *)
Definition left_attended_left : list frame_input :=
  [(fork_alone, t_0); (fork_alone, decimal 21 10);
   (fork_with_person, of_Z 3); (fork_alone, of_Z 4);
   (fork_alone, decimal 71 10)].

(** Scenarios 1 to 3 of the specification, then the fork left alone:
    ticks at 0.0, 1.9, 2.0, 2.1 (attended), 2.2, 4.2, 6.9 and 7.0. *)
Definition scenario_1_to_3_and_on : list frame_input :=
  scenario_1 ++
  [(fork_with_person, decimal 21 10); (fork_alone, decimal 22 10);
   (fork_alone, decimal 42 10); (fork_alone, decimal 69 10);
   (fork_alone, of_Z 7)].

(** A fork alone at 0.0, somebody with it at 1.0, alone again from 1.5. *)
Definition back_at_1_5 : list frame_input :=
  [(fork_alone, t_0); (fork_with_person, of_Z 1);
   (fork_alone, decimal 15 10)].

End Tracker64.

(** ** Frame transport *)

Module Transport.

Abbreviation bytes := (list Byte.byte).

(** *** [struct.pack("Q", n)] and [struct.unpack("Q", b)] *)

(** [struct] uses the host's native byte order for the format ["Q"]. *)
Inductive byte_order := LittleEndian | BigEndian.

Definition byte_of_N (n : N) : Byte.byte :=
  match Byte.of_N (n mod 256) with
  | Some b => b
  | None => Byte.x00
  end.

Fixpoint le_bytes (width : nat) (n : N) : bytes :=
  match width with
  | O => []
  | S w => byte_of_N n :: le_bytes w (n / 256)
  end.

Fixpoint le_value (bs : bytes) : N :=
  match bs with
  | [] => 0
  | b :: bs' => Byte.to_N b + 256 * le_value bs'
  end.

(** [struct.calcsize("Q")] *)
Definition payload_size : nat := 8.

(** What the code can raise inside a session. *)
Inductive exn :=
| StructError       (* struct.error *)
| ConnectionError   (* OSError from recv / sendall *)
| PickleError       (* pickle.loads on a bad payload *)
| DetectorError.    (* process_frame *)

(** The result of running a piece of the code with some fuel for its
    loops: it returned, it raised, or it was still looping when the
    fuel ran out. *)
Inductive outcome (A : Type) :=
| Done (a : A)
| Raised (e : exn)
| Spinning.
Arguments Done {A} a.
Arguments Raised {A} e.
Arguments Spinning {A}.

#[global] Instance outcome_bind : MBind outcome := λ A B k m,
  match m with
  | Done a => k a
  | Raised e => Raised e
  | Spinning => Spinning
  end.

(** [struct.pack("Q", n)]: raises when [n] does not fit 64 bits. *)
Definition pack_Q (order : byte_order) (n : N) : outcome bytes :=
  if (n <? 2 ^ 64)%N then
    Done (match order with
          | LittleEndian => le_bytes payload_size n
          | BigEndian => rev (le_bytes payload_size n)
          end)
  else Raised StructError.

(** [struct.unpack("Q", b)[0]]: raises unless [b] has exactly 8 bytes. *)
Definition unpack_Q (order : byte_order) (b : bytes) : outcome N :=
  if Nat.eqb (length b) payload_size then
    Done (le_value (match order with
                    | LittleEndian => b
                    | BigEndian => rev b
                    end))
  else Raised StructError.

(** *** The socket *)

(** How the peer's stream ends once its chunks are consumed: an orderly
    close makes every later [recv] return [b""]; a reset makes it
    raise. *)
Inductive ending := OrderlyClose | Reset.

(** A connected socket: the chunks the network will deliver, in order,
    how the stream ends, and the number of [sendall] calls the
    connection still accepts. *)
Record socket := Socket {
  incoming : list bytes;
  at_end : ending;
  sendable : nat
}.

(** [sock.recv(bufsize)] *)
Definition recv (s : socket) (bufsize : nat) : outcome (bytes * socket) :=
  match incoming s with
  | [] =>
      match at_end s with
      | OrderlyClose => Done ([], s)
      | Reset => Raised ConnectionError
      end
  | chunk :: rest =>
      if Nat.leb (length chunk) bufsize
      then Done (chunk, Socket rest (at_end s) (sendable s))
      else Done (take bufsize chunk,
                 Socket (drop bufsize chunk :: rest) (at_end s) (sendable s))
  end.

(** [sock.sendall(msg)] *)
Definition sendall (s : socket) (msg : bytes) : outcome socket :=
  match sendable s with
  | O => Raised ConnectionError
  | S n => Done (Socket (incoming s) (at_end s) n)
  end.

(** *** Receiving one message *)

(** [while len(data) < payload_size:
       packet = sock.recv(4096)
       if not packet: break
       data += packet] *)
Fixpoint recv_header (fuel : nat) (s : socket) (data : bytes)
    : outcome (bytes * socket) :=
  match fuel with
  | O => Spinning
  | S fuel' =>
      if Nat.ltb (length data) payload_size then
        '(packet, s') ← recv s 4096;
        match packet with
        | [] => Done (data, s')
        | _ => recv_header fuel' s' (data ++ packet)
        end
      else Done (data, s)
  end.

(** [while len(data) < msg_size:
       data += sock.recv(4096)] *)
Fixpoint recv_body (fuel : nat) (s : socket) (data : bytes) (msg_size : N)
    : outcome (bytes * socket) :=
  match fuel with
  | O => Spinning
  | S fuel' =>
      if (N.of_nat (length data) <? msg_size)%N then
        '(packet, s') ← recv s 4096;
        recv_body fuel' s' (data ++ packet) msg_size
      else Done (data, s)
  end.

Section Endpoints.

(** Both hosts are taken to have the same native byte order. *)
Variable order : byte_order.

(** [message_size = struct.pack("Q", len(data));
     sock.sendall(message_size + data)]: the bytes put on the wire. *)
Definition frame_message (payload : bytes) : outcome bytes :=
  message_size ← pack_Q order (N.of_nat (length payload));
  Done (message_size ++ payload).

(** The client's receive block ([pi_client.py], lines 118-135), up to
    [result_data]. *)
Definition client_receive (fuel : nat) (s : socket)
    : outcome (bytes * socket) :=
  '(data, s1) ← recv_header fuel s [];
  let packed_msg_size := take payload_size data in
  let data := drop payload_size data in
  msg_size ← unpack_Q order packed_msg_size;
  '(data, s2) ← recv_body fuel s1 data msg_size;
  Done (take (N.to_nat msg_size) data, s2).

(** The server's receive block ([server_mac.py], lines 170-189): [None]
    is the [break] that ends the session; otherwise [frame_data], the
    bytes kept in [data] for the next message, and the socket. *)
Definition server_receive (fuel : nat) (s : socket) (data : bytes)
    : outcome (option (bytes * bytes * socket)) :=
  '(data, s1) ← recv_header fuel s data;
  if Nat.ltb (length data) payload_size then Done None
  else
    let packed_msg_size := take payload_size data in
    let data := drop payload_size data in
    msg_size ← unpack_Q order packed_msg_size;
    '(data, s2) ← recv_body fuel s1 data msg_size;
    Done (Some (take (N.to_nat msg_size) data,
                drop (N.to_nat msg_size) data, s2)).

End Endpoints.

(** The bytes that the network has yet to deliver. *)
Definition pending (s : socket) : bytes := concat (incoming s).

(** The network never delivers an empty chunk. *)
Definition delivers (s : socket) : Prop := Forall (λ c, c ≠ []) (incoming s).

(** A five-byte payload whose sender closes after the prefix and two
    bytes of it. *)
Definition five_bytes : bytes :=
  [Byte.x61; Byte.x62; Byte.x63; Byte.x64; Byte.x65].
Definition five_bytes_framed : bytes :=
  [Byte.x05; Byte.x00; Byte.x00; Byte.x00; Byte.x00; Byte.x00; Byte.x00;
   Byte.x00; Byte.x61; Byte.x62; Byte.x63; Byte.x64; Byte.x65].
Definition prefix_and_two : list bytes :=
  [[Byte.x05; Byte.x00; Byte.x00];
   [Byte.x00; Byte.x00; Byte.x00; Byte.x00; Byte.x00; Byte.x61];
   [Byte.x62]].

End Transport.

Import Transport.

(** ** The server's accept loop *)

Module Server.

(** What the server does that a client or an operator can observe. *)
Inductive event :=
| Accepted (conn : nat)                      (* server_socket.accept() *)
| Received (conn : nat) (frame_data : bytes) (* a frame was reassembled *)
| Sent (conn : nat) (msg : bytes)            (* sendall returned *)
| ErrorPrinted (conn : nat) (e : exn)        (* the except branch *)
| Closed (conn : nat).                       (* client_socket.close() *)

Definition event_conn (ev : event) : nat :=
  match ev with
  | Accepted c | Received c _ | Sent c _ | ErrorPrinted c _ | Closed c => c
  end.

(** Where the server is when the run is cut: blocked in [accept] with no
    client left, or still inside the session of a connection. *)
Inductive server_status := Accepting | InSession (conn : nat).

Section Session.

Variable order : byte_order.

(** The frame and result types, [pickle.loads], [process_frame] with
    the two models, and [pickle.dumps]. *)
Variables frame results : Type.
Variable pickle_loads : bytes → outcome frame.
Variable process_frame : frame → outcome results.
Variable pickle_dumps : results → bytes.

(** From [frame = pickle.loads(frame_data)] to [sendall]. *)
Definition respond (s : socket) (frame_data : bytes)
    : outcome (bytes * socket) :=
  frame ← pickle_loads frame_data;
  results ← process_frame frame;
  msg ← frame_message order (pickle_dumps results);
  s' ← sendall s msg;
  Done (msg, s').

(** The inner [while True] of one connection. *)
Fixpoint session (fuel : nat) (conn : nat) (s : socket) (data : bytes)
    : list event * outcome unit :=
  match fuel with
  | O => ([], Spinning)
  | S fuel' =>
      match server_receive order fuel' s data with
      | Done (Some (frame_data, data', s1)) =>
          match respond s1 frame_data with
          | Done (msg, s2) =>
              let '(evs, r) := session fuel' conn s2 data' in
              (Received conn frame_data :: Sent conn msg :: evs, r)
          | Raised e => ([Received conn frame_data], Raised e)
          | Spinning => ([Received conn frame_data], Spinning)
          end
      | Done None => ([], Done ())
      | Raised e => ([], Raised e)
      | Spinning => ([], Spinning)
      end
  end.

(** The outer [while True] with its [try / except Exception / finally],
    over the clients that connect, in order. *)
Fixpoint serve (fuel : nat) (conn : nat) (clients : list socket)
    : list event * server_status :=
  match clients with
  | [] => ([], Accepting)
  | c :: rest =>
      match session fuel conn c [] with
      | (evs, Done _) =>
          let '(later, st) := serve fuel (S conn) rest in
          (Accepted conn :: evs ++ Closed conn :: later, st)
      | (evs, Raised e) =>
          let '(later, st) := serve fuel (S conn) rest in
          (Accepted conn :: evs ++ ErrorPrinted conn e :: Closed conn :: later,
           st)
      | (evs, Spinning) => (Accepted conn :: evs, InSession conn)
      end
  end.

(** The message that [respond] puts on the wire for a frame: the
    steps of [respond] before [sendall]. *)
Definition reply_to (frame_data : bytes) : outcome bytes :=
  frame ← pickle_loads frame_data;
  results ← process_frame frame;
  frame_message order (pickle_dumps results).

End Session.

Arguments respond order {frame results} _ _ _ _ _.
Arguments session order {frame results} _ _ _ _ _ _ _.
Arguments serve order {frame results} _ _ _ _ _ _.
Arguments reply_to order {frame results} _ _ _ _.

(** The events of a connection whose frames [payloads] were answered
    with [replies], one after the other. *)
Definition exchanges (conn : nat) (payloads replies : list bytes)
    : list event :=
  concat (zip_with (λ p m, [Received conn p; Sent conn m]) payloads replies).

(** A detector that fails on every frame, and one that answers with
    the frame itself. *)
Definition failing_detector (f : bytes) : outcome bytes := Raised DetectorError.
Definition echo_detector (f : bytes) : outcome bytes := Done f.

(** An unpickler that fails on the empty string, as [pickle.loads]
    does, and otherwise returns the bytes as they are. *)
Definition loads_nonempty (b : bytes) : outcome bytes :=
  match b with
  | [] => Raised PickleError
  | _ => Done b
  end.

(** A client that sends [five_bytes] in five chunks and then closes. *)
Definition one_frame_client (e : ending) (sendable : nat) : socket :=
  Socket (prefix_and_two ++ [[Byte.x63; Byte.x64]; [Byte.x65]]) e sendable.

(** A client that connects and closes at once. *)
Definition idle_client : socket := Socket [] OrderlyClose 0.

End Server.

(** ** Detection results and their display *)

Module Detection.

Import Tracker.

(** [utensil_count.get(class_name, 0)], and the count shown on screen
    for a key of [utensil_count.items()]. *)
Fixpoint dict_get (d : list (string * nat)) (k : string) : nat :=
  match d with
  | [] => 0
  | (k', n) :: d' => if decide (k' = k) then n else dict_get d' k
  end.

(** Two forks and a cup in one frame, and the same classes once. *)
Definition two_forks_and_cup : results :=
  Results [item "fork"%string; item "cup"%string; item "fork"%string] [] [].
Definition cup_and_fork : results :=
  Results [item "cup"%string; item "fork"%string] [] [].

(** *** [process_frame] of the server *)

(** [UTENSIL_CLASSES]: class name to COCO class id. *)
Definition UTENSIL_CLASSES : list (string * nat) :=
  [("fork"%string, 42); ("knife"%string, 43); ("spoon"%string, 44);
   ("bowl"%string, 45); ("cup"%string, 47); ("bottle"%string, 39);
   ("wine glass"%string, 46)].

(** [class_name in UTENSIL_CLASSES] *)
Definition is_utensil (class_name : string) : bool :=
  bool_decide (class_name ∈ map fst UTENSIL_CLASSES).

(** [class_name == 'person'] *)
Definition is_person (class_name : string) : bool :=
  bool_decide (class_name = "person"%string).

(** [int(x)] on a coordinate: truncation towards zero. *)
Definition int_ (x : Q) : Z := Z.quot (Qnum x) (Z.pos (Qden x)).

(** One element of [result.boxes]: [int(box.cls[0])],
    [float(box.conf[0])] and [box.xyxy[0]]. *)
Record box := Box {
  cls : nat;
  conf : Q;
  xyxy : Q * Q * Q * Q
}.

(** What a YOLO model returns for one frame: the boxes, the [names]
    dictionary, and for the pose model the keypoints ([None] when the
    attribute is missing or [None]; each [keypoints.xy] may be [None]
    too). *)
Record yolo_result := Yolo {
  boxes : list box;
  names : gmap nat string;
  pose_keypoints : option (list (option (list (Q * Q))))
}.

(** The dictionary appended for a box. *)
Definition to_detection (class_name : string) (b : box) : detection :=
  let '(x1, y1, x2, y2) := xyxy b in
  Detection class_name (conf b) (int_ x1, int_ y1, int_ x2, int_ y2).

(** The loop that fills [utensil_detections]; a class id missing from
    [names] is a [KeyError]. *)
Fixpoint utensil_detections (nm : gmap nat string) (bs : list box)
    : outcome (list detection) :=
  match bs with
  | [] => Done []
  | b :: rest =>
      match nm !! cls b with
      | None => Raised DetectorError
      | Some class_name =>
          ds ← utensil_detections nm rest;
          Done (if is_utensil class_name
                then to_detection class_name b :: ds else ds)
      end
  end.

(** The loop that fills [hand_detections]. *)
Fixpoint hand_detections (nm : gmap nat string) (bs : list box)
    : outcome (list detection) :=
  match bs with
  | [] => Done []
  | b :: rest =>
      match nm !! cls b with
      | None => Raised DetectorError
      | Some class_name =>
          ds ← hand_detections nm rest;
          Done (if is_person class_name
                then to_detection "person" b :: ds else ds)
      end
  end.

(** [[int(p[0]), int(p[1])] if p[0] > 0 else None] *)
Definition wrist (p : Q * Q) : option (Z * Z) :=
  if Qle_bool p.1 0 then None else Some (int_ p.1, int_ p.2).

(** [kpts[i]]: an index out of range is an [IndexError]. *)
Definition index (kpts : list (Q * Q)) (i : nat) : outcome (Q * Q) :=
  match kpts !! i with
  | Some p => Done p
  | None => Raised DetectorError
  end.

(** The body of [for keypoints in pose_result.keypoints]. *)
Definition wrists_of (xy : option (list (Q * Q))) : outcome (list keypoint) :=
  match xy with
  | None => Done []
  | Some kpts =>
      if Nat.ltb 10 (length kpts) then
        l ← index kpts 9;
        r ← index kpts 10;
        Done [Keypoint (wrist l) (wrist r)]
      else Done []
  end.

Fixpoint keypoints_loop (kps : list (option (list (Q * Q))))
    : outcome (list keypoint) :=
  match kps with
  | [] => Done []
  | xy :: rest =>
      here ← wrists_of xy;
      later ← keypoints_loop rest;
      Done (here ++ later)
  end.

Definition keypoints_data (pose_result : yolo_result)
    : outcome (list keypoint) :=
  match pose_keypoints pose_result with
  | None => Done []
  | Some kps => keypoints_loop kps
  end.

(** [process_frame] once the two models have run. *)
Definition process_outputs (result pose_result : yolo_result)
    : outcome results :=
  u ← utensil_detections (names result) (boxes result);
  h ← hand_detections (names pose_result) (boxes pose_result);
  k ← keypoints_data pose_result;
  Done (Results u h k).

Section Models.

(** The two YOLO models, as functions of the frame. *)
Variable frame : Type.
Variables model pose_model : frame → outcome yolo_result.

Definition process_frame (f : frame) : outcome results :=
  result ← model f;
  pose_result ← pose_model f;
  process_outputs result pose_result.

End Models.

(** *** The counting loop of the standalone detectors *)

(** [for box in result.boxes: ... if class_name in UTENSIL_CLASSES:
    utensil_count[class_name] = utensil_count.get(class_name, 0) + 1]
    of [utensil_detector.py] and [cv.py]. *)
Fixpoint inline_count (nm : gmap nat string) (bs : list box)
    (utensil_count : list (string * nat)) : outcome (list (string * nat)) :=
  match bs with
  | [] => Done utensil_count
  | b :: rest =>
      match nm !! cls b with
      | None => Raised DetectorError
      | Some class_name =>
          inline_count nm rest
            (if is_utensil class_name
             then count_up utensil_count class_name else utensil_count)
      end
  end.

(** [hand_count += 1] for every person box of the pose model. *)
Fixpoint inline_hand_count (nm : gmap nat string) (bs : list box)
    (hand_count : nat) : outcome nat :=
  match bs with
  | [] => Done hand_count
  | b :: rest =>
      match nm !! cls b with
      | None => Raised DetectorError
      | Some class_name =>
          inline_hand_count nm rest
            (if is_person class_name then S hand_count else hand_count)
      end
  end.

(** Sample model outputs: the COCO names used here, a fork, a person
    and a cat. *)
Definition coco_names : gmap nat string :=
  list_to_map [(0, "person"%string); (15, "cat"%string);
               (42, "fork"%string); (47, "cup"%string)].
Definition fork_box : box := Box 42 (9 # 10) (10 # 1, 20 # 1, 305 # 10, 41 # 1).
Definition cat_box : box := Box 15 (8 # 10) (0 # 1, 0 # 1, 5 # 1, 5 # 1).
Definition person_box : box := Box 0 (7 # 10) (1 # 2, 1 # 2, 99 # 1, 99 # 1).
Definition unknown_box : box := Box 77 (6 # 10) (0 # 1, 0 # 1, 1 # 1, 1 # 1).

End Detection.

(** ** The main loops *)

Module Loops.

Import Tracker Detection.

(** What [cap.read()] gives in one iteration: [ret] false, or a frame,
    together with whether 'q' is pressed at the end of the iteration. *)
Inductive read (F : Type) :=
| NoFrame
| Frame (f : F) (quit : bool).
Arguments NoFrame {F}.
Arguments Frame {F} f quit.

(** Why a main loop is left, or why the run is cut. *)
Inductive stop :=
| OutOfReads            (* the camera script is used up *)
| CaptureFailed         (* cv.py: [if not ret: break] *)
| TooManyFailures       (* utensil_detector.py: more than 30 in a row *)
| Quit                  (* 'q' pressed *)
| SendError             (* pi_client.py: [sendall] raised *)
| ReceiveError (e : exn) (* pi_client.py: the receive block raised *)
| Hung                  (* pi_client.py: the receive block never ends *)
| Crashed (e : exn).    (* an exception outside the inner [try] blocks *)

Section Capture.

Context {F : Type}.

(** The main loop of [cv.py]: the frames that get processed, in order,
    and the way the loop ends. *)
Fixpoint cv_loop (reads : list (read F)) : list F * stop :=
  match reads with
  | [] => ([], OutOfReads)
  | NoFrame :: _ => ([], CaptureFailed)
  | Frame f quit :: rest =>
      if quit then ([f], Quit)
      else let '(fs, st) := cv_loop rest in (f :: fs, st)
  end.

(** The main loop of [utensil_detector.py] with its two counters: the
    frames processed, the final [frame_count] and the way the loop
    ends. *)
Fixpoint detector_loop (reads : list (read F))
    (frame_count consecutive_failures : nat) : list F * nat * stop :=
  match reads with
  | [] => ([], frame_count, OutOfReads)
  | NoFrame :: rest =>
      let consecutive_failures := S consecutive_failures in
      if Nat.ltb 30 consecutive_failures
      then ([], frame_count, TooManyFailures)
      else detector_loop rest frame_count consecutive_failures
  | Frame f quit :: rest =>
      let frame_count := S frame_count in
      if quit then ([f], frame_count, Quit)
      else
        let '(fs, n, st) := detector_loop rest frame_count 0 in
        (f :: fs, n, st)
  end.

End Capture.

(** What the client shows of an iteration. *)
Inductive client_event :=
| FrameSent (msg : bytes)
| ResultsShown (rs : results) (alerts : list string).

Section Client.

Variable order : byte_order.

(** The frame type, [pickle.dumps] on a frame and [pickle.loads] on a
    result payload. *)
Variable F : Type.
Variable pickle_dumps : F → bytes.
Variable pickle_loads : bytes → outcome results.

(** Fuel for the loops of one receive block. *)
Variable fuel : nat.

(** The receive block with [results = pickle.loads(result_data)]. *)
Definition receive_results (s : socket) : outcome (results * socket) :=
  '(result_data, s') ← client_receive order fuel s;
  rs ← pickle_loads result_data;
  Done (rs, s').

(** The main loop of [pi_client.py]; a read carries the frame and the
    value of [time.time()] taken in that iteration. *)
Fixpoint client_loop (reads : list (read (F * Q))) (s : socket) (tr : tracker)
    : list client_event * tracker * stop :=
  match reads with
  | [] => ([], tr, OutOfReads)
  | NoFrame :: rest => client_loop rest s tr
  | Frame (f, current_time) quit :: rest =>
      match frame_message order (pickle_dumps f) with
      | Raised e => ([], tr, Crashed e)
      | Spinning => ([], tr, Hung)
      | Done msg =>
          match sendall s msg with
          | Raised _ => ([], tr, SendError)
          | Spinning => ([], tr, Hung)
          | Done s1 =>
              match receive_results s1 with
              | Raised e => ([FrameSent msg], tr, ReceiveError e)
              | Spinning => ([FrameSent msg], tr, Hung)
              | Done (rs, s2) =>
                  let '(tr', _, alerts) := tick tr rs current_time in
                  if quit
                  then ([FrameSent msg; ResultsShown rs alerts], tr', Quit)
                  else
                    let '(evs, tr_end, st) := client_loop rest s2 tr' in
                    (FrameSent msg :: ResultsShown rs alerts :: evs,
                     tr_end, st)
              end
          end
      end
  end.

End Client.

(** One round of the client: the frame, the clock, the chunks in which
    the reply arrives and the results the reply holds. *)
Record round (F : Type) := Round {
  round_frame : F;
  round_time : Q;
  reply_chunks : list bytes;
  reply : results
}.
Arguments Round {F} _ _ _ _.
Arguments round_frame {F} _.
Arguments round_time {F} _.
Arguments reply_chunks {F} _.
Arguments reply {F} _.

(** The results shown, with their alerts, in order. *)
Definition shown (evs : list client_event) : list (results * list string) :=
  flat_map (λ ev, match ev with
                  | ResultsShown rs alerts => [(rs, alerts)]
                  | FrameSent _ => []
                  end) evs.

(** The messages sent, in order. *)
Definition sent (evs : list client_event) : list bytes :=
  flat_map (λ ev, match ev with
                  | FrameSent msg => [msg]
                  | ResultsShown _ _ => []
                  end) evs.

(** A toy codec for results: one byte per utensil detection, all forks;
    the unpickler fails on a byte other than [x01]. *)
Fixpoint toy_loads (b : bytes) : outcome results :=
  match b with
  | [] => Done (Results [] [] [])
  | Byte.x01 :: rest =>
      rs ← toy_loads rest;
      Done (Results (item "fork"%string :: utensils rs) [] [])
  | _ => Raised PickleError
  end.

End Loops.

Import Tracker Server Detection Loops.

(** * Proofs *)

(** ** What one frame does to one utensil type *)

Section TrackerFacts.

Lemma only_app k l1 l2 : only k (l1 ++ l2) = only k l1 ++ only k l2.
Proof. apply filter_app. Qed.

Lemma only_elem_of k l : k ∈ l ↔ only k l ≠ [].
Proof.
  unfold only. induction l as [|a l IH]; simpl.
  - split; [intros H; inversion H | intros H; by destruct H].
  - rewrite filter_cons. case_decide; subst.
    + split; [discriminate | intros; left].
    + rewrite elem_of_cons, IH. intuition congruence.
Qed.

Lemma track_utensil_first_seen st now tr alerts k k' :
  utensil_first_seen (track_utensil st now (tr, alerts) k).1 !! k' =
    if decide (k' = k)
    then first_seen_after st now (utensil_first_seen tr !! k)
    else utensil_first_seen tr !! k'.
Proof.
  unfold track_utensil, first_seen_after.
  destruct (state_eqb st UNATTENDED);
    destruct (utensil_first_seen tr !! k) as [f|] eqn:E; simpl;
    repeat (match goal with |- context [if ?b then _ else _] =>
              lazymatch b with decide _ => fail | _ => destruct b end end);
    simpl; case_decide; subst; simplify_map_eq; done.
Qed.

Lemma track_utensil_last_alert st now tr alerts k k' :
  last_alert_time (track_utensil st now (tr, alerts) k).1 !! k' =
    if decide (k' = k)
    then last_alert_after st now (utensil_first_seen tr !! k)
                          (last_alert_time tr !! k)
    else last_alert_time tr !! k'.
Proof.
  unfold track_utensil, last_alert_after, alert_due, cooled_down.
  destruct (state_eqb st UNATTENDED);
    destruct (utensil_first_seen tr !! k) as [f|] eqn:E; simpl;
    try destruct (Qge_bool (now - f) UNATTENDED_THRESHOLD); simpl;
    try destruct (last_alert_time tr !! k) as [l|] eqn:E'; simpl;
    try destruct (Qge_bool (now - l) ALERT_COOLDOWN); simpl;
    case_decide; subst; simplify_map_eq; done.
Qed.

Lemma track_utensil_alerts st now tr alerts k :
  (track_utensil st now (tr, alerts) k).2 =
    alerts ++
    if alert_due st now (utensil_first_seen tr !! k) (last_alert_time tr !! k)
    then [k] else [].
Proof.
  unfold track_utensil, alert_due, cooled_down.
  destruct (state_eqb st UNATTENDED);
    destruct (utensil_first_seen tr !! k) as [f|] eqn:E; simpl;
    try destruct (Qge_bool (now - f) UNATTENDED_THRESHOLD); simpl;
    try destruct (last_alert_time tr !! k) as [l|] eqn:E'; simpl;
    try destruct (Qge_bool (now - l) ALERT_COOLDOWN); simpl;
    by rewrite ?app_nil_r.
Qed.

(** The whole [for] loop over distinct keys, seen from one key. *)
Lemma track_loop st now l :
  NoDup l → ∀ tr alerts k,
  let r := fold_left (track_utensil st now) l (tr, alerts) in
  utensil_first_seen r.1 !! k =
    (if decide (k ∈ l)
     then first_seen_after st now (utensil_first_seen tr !! k)
     else utensil_first_seen tr !! k) ∧
  last_alert_time r.1 !! k =
    (if decide (k ∈ l)
     then last_alert_after st now (utensil_first_seen tr !! k)
                           (last_alert_time tr !! k)
     else last_alert_time tr !! k) ∧
  only k r.2 =
    only k alerts ++
    (if decide (k ∈ l)
     then if alert_due st now (utensil_first_seen tr !! k)
                       (last_alert_time tr !! k) then [k] else []
     else []).
Proof.
  induction 1 as [|a l Ha Hl IH]; intros tr alerts k; cbn [fold_left].
  - rewrite !decide_False by apply not_elem_of_nil. by rewrite app_nil_r.
  - destruct (track_utensil st now (tr, alerts) a) as [tr1 al1] eqn:E.
    pose proof (track_utensil_first_seen st now tr alerts a k) as Hf.
    pose proof (track_utensil_last_alert st now tr alerts a k) as Hla.
    pose proof (track_utensil_alerts st now tr alerts a) as Hal.
    rewrite E in Hf, Hla, Hal. simpl in Hf, Hla, Hal.
    destruct (IH tr1 al1 k) as (IH1 & IH2 & IH3).
    rewrite IH1, IH2, IH3, Hf, Hla, Hal. clear IH IH1 IH2 IH3 Hf Hla Hal E.
    rewrite only_app.
    destruct (decide (k = a)) as [->|Hne].
    + destruct (decide (a ∈ l)) as [?|_]; [done|].
      destruct (decide (a ∈ a :: l)) as [_|Hn]; [|destruct Hn; left].
      rewrite app_nil_r. split; [done|]. split; [done|].
      destruct (alert_due _ _ _ _); unfold only; simpl; [|done].
      rewrite filter_cons, decide_True by done. done.
    + assert (only k (if alert_due st now (utensil_first_seen tr !! a)
                            (last_alert_time tr !! a) then [a] else []) = [])
        as ->.
      { destruct (alert_due _ _ _ _); unfold only; [|done].
        rewrite filter_cons, decide_False by congruence. done. }
      rewrite app_nil_r.
      destruct (decide (k ∈ l)) as [Hin|Hin];
        destruct (decide (k ∈ a :: l)) as [Hin'|Hin']; try done.
      * destruct Hin'. by right.
      * apply elem_of_cons in Hin'. intuition.
Qed.

Lemma fold_delete_lookup (l : list string) : ∀ (m : gmap string Q) k,
  fold_left (λ m u, delete u m) l m !! k =
    if decide (k ∈ l) then None else m !! k.
Proof.
  induction l as [|a l IH]; intros m k; cbn [fold_left].
  - destruct (decide (k ∈ [])) as [Hin|_]; [inversion Hin | done].
  - rewrite IH.
    destruct (decide (k ∈ l)) as [Hin|Hin];
      destruct (decide (k ∈ a :: l)) as [Hin'|Hin']; try done.
    + destruct Hin'. by right.
    + apply elem_of_cons in Hin' as [->|?]; [|done]. apply lookup_delete_eq.
    + apply lookup_delete_ne. intros ->. apply Hin'. left.
Qed.

Lemma remove_undetected_lookup fs cnt k :
  remove_undetected fs cnt !! k =
    if decide (k ∈ keys cnt) then fs !! k else None.
Proof.
  unfold remove_undetected, utensils_to_remove.
  rewrite fold_delete_lookup.
  destruct (decide (k ∈ keys cnt)) as [Hin|Hin].
  - rewrite decide_False; [done|].
    rewrite list_elem_of_filter. tauto.
  - destruct (fs !! k) as [v|] eqn:E.
    + rewrite decide_True; [done|].
      rewrite list_elem_of_filter. split; [done|].
      apply list_elem_of_fmap. exists (k, v). split; [done|].
      by apply elem_of_map_to_list.
    + by destruct (decide _).
Qed.

Lemma keys_count_up d k :
  keys (count_up d k) = if decide (k ∈ keys d) then keys d else keys d ++ [k].
Proof.
  induction d as [|[k' n] d IH]; cbn [count_up keys map fst].
  - destruct (decide (k ∈ [])) as [Hin|_]; [inversion Hin | done].
  - fold (keys d). fold (keys (count_up d k)).
    destruct (decide (k' = k)) as [->|Hne]; cbn [keys map fst].
    + destruct (decide (k ∈ k :: keys d)) as [_|Hn]; [done|].
      destruct Hn. left.
    + fold (keys (count_up d k)). rewrite IH.
      destruct (decide (k ∈ keys d)) as [Hin|Hin];
        destruct (decide (k ∈ k' :: keys d)) as [Hin'|Hin']; try done.
      * destruct Hin'. by right.
      * apply elem_of_cons in Hin'. intuition congruence.
Qed.

Lemma keys_fold_count_up l : ∀ d,
  NoDup (keys d) →
  NoDup (keys (fold_left count_up l d)) ∧
  ∀ k, k ∈ keys (fold_left count_up l d) ↔ k ∈ keys d ∨ k ∈ l.
Proof.
  induction l as [|a l IH]; intros d Hd; simpl.
  - split; [done|]. intros k. rewrite elem_of_nil. tauto.
  - destruct (IH (count_up d a)) as [IH1 IH2].
    + rewrite keys_count_up. destruct (decide (a ∈ keys d)); [done|].
      apply NoDup_app. split; [done|]. split; [|apply NoDup_singleton].
      intros x Hx Hx'. apply list_elem_of_singleton in Hx'. by subst.
    + split; [done|]. intros k. rewrite IH2, keys_count_up, elem_of_cons.
      destruct (decide (a ∈ keys d)).
      * split; [tauto|]. intros [?|[->|?]]; tauto.
      * rewrite elem_of_app, list_elem_of_singleton. tauto.
Qed.

Lemma keys_utensil_count_NoDup rs : NoDup (keys (utensil_count rs)).
Proof. apply keys_fold_count_up. constructor. Qed.

Lemma elem_of_keys_utensil_count rs k :
  k ∈ keys (utensil_count rs) ↔ k ∈ map class_name (utensils rs).
Proof.
  unfold utensil_count.
  destruct (keys_fold_count_up (map class_name (utensils rs)) []) as [_ H].
  - constructor.
  - rewrite H. simpl. rewrite elem_of_nil. tauto.
Qed.

(** One frame, seen from one key. *)
Lemma tick_spec tr rs now k :
  (tick tr rs now).1.2 = label rs ∧
  utensil_first_seen (tick_state tr rs now) !! k =
    (if decide (detected rs k)
     then first_seen_after (label rs) now (utensil_first_seen tr !! k)
     else None) ∧
  last_alert_time (tick_state tr rs now) !! k =
    (if alerts_for tr rs now k then Some now else last_alert_time tr !! k) ∧
  only k (tick_alerts tr rs now) = (if alerts_for tr rs now k then [k] else []).
Proof.
  unfold tick_state, tick_alerts, tick, alerts_for, detected.
  pose proof (track_loop (label rs) now (keys (utensil_count rs))
                (keys_utensil_count_NoDup rs) tr [] k) as H.
  destruct (fold_left _ _ _) as [tr1 alerts]. simpl in H.
  destruct H as (H1 & H2 & H3). split; [done|]. simpl.
  rewrite remove_undetected_lookup, H1, H2, H3. unfold last_alert_after.
  destruct (decide (k ∈ keys (utensil_count rs))) as [Hin|Hin].
  - rewrite bool_decide_eq_true_2 by done. simpl. done.
  - rewrite bool_decide_eq_false_2 by done. simpl. done.
Qed.

Lemma tick_first_seen tr rs now k :
  utensil_first_seen (tick_state tr rs now) !! k =
    if decide (detected rs k)
    then first_seen_after (label rs) now (utensil_first_seen tr !! k)
    else None.
Proof. apply tick_spec. Qed.

Lemma tick_last_alert tr rs now k :
  last_alert_time (tick_state tr rs now) !! k =
    if alerts_for tr rs now k then Some now else last_alert_time tr !! k.
Proof. apply tick_spec. Qed.

Lemma tick_only tr rs now k :
  only k (tick_alerts tr rs now) = if alerts_for tr rs now k then [k] else [].
Proof. apply tick_spec. Qed.

Lemma tick_alerts_elem_of tr rs now k :
  k ∈ tick_alerts tr rs now ↔ alerts_for tr rs now k = true.
Proof.
  rewrite only_elem_of, tick_only.
  destruct (alerts_for tr rs now k); split; congruence.
Qed.

Lemma run_cons tr rs now rest :
  run tr ((rs, now) :: rest) =
    (tick_alerts tr rs now :: (run (tick_state tr rs now) rest).1,
     (run (tick_state tr rs now) rest).2).
Proof.
  unfold tick_state, tick_alerts. simpl.
  destruct (tick tr rs now) as [[tr' st] alerts]. simpl.
  by destruct (run tr' rest).
Qed.

Lemma run_app tr f1 : ∀ f2,
  run tr (f1 ++ f2) =
    ((run tr f1).1 ++ (run (run tr f1).2 f2).1, (run (run tr f1).2 f2).2).
Proof.
  revert tr. induction f1 as [|[rs now] f1 IH]; intros tr f2.
  - simpl. by destruct (run tr f2).
  - rewrite <- app_comm_cons, !run_cons, IH. done.
Qed.

Lemma run_length frames : ∀ tr, length (run tr frames).1 = length frames.
Proof.
  induction frames as [|[rs now] frames IH]; intros tr; [done|].
  rewrite run_cons. simpl. by rewrite IH.
Qed.

(** A stretch of unattended frames none of which is due for an alert:
    no alert for [k], and both entries of [k] are unchanged. *)
Lemma run_quiet k first la frames : ∀ tr,
  Forall (λ f, shows_unattended k f ∧
               alert_due UNATTENDED f.2 (Some first) la = false) frames →
  utensil_first_seen tr !! k = Some first →
  last_alert_time tr !! k = la →
  Forall (λ alerts, k ∉ alerts) (run tr frames).1 ∧
  utensil_first_seen (run tr frames).2 !! k = Some first ∧
  last_alert_time (run tr frames).2 !! k = la.
Proof.
  induction frames as [|[rs now] frames IH]; intros tr Hall Hfs Hla.
  - simpl. by split.
  - inversion Hall as [|? ? [[Hl Hd] Hq] Hall']; subst. simpl in Hl, Hd, Hq.
    rewrite run_cons. simpl.
    assert (alerts_for tr rs now k = false) as Hno.
    { unfold alerts_for. rewrite Hl, Hfs, Hq. apply andb_false_r. }
    destruct (IH (tick_state tr rs now)) as (IH1 & IH2 & IH3); [done| | |].
    + rewrite tick_first_seen, decide_True by done. by rewrite Hl, Hfs.
    + by rewrite tick_last_alert, Hno.
    + split; [|done]. constructor; [|done].
      rewrite tick_alerts_elem_of, Hno. done.
Qed.

Lemma Qge_bool_true a b : Qge_bool a b = true ↔ (b <= a)%Q.
Proof. apply Qle_bool_iff. Qed.

Lemma Qge_bool_false a b : Qge_bool a b = false ↔ (a < b)%Q.
Proof.
  unfold Qge_bool. rewrite <- not_true_iff_false, Qle_bool_iff.
  split; [apply Qnot_le_lt | apply Qlt_not_le].
Qed.

Lemma alert_due_alerted now first last :
  alert_due UNATTENDED now (Some first) (Some last) =
    Qge_bool (now - first) UNATTENDED_THRESHOLD &&
    Qge_bool (now - last) ALERT_COOLDOWN.
Proof. reflexivity. Qed.

Lemma has_utensils_true rs : has_utensils rs = true ↔ utensils rs ≠ [].
Proof.
  unfold has_utensils. rewrite Nat.ltb_lt.
  replace (length (utensil_count rs)) with (length (keys (utensil_count rs)))
    by apply length_map.
  destruct (utensils rs) as [|d ds] eqn:E.
  - unfold utensil_count. rewrite E. simpl. split; [lia | done].
  - split; [done|]. intros _.
    assert (class_name d ∈ keys (utensil_count rs)) as Hin.
    { apply elem_of_keys_utensil_count. rewrite E. left. }
    destruct (keys (utensil_count rs)); [inversion Hin | simpl; lia].
Qed.

Lemma only_length_NoDup (l : list string) :
  (∀ k, (length (only k l) ≤ 1)%nat) → NoDup l.
Proof.
  induction l as [|a l IH]; intros H; [constructor|].
  constructor.
  - intros Hin. apply only_elem_of in Hin. specialize (H a).
    unfold only in *. rewrite filter_cons, decide_True in H by done.
    destruct (filter _ l); [done | simpl in H; lia].
  - apply IH. intros k. specialize (H k). unfold only in *.
    rewrite filter_cons in H. destruct (decide (a = k)); simpl in H; lia.
Qed.

Lemma tick_alerts_NoDup tr rs now : NoDup (tick_alerts tr rs now).
Proof.
  apply only_length_NoDup. intros k. rewrite tick_only.
  destruct (alerts_for tr rs now k); simpl; lia.
Qed.

End TrackerFacts.

(** ** Rounding in the subtraction of floats *)

(** [current_time - last] is the float nearest to the difference of the
    two numbers.  The lemmas below follow [SFsub] through its alignment,
    shift and rounding steps to bound that difference from below when
    the float that comes out passes a comparison. *)

Section Rounding.

Import Binary64.

Local Open Scope Z_scope.

Lemma pow2_pos e : (0 < 2 ^ e)%Q.
Proof. by apply Qpower_0_lt. Qed.

Lemma pow2_add a b : (2 ^ (a + b) == 2 ^ a * 2 ^ b)%Q.
Proof. by apply Qpower_plus. Qed.

Lemma pow2_le a b : a ≤ b → (2 ^ a <= 2 ^ b)%Q.
Proof. intros H. apply Qpower_le_compat_l; [done|]. by compute. Qed.

Lemma scaled_le m m' e : m ≤ m' → (scaled m e <= scaled m' e)%Q.
Proof.
  intros H. unfold scaled. apply Qmult_le_compat_r.
  - by rewrite <- Zle_Qle.
  - apply Qlt_le_weak, pow2_pos.
Qed.

Lemma scaled_shift m n e :
  0 ≤ n → (scaled (m * 2 ^ n) e == scaled m (e + n))%Q.
Proof.
  intros Hn. unfold scaled.
  rewrite inject_Z_mult, Zpower_Qpower, (Z.add_comm e n), pow2_add by done.
  change (inject_Z 2) with 2%Q. symmetry. apply Qmult_assoc.
Qed.

Lemma scaled_floor m n e :
  0 ≤ n → (scaled (m / 2 ^ n) (e + n) <= scaled m e)%Q.
Proof.
  intros Hn. rewrite <- scaled_shift by done. apply scaled_le.
  rewrite Z.mul_comm. apply Z.mul_div_le. by apply Z.pow_pos_nonneg.
Qed.


Lemma digits2_size p : digits2_pos p = Pos.size p.
Proof. induction p as [p IH|p IH|]; simpl; by rewrite ?IH. Qed.

Lemma digits_bounds p :
  2 ^ (Z.pos (digits2_pos p) - 1) ≤ Z.pos p < 2 ^ Z.pos (digits2_pos p).
Proof.
  rewrite digits2_size.
  pose proof (Pos.size_gt p) as Hgt. pose proof (Pos.size_le p) as Hle.
  apply Pos2Z.pos_lt_pos in Hgt. apply Pos2Z.pos_le_pos in Hle.
  rewrite Pos2Z.inj_pow in Hgt, Hle.
  replace (Z.pos (Pos.size p)) with (Z.succ (Z.pos (Pos.size p) - 1)) in Hle
    by lia.
  rewrite Z.pow_succ_r in Hle by lia. lia.
Qed.

Lemma scaled_pow2 n e : 0 ≤ n → (scaled (2 ^ n) e == 2 ^ (e + n))%Q.
Proof.
  intros Hn. rewrite <- (Z.mul_1_l (2 ^ n)), scaled_shift by done.
  unfold scaled. apply Qmult_1_l.
Qed.

Lemma scaled_digits_lower p e :
  (2 ^ (Z.pos (digits2_pos p) + e - 1) <= scaled (Z.pos p) e)%Q.
Proof.
  replace (Z.pos (digits2_pos p) + e - 1) with (e + (Z.pos (digits2_pos p) - 1))
    by lia.
  rewrite <- scaled_pow2 by lia. apply scaled_le, digits_bounds.
Qed.

Lemma iter_xO m d : Z.pos (Pos.iter xO m d) = Z.pos m * 2 ^ Z.pos d.
Proof.
  induction d as [|d IH] using Pos.peano_ind.
  - simpl. lia.
  - rewrite Pos.iter_succ, Pos2Z.inj_succ, Z.pow_succ_r by lia.
    rewrite Pos2Z.inj_xO, IH. lia.
Qed.

Lemma digits_iter_xO m d :
  digits2_pos (Pos.iter xO m d) = (digits2_pos m + d)%positive.
Proof.
  induction d as [|d IH] using Pos.peano_ind.
  - simpl. lia.
  - rewrite Pos.iter_succ. simpl. rewrite IH. lia.
Qed.

Lemma shl_align_spec m e e0 :
  (shl_align m e e0).2 = Z.min e e0 ∧
  Z.pos (shl_align m e e0).1 = Z.pos m * 2 ^ (e - Z.min e e0) ∧
  Z.pos (digits2_pos (shl_align m e e0).1) + Z.min e e0 =
    Z.pos (digits2_pos m) + e.
Proof.
  unfold shl_align. destruct (e0 - e) as [|d|d] eqn:E; simpl.
  - replace (Z.min e e0) with e by lia. rewrite Z.sub_diag. lia.
  - replace (Z.min e e0) with e by lia. rewrite Z.sub_diag. lia.
  - replace (Z.min e e0) with e0 by lia.
    replace (e - e0) with (Z.pos d) by lia.
    rewrite iter_xO, digits_iter_xO. lia.
Qed.

(** [iter_pos] is iteration. *)
Lemma iter_pos_nat {A} (f : A → A) p : ∀ x,
  SpecFloat.iter_pos f p x = Nat.iter (Pos.to_nat p) f x.
Proof.
  induction p as [p IH|p IH|]; intros x; cbn [SpecFloat.iter_pos].
  - rewrite !IH, Pos2Nat.inj_xI, <- Nat.iter_succ_r, <- Nat.iter_add.
    f_equal. lia.
  - rewrite !IH, Pos2Nat.inj_xO, <- Nat.iter_add. f_equal. lia.
  - done.
Qed.

Lemma shr_1_spec mrs :
  0 ≤ shr_m mrs →
  shr_m (shr_1 mrs) = shr_m mrs / 2 ∧
  shr_r (shr_1 mrs) = Z.odd (shr_m mrs).
Proof.
  destruct mrs as [[|[p|p|]|p] r s]; simpl; intros H; try lia.
  - done.
  - split; [|done]. rewrite Pos2Z.inj_xI.
    apply (Z.div_unique _ 2 _ 1); lia.
  - split; [|done]. rewrite Pos2Z.inj_xO.
    apply (Z.div_unique _ 2 _ 0); lia.
  - done.
Qed.

Lemma shr_iter k : ∀ mrs,
  0 ≤ shr_m mrs →
  shr_m (Nat.iter k shr_1 mrs) = shr_m mrs / 2 ^ Z.of_nat k.
Proof.
  induction k as [|k IH]; intros mrs H.
  - simpl. by rewrite Z.div_1_r.
  - rewrite Nat.iter_succ.
    assert (0 ≤ shr_m (Nat.iter k shr_1 mrs)) as H'.
    { rewrite IH by done. apply Z.div_pos; [done|].
      apply Z.pow_pos_nonneg; lia. }
    rewrite (proj1 (shr_1_spec _ H')), IH by done.
    rewrite Nat2Z.inj_succ, Z.pow_succ_r by lia.
    rewrite Z.div_div by (try apply Z.pow_pos_nonneg; lia).
    f_equal. lia.
Qed.


(** Shifting [m] right by [n] places and rounding to nearest gives [m1]
    with [(m1 - 1/2) * 2^(e + n) <= m * 2^e]. *)
Lemma shr_round m e n :
  0 ≤ m →
  let r := shr (Build_shr_record m false false) e n in
  let m1 := round_nearest_even (shr_m r.1) (loc_of_shr_record r.1) in
  r.2 = e + Z.max 0 n ∧
  shr_m r.1 = m / 2 ^ Z.max 0 n ∧
  0 ≤ shr_m r.1 ≤ m1 ∧
  (scaled (2 * m1 - 1) (r.2 - 1) <= scaled m e)%Q.
Proof.
  intros Hm.
  assert (scaled (2 * m - 1) (e - 1) <= scaled m e)%Q as Hexact.
  { eapply Qle_trans; [apply (scaled_le _ (m * 2 ^ 1) (e - 1)); lia|].
    rewrite scaled_shift by lia. replace (e - 1 + 1) with e by lia.
    apply Qle_refl. }
  destruct n as [|p|p]; cbn [shr fst snd Z.max Z.compare].
  - rewrite Z.add_0_r, Z.pow_0_r, Z.div_1_r. simpl. by repeat split.
  - rewrite iter_pos_nat.
    destruct (Pos2Nat.is_succ p) as [k Hk]. rewrite Hk, Nat.iter_succ.
    set (y := Nat.iter k shr_1 (Build_shr_record m false false)).
    assert (shr_m y = m / 2 ^ Z.of_nat k) as Hy by (by apply shr_iter).
    assert (0 ≤ shr_m y) as Hy0.
    { rewrite Hy. apply Z.div_pos; [done|]. apply Z.pow_pos_nonneg; lia. }
    destruct (shr_1_spec y Hy0) as [Hm' Hr].
    assert (Z.pos p = Z.succ (Z.of_nat k)) as Hp by lia.
    assert (shr_m (shr_1 y) = m / 2 ^ Z.pos p) as Hshift.
    { rewrite Hm', Hy, Hp, Z.pow_succ_r by lia.
      rewrite Z.div_div by (try apply Z.pow_pos_nonneg; lia).
      f_equal. lia. }
    assert (0 ≤ shr_m (shr_1 y)) as Hm0.
    { rewrite Hm'. apply Z.div_pos; lia. }
    pose proof (Z.div_mod (shr_m y) 2 ltac:(lia)) as Hdiv.
    rewrite <- Hm' in Hdiv.
    assert (shr_m (shr_1 y) ≤
              round_nearest_even (shr_m (shr_1 y))
                                 (loc_of_shr_record (shr_1 y)) ∧
            2 * round_nearest_even (shr_m (shr_1 y))
                                   (loc_of_shr_record (shr_1 y)) - 1 ≤
              shr_m y) as [Hle Hup].
    { rewrite Zmod_odd, <- Hr in Hdiv.
      destruct (shr_1 y) as [m' [] []]; simpl in *;
        try destruct (Z.even m'); lia. }
    split; [done|]. split; [done|]. split; [done|].
    eapply Qle_trans; [apply scaled_le, Hup|].
    rewrite Hy. replace (e + Z.pos p - 1) with (e + Z.of_nat k) by lia.
    apply scaled_floor. lia.
  - rewrite Z.add_0_r, Z.pow_0_r, Z.div_1_r. simpl. by repeat split.
Qed.


Lemma scaled_exp_le m e e' : 0 ≤ m → e ≤ e' → (scaled m e <= scaled m e')%Q.
Proof.
  intros Hm He. unfold scaled. rewrite !(Qmult_comm (inject_Z m)).
  apply Qmult_le_compat_r; [by apply pow2_le|].
  by rewrite <- (Zle_Qle 0).
Qed.

Lemma bounded_spec (mB : positive) (eB : Z) :
  bounded prec emax mB eB = true →
  Z.pos mB < 2 ^ 53 ∧ -1074 ≤ eB ≤ 971.
Proof.
  unfold bounded, canonical_mantissa, fexp, emin, prec, emax.
  intros [H1 H2]%andb_true_iff. apply Z.eqb_eq in H1. apply Z.leb_le in H2.
  split; [|lia].
  eapply Z.lt_le_trans; [apply digits_bounds|].
  apply Z.pow_le_mono_r; lia.
Qed.


(** What [binary_round_aux] returns is at least the float [B] only if
    the number it rounds is at least [B] less half a unit in the last
    place of [B]. *)
Lemma round_aux_lower (mB : positive) (eB : Z) (mz : positive) (e1 : Z) :
  bounded prec emax mB eB = true →
  e1 ≤ fexp prec emax (Z.pos (digits2_pos mz) + e1) →
  SFleb (S754_finite false mB eB)
        (binary_round_aux prec emax false (Z.pos mz) e1 loc_Exact) = true →
  (scaled (2 * Z.pos mB - 1) (eB - 1) <= scaled (Z.pos mz) e1)%Q.
Proof.
  intros [HmB HeB]%bounded_spec He1 Hle.
  unfold binary_round_aux, shr_fexp in Hle.
  cbn [shr_record_of_loc Zdigits2] in Hle.
  set (F := fexp prec emax (Z.pos (digits2_pos mz) + e1)) in *.
  destruct (shr_round (Z.pos mz) e1 (F - e1) ltac:(lia))
    as (HF & _ & [Hm0 Hm1] & HA).
  destruct (shr (Build_shr_record (Z.pos mz) false false) e1 (F - e1))
    as [mrs' e'] eqn:E1.
  cbn [fst snd] in HF, Hm0, Hm1, HA.
  set (m1 := round_nearest_even (shr_m mrs') (loc_of_shr_record mrs')) in *.
  assert (e' = F) as -> by lia. clear HF.
  set (n2 := fexp prec emax (Zdigits2 m1 + F) - F) in *.
  destruct (shr_round m1 F n2 ltac:(lia)) as (He'' & Hm2 & _ & _).
  destruct (shr (Build_shr_record m1 false false) F n2) as [mrs'' e''] eqn:E2.
  cbn [fst snd] in He'', Hm2.
  pose proof (scaled_digits_lower mz e1) as HB.
  assert (-1074 ≤ F) as HFmin by (unfold F, fexp, emin, prec, emax; lia).
  assert (scaled (2 * Z.pos mB - 1) (eB - 1) <= 2 ^ (eB + 53))%Q as Htop.
  { replace (eB + 53) with (eB - 1 + 54) by lia.
    rewrite <- scaled_pow2 by lia. apply scaled_le. lia. }
  (* the two ways in which the result is at least [B] *)
  assert (eB < e'' ∨ eB = e'' ∧ Z.pos mB ≤ shr_m mrs'') as Hcmp.
  { destruct (shr_m mrs'') as [|q|q]; [done| |done].
    destruct (Z.leb e'' (emax - prec)) eqn:Eover.
    - unfold SFleb, SFcompare in Hle.
      destruct (Z.compare_spec eB e'') as [Heq|Hlt|Hgt]; [right|by left|done].
      split; [done|]. rewrite Pos.compare_cont_spec in Hle. simpl in Hle.
      destruct (Pos.compare_spec mB q); try done; lia.
    - apply Z.leb_gt in Eover. unfold emax, prec in Eover. left. lia. }
  destruct (Z.max_spec 0 n2) as [[Hn2 Hmax]|[Hn2 Hmax]];
    rewrite Hmax in He'', Hm2.
  - (* the rounded mantissa is shifted once more *)
    assert (0 < m1) as Hm1pos.
    { destruct (Z.eq_dec m1 0) as [H0|H0]; [|lia].
      unfold n2 in Hn2. rewrite H0 in Hn2. simpl in Hn2.
      unfold fexp, emin, prec, emax in Hn2. lia. }
    destruct m1 as [|p1|p1] eqn:Em1; try lia.
    cbn [Zdigits2] in *.
    pose proof (digits_bounds p1) as Hd1.
    assert (54 ≤ Z.pos (digits2_pos p1)) as Hd54
      by (unfold n2, fexp, emin, prec, emax in Hn2; lia).
    assert (2 ^ 53 ≤ 2 ^ (Z.pos (digits2_pos p1) - 1)) as Hp53
      by (apply Z.pow_le_mono_r; lia).
    assert (0 < 2 ^ n2) as Hpow by (apply Z.pow_pos_nonneg; lia).
    eapply Qle_trans; [|exact HA].
    destruct Hcmp as [Hlt|[Heq HmBq]].
    + assert (e'' = Z.pos (digits2_pos p1) + F - 53) as Hd
        by (unfold n2, fexp, emin, prec, emax in *; lia).
      destruct (Z.le_gt_cases eB F) as [HeF|HeF].
      * eapply Qle_trans; [apply (scaled_le _ (2 * Z.pos p1 - 1)); lia|].
        apply scaled_exp_le; lia.
      * eapply Qle_trans; [apply (scaled_le _ (2 ^ 54 - 1)); lia|].
        replace (eB - 1) with (F - 1 + (eB - F)) by lia.
        rewrite <- scaled_shift by lia. apply scaled_le.
        assert (0 < 2 ^ (eB - F)) by (apply Z.pow_pos_nonneg; lia).
        assert (2 ^ (eB - F) * 2 ^ 54 ≤ 2 * 2 ^ (Z.pos (digits2_pos p1) - 1)).
        { rewrite <- Z.pow_add_r, <- Z.pow_succ_r by lia.
          apply Z.pow_le_mono_r; lia. }
        nia.
    + replace (eB - 1) with (F - 1 + n2) by lia.
      rewrite <- scaled_shift by lia. apply scaled_le.
      pose proof (Z.mul_div_le (Z.pos p1) (2 ^ n2) Hpow). nia.
  - (* it is not *)
    rewrite Z.pow_0_r, Z.div_1_r in Hm2. rewrite Z.add_0_r in He''. subst e''.
    destruct Hcmp as [Hlt|[Heq HmBq]].
    + eapply Qle_trans; [exact Htop|]. eapply Qle_trans; [|exact HB].
      apply pow2_le. unfold F, fexp, emin, prec, emax in *. lia.
    + eapply Qle_trans; [|exact HA]. subst eB. apply scaled_le. lia.
Qed.


Lemma binary_round_lower (mB : positive) (eB : Z) (m : positive) (e : Z) :
  bounded prec emax mB eB = true →
  SFleb (S754_finite false mB eB) (binary_round prec emax false m e) = true →
  (scaled (2 * Z.pos mB - 1) (eB - 1) <= scaled (Z.pos m) e)%Q.
Proof.
  intros HB Hle. unfold binary_round in Hle.
  set (F := fexp prec emax (Z.pos (digits2_pos m) + e)) in *.
  destruct (shl_align_spec m e F) as (H1 & H2 & H3).
  destruct (shl_align m e F) as [mz e1]. cbn [fst snd] in H1, H2, H3.
  assert (scaled (Z.pos mz) e1 == scaled (Z.pos m) e)%Q as <-.
  { rewrite H2, scaled_shift, H1 by lia.
    by replace (e `min` F + (e - e `min` F)) with e by lia. }
  apply round_aux_lower; [done| |done].
  rewrite H1, H3. fold F. lia.
Qed.

Lemma binary_round_negative (B : float64) (m : positive) (e : Z) :
  (∃ mB eB, B = S754_finite false mB eB) →
  SFleb B (binary_round prec emax true m e) = false.
Proof.
  intros (mB & eB & ->). unfold binary_round, binary_round_aux.
  destruct (shl_align _ _ _) as [mz e1].
  destruct (shr_fexp _ _ _ _ _) as [mrs' e'].
  destruct (shr_fexp _ _ _ _ _) as [mrs'' e''].
  destruct (shr_m mrs''); [done| |done].
  by destruct (Z.leb _ _).
Qed.

Lemma scaled_sub a b e : (scaled (a - b) e == scaled a e - scaled b e)%Q.
Proof. unfold scaled, Z.sub. rewrite inject_Z_plus, inject_Z_opp. ring. Qed.

Lemma scaled_half m e : (scaled (2 * m - 1) (e - 1) <= scaled m e)%Q.
Proof.
  eapply Qle_trans; [apply (scaled_le _ (m * 2 ^ 1) (e - 1)); lia|].
  rewrite scaled_shift by lia. replace (e - 1 + 1) with e by lia.
  apply Qle_refl.
Qed.

(** Comparing two floats compares the numbers they stand for. *)
Lemma compare_lower (mB : positive) (eB : Z) (m : positive) (e : Z) :
  bounded prec emax mB eB = true →
  bounded prec emax m e = true →
  SFleb (S754_finite false mB eB) (S754_finite false m e) = true →
  (scaled (Z.pos mB) eB <= scaled (Z.pos m) e)%Q.
Proof.
  intros [HmB HeB]%bounded_spec Hb Hle.
  unfold SFleb, SFcompare in Hle.
  destruct (Z.compare_spec eB e) as [Heq|Hlt|Hgt]; [| |done].
  - subst e. apply scaled_le. rewrite Pos.compare_cont_spec in Hle.
    simpl in Hle. destruct (Pos.compare_spec mB m); try done; lia.
  - eapply Qle_trans; [apply (scaled_le _ (2 ^ 53)); lia|].
    rewrite scaled_pow2 by lia.
    eapply Qle_trans; [|apply scaled_digits_lower]. apply pow2_le.
    unfold bounded, canonical_mantissa, fexp, emin, prec, emax in Hb.
    apply andb_true_iff in Hb as [Hb _]. apply Z.eqb_eq in Hb. lia.
Qed.

(** The integer that [a - b] rounds. *)
Lemma aligned_difference sx mx ex sy my ey :
  let ez := ex `min` ey in
  (scaled (cond_Zopp sx (Z.pos (shl_align mx ex ez).1) -
           cond_Zopp sy (Z.pos (shl_align my ey ez).1)) ez ==
   to_Q (S754_finite sx mx ex) - to_Q (S754_finite sy my ey))%Q.
Proof.
  intros ez.
  destruct (shl_align_spec mx ex ez) as (_ & Hx & _).
  destruct (shl_align_spec my ey ez) as (_ & Hy & _).
  rewrite Hx, Hy, scaled_sub. unfold to_Q.
  replace (ex `min` ez) with ez by lia. replace (ey `min` ez) with ez by lia.
  assert (∀ s m e, ez ≤ e →
            scaled (cond_Zopp s (Z.pos m * 2 ^ (e - ez))) ez ==
            scaled (if s then Z.neg m else Z.pos m) e)%Q as H.
  { intros s m e He.
    replace (cond_Zopp s (Z.pos m * 2 ^ (e - ez)))
      with ((if s then Z.neg m else Z.pos m) * 2 ^ (e - ez))
      by (destruct s; simpl; lia).
    rewrite scaled_shift by lia. by replace (ez + (e - ez)) with e by lia. }
  rewrite !H by lia. reflexivity.
Qed.

(** The test [x - y >= B] of the code passes only if the number [x]
    stands for exceeds that of [y] by at least [B] less half a unit in
    its last place. *)
Lemma elapsed_lower (x y : float64) (mB : positive) (eB : Z) :
  timestamp x = true → timestamp y = true →
  bounded prec emax mB eB = true →
  fge (fsub x y) (S754_finite false mB eB) = true →
  (scaled (2 * Z.pos mB - 1) (eB - 1) <= to_Q x - to_Q y)%Q.
Proof.
  unfold timestamp, fge, fsub. intros Hx Hy HB Hle.
  destruct x as [sx| | |sx mx ex]; try done;
    destruct y as [sy| | |sy my ey]; try done; simpl in Hx, Hy.
  - by destruct sx, sy.
  - destruct sy; [|done]. simpl in Hle.
    rewrite andb_true_r in Hy.
    eapply Qle_trans; [apply scaled_half|].
    eapply Qle_trans; [by apply (compare_lower mB eB my ey)|].
    unfold to_Q, scaled. change (Z.neg my) with (- Z.pos my).
    rewrite inject_Z_opp. apply Qle_lteq. right. ring.
  - destruct sx; [done|]. simpl in Hle.
    rewrite andb_true_r in Hx.
    eapply Qle_trans; [apply scaled_half|].
    eapply Qle_trans; [by apply (compare_lower mB eB mx ex)|].
    unfold to_Q, scaled. apply Qle_lteq. right. ring.
  - rewrite <- aligned_difference. cbn [SFsub] in Hle.
    set (M := cond_Zopp sx _ - cond_Zopp sy _) in *.
    destruct M as [|m|m]; cbn [binary_normalize] in Hle.
    + done.
    + by apply binary_round_lower.
    + rewrite binary_round_negative in Hle by eauto. done.
Qed.


Lemma scaled_lt m m' e : m < m' → (scaled m e < scaled m' e)%Q.
Proof.
  intros H. unfold scaled. apply Qmult_lt_compat_r; [apply pow2_pos|].
  by rewrite <- Zlt_Qlt.
Qed.

(** On floats that are valid, [>=] compares the numbers. *)
Lemma fge_exact (x : float64) (mB : positive) (eB : Z) :
  timestamp x = true →
  bounded prec emax mB eB = true →
  2 ^ 52 ≤ Z.pos mB →
  fge x (S754_finite false mB eB) = true ↔
    (scaled (Z.pos mB) eB <= to_Q x)%Q.
Proof.
  unfold timestamp, fge. intros Hx HB Hnormal.
  assert (0 < scaled (Z.pos mB) eB)%Q as HBpos.
  { unfold scaled. apply Qmult_lt_0_compat; [|apply pow2_pos].
    by rewrite <- (Zlt_Qlt 0). }
  destruct x as [sx| | |sx mx ex]; try done; simpl in Hx.
  - simpl. split; [done|]. intros H. by apply Qle_not_lt in H.
  - rewrite andb_true_r in Hx. destruct sx.
    + simpl. split; [done|]. intros H.
      assert (scaled (Z.neg mx) ex <= 0)%Q as Hneg.
      { eapply Qle_trans; [apply (scaled_le _ 0); lia|].
        unfold scaled. rewrite Qmult_0_l. apply Qle_refl. }
      exfalso. apply (Qlt_irrefl 0).
      eapply Qlt_le_trans; [exact HBpos|].
      eapply Qle_trans; [exact H|]. done.
    + split; [by apply compare_lower|]. simpl. intros H.
      destruct (bounded_spec mB eB HB) as [HmB HeB].
      unfold SFleb, SFcompare.
      destruct (Z.compare_spec eB ex) as [Heq|Hlt|Hgt]; [|done|].
      * subst ex. rewrite Pos.compare_cont_spec. simpl.
        destruct (Pos.compare_spec mB mx) as [?|?|Hgt]; try done.
        exfalso. apply (Qlt_irrefl (scaled (Z.pos mB) eB)).
        eapply Qle_lt_trans; [exact H|]. apply scaled_lt. lia.
      * exfalso. apply (Qlt_irrefl (scaled (Z.pos mB) eB)).
        eapply Qle_lt_trans; [exact H|].
        destruct (bounded_spec mx ex Hx) as [Hmx Hex].
        eapply Qlt_le_trans; [apply (scaled_lt _ (2 ^ 53)); lia|].
        rewrite scaled_pow2 by lia.
        eapply Qle_trans; [apply (pow2_le _ (eB + 52)); lia|].
        rewrite <- scaled_pow2 by lia. by apply scaled_le.
Qed.

End Rounding.

(** ** The same on float timestamps *)

Section Tracker64Facts.

Import Binary64 Tracker64.

Lemma track_utensil_first_seen_64 st now tr alerts k k' :
  utensil_first_seen (track_utensil st now (tr, alerts) k).1 !! k' =
    if decide (k' = k)
    then first_seen_after st now (utensil_first_seen tr !! k)
    else utensil_first_seen tr !! k'.
Proof.
  unfold track_utensil, first_seen_after.
  destruct (state_eqb st UNATTENDED);
    destruct (utensil_first_seen tr !! k) as [f|] eqn:E; simpl;
    repeat (match goal with |- context [if ?b then _ else _] =>
              lazymatch b with decide _ => fail | _ => destruct b end end);
    simpl; case_decide; subst; simplify_map_eq; done.
Qed.

Lemma track_utensil_last_alert_64 st now tr alerts k k' :
  last_alert_time (track_utensil st now (tr, alerts) k).1 !! k' =
    if decide (k' = k)
    then last_alert_after st now (utensil_first_seen tr !! k)
                          (last_alert_time tr !! k)
    else last_alert_time tr !! k'.
Proof.
  unfold track_utensil, last_alert_after, alert_due, cooled_down, elapsed.
  destruct (state_eqb st UNATTENDED);
    destruct (utensil_first_seen tr !! k) as [f|] eqn:E; simpl;
    try destruct (fge (fsub now f) UNATTENDED_THRESHOLD); simpl;
    try destruct (last_alert_time tr !! k) as [l|] eqn:E'; simpl;
    try destruct (fge (fsub now l) ALERT_COOLDOWN); simpl;
    case_decide; subst; simplify_map_eq; done.
Qed.

Lemma track_utensil_alerts_64 st now tr alerts k :
  (track_utensil st now (tr, alerts) k).2 =
    alerts ++
    if alert_due st now (utensil_first_seen tr !! k) (last_alert_time tr !! k)
    then [k] else [].
Proof.
  unfold track_utensil, alert_due, cooled_down, elapsed.
  destruct (state_eqb st UNATTENDED);
    destruct (utensil_first_seen tr !! k) as [f|] eqn:E; simpl;
    try destruct (fge (fsub now f) UNATTENDED_THRESHOLD); simpl;
    try destruct (last_alert_time tr !! k) as [l|] eqn:E'; simpl;
    try destruct (fge (fsub now l) ALERT_COOLDOWN); simpl;
    by rewrite ?app_nil_r.
Qed.

(** The whole [for] loop over distinct keys, seen from one key. *)
Lemma track_loop_64 st now l :
  NoDup l → ∀ tr alerts k,
  let r := fold_left (track_utensil st now) l (tr, alerts) in
  utensil_first_seen r.1 !! k =
    (if decide (k ∈ l)
     then first_seen_after st now (utensil_first_seen tr !! k)
     else utensil_first_seen tr !! k) ∧
  last_alert_time r.1 !! k =
    (if decide (k ∈ l)
     then last_alert_after st now (utensil_first_seen tr !! k)
                           (last_alert_time tr !! k)
     else last_alert_time tr !! k) ∧
  only k r.2 =
    only k alerts ++
    (if decide (k ∈ l)
     then if alert_due st now (utensil_first_seen tr !! k)
                       (last_alert_time tr !! k) then [k] else []
     else []).
Proof.
  induction 1 as [|a l Ha Hl IH]; intros tr alerts k; cbn [fold_left].
  - rewrite !decide_False by apply not_elem_of_nil. by rewrite app_nil_r.
  - destruct (track_utensil st now (tr, alerts) a) as [tr1 al1] eqn:E.
    pose proof (track_utensil_first_seen_64 st now tr alerts a k) as Hf.
    pose proof (track_utensil_last_alert_64 st now tr alerts a k) as Hla.
    pose proof (track_utensil_alerts_64 st now tr alerts a) as Hal.
    rewrite E in Hf, Hla, Hal. simpl in Hf, Hla, Hal.
    destruct (IH tr1 al1 k) as (IH1 & IH2 & IH3).
    rewrite IH1, IH2, IH3, Hf, Hla, Hal. clear IH IH1 IH2 IH3 Hf Hla Hal E.
    rewrite only_app.
    destruct (decide (k = a)) as [->|Hne].
    + destruct (decide (a ∈ l)) as [?|_]; [done|].
      destruct (decide (a ∈ a :: l)) as [_|Hn]; [|destruct Hn; left].
      rewrite app_nil_r. split; [done|]. split; [done|].
      destruct (alert_due _ _ _ _); unfold only; simpl; [|done].
      rewrite filter_cons, decide_True by done. done.
    + assert (only k (if alert_due st now (utensil_first_seen tr !! a)
                            (last_alert_time tr !! a) then [a] else []) = [])
        as ->.
      { destruct (alert_due _ _ _ _); unfold only; [|done].
        rewrite filter_cons, decide_False by congruence. done. }
      rewrite app_nil_r.
      destruct (decide (k ∈ l)) as [Hin|Hin];
        destruct (decide (k ∈ a :: l)) as [Hin'|Hin']; try done.
      * destruct Hin'. by right.
      * apply elem_of_cons in Hin'. intuition.
Qed.

Lemma fold_delete_lookup_64 (l : list string) : ∀ (m : gmap string float64) k,
  fold_left (λ m u, delete u m) l m !! k =
    if decide (k ∈ l) then None else m !! k.
Proof.
  induction l as [|a l IH]; intros m k; cbn [fold_left].
  - destruct (decide (k ∈ [])) as [Hin|_]; [inversion Hin | done].
  - rewrite IH.
    destruct (decide (k ∈ l)) as [Hin|Hin];
      destruct (decide (k ∈ a :: l)) as [Hin'|Hin']; try done.
    + destruct Hin'. by right.
    + apply elem_of_cons in Hin' as [->|?]; [|done]. apply lookup_delete_eq.
    + apply lookup_delete_ne. intros ->. apply Hin'. left.
Qed.

Lemma remove_undetected_lookup_64 fs cnt k :
  remove_undetected fs cnt !! k =
    if decide (k ∈ keys cnt) then fs !! k else None.
Proof.
  unfold remove_undetected, utensils_to_remove.
  rewrite fold_delete_lookup_64.
  destruct (decide (k ∈ keys cnt)) as [Hin|Hin].
  - rewrite decide_False; [done|].
    rewrite list_elem_of_filter. tauto.
  - destruct (fs !! k) as [v|] eqn:E.
    + rewrite decide_True; [done|].
      rewrite list_elem_of_filter. split; [done|].
      apply list_elem_of_fmap. exists (k, v). split; [done|].
      by apply elem_of_map_to_list.
    + by destruct (decide _).
Qed.

(** One frame, seen from one key. *)
Lemma tick_spec_64 tr rs now k :
  (tick tr rs now).1.2 = label rs ∧
  utensil_first_seen (tick_state tr rs now) !! k =
    (if decide (detected rs k)
     then first_seen_after (label rs) now (utensil_first_seen tr !! k)
     else None) ∧
  last_alert_time (tick_state tr rs now) !! k =
    (if alerts_for tr rs now k then Some now else last_alert_time tr !! k) ∧
  only k (tick_alerts tr rs now) = (if alerts_for tr rs now k then [k] else []).
Proof.
  unfold tick_state, tick_alerts, tick, alerts_for, detected.
  pose proof (track_loop_64 (label rs) now (keys (utensil_count rs))
                (keys_utensil_count_NoDup rs) tr [] k) as H.
  destruct (fold_left _ _ _) as [tr1 alerts]. simpl in H.
  destruct H as (H1 & H2 & H3). split; [done|]. simpl.
  rewrite remove_undetected_lookup_64, H1, H2, H3. unfold last_alert_after.
  destruct (decide (k ∈ keys (utensil_count rs))) as [Hin|Hin].
  - rewrite bool_decide_eq_true_2 by done. simpl. done.
  - rewrite bool_decide_eq_false_2 by done. simpl. done.
Qed.

Lemma tick_first_seen_64 tr rs now k :
  utensil_first_seen (tick_state tr rs now) !! k =
    if decide (detected rs k)
    then first_seen_after (label rs) now (utensil_first_seen tr !! k)
    else None.
Proof. apply tick_spec_64. Qed.

Lemma tick_last_alert_64 tr rs now k :
  last_alert_time (tick_state tr rs now) !! k =
    if alerts_for tr rs now k then Some now else last_alert_time tr !! k.
Proof. apply tick_spec_64. Qed.

Lemma tick_only_64 tr rs now k :
  only k (tick_alerts tr rs now) = if alerts_for tr rs now k then [k] else [].
Proof. apply tick_spec_64. Qed.

Lemma tick_alerts_elem_of_64 tr rs now k :
  k ∈ tick_alerts tr rs now ↔ alerts_for tr rs now k = true.
Proof.
  rewrite only_elem_of, tick_only_64.
  destruct (alerts_for tr rs now k); split; congruence.
Qed.

Lemma tick_alerts_NoDup_64 tr rs now : NoDup (tick_alerts tr rs now).
Proof.
  apply only_length_NoDup. intros k. rewrite tick_only_64.
  destruct (alerts_for tr rs now k); simpl; lia.
Qed.

Lemma run_cons_64 tr rs now rest :
  run tr ((rs, now) :: rest) =
    (tick_alerts tr rs now :: (run (tick_state tr rs now) rest).1,
     (run (tick_state tr rs now) rest).2).
Proof.
  unfold tick_state, tick_alerts. simpl.
  destruct (tick tr rs now) as [[tr' st] alerts]. simpl.
  by destruct (run tr' rest).
Qed.

Lemma run_app_64 tr f1 : ∀ f2,
  run tr (f1 ++ f2) =
    ((run tr f1).1 ++ (run (run tr f1).2 f2).1, (run (run tr f1).2 f2).2).
Proof.
  revert tr. induction f1 as [|[rs now] f1 IH]; intros tr f2.
  - simpl. by destruct (run tr f2).
  - rewrite <- app_comm_cons, !run_cons_64, IH. done.
Qed.

Lemma run_length_64 frames : ∀ tr, length (run tr frames).1 = length frames.
Proof.
  induction frames as [|[rs now] frames IH]; intros tr; [done|].
  rewrite run_cons_64. simpl. by rewrite IH.
Qed.

(** While [k] stays unattended, its first-seen entry stays put. *)
Lemma run_keeps_first_seen_64 k first frames : ∀ tr,
  Forall (shows_unattended k) frames →
  utensil_first_seen tr !! k = Some first →
  utensil_first_seen (run tr frames).2 !! k = Some first.
Proof.
  induction frames as [|[rs now] frames IH]; intros tr Hall Hfs; [done|].
  inversion Hall as [|? ? [Hl Hd] Hall']; subst. simpl in Hl, Hd.
  rewrite run_cons_64. simpl. apply IH; [done|].
  rewrite tick_first_seen_64, decide_True by done.
  rewrite Hl, Hfs. done.
Qed.

(** A stretch of unattended frames none of which is due for an alert:
    no alert for [k], and both entries of [k] are unchanged. *)
Lemma run_quiet_64 k first la frames : ∀ tr,
  Forall (λ f, shows_unattended k f ∧
               alert_due UNATTENDED f.2 (Some first) la = false) frames →
  utensil_first_seen tr !! k = Some first →
  last_alert_time tr !! k = la →
  Forall (λ alerts, k ∉ alerts) (run tr frames).1 ∧
  utensil_first_seen (run tr frames).2 !! k = Some first ∧
  last_alert_time (run tr frames).2 !! k = la.
Proof.
  induction frames as [|[rs now] frames IH]; intros tr Hall Hfs Hla.
  - simpl. by split.
  - inversion Hall as [|? ? [[Hl Hd] Hq] Hall']; subst. simpl in Hl, Hd, Hq.
    rewrite run_cons_64. simpl.
    assert (alerts_for tr rs now k = false) as Hno.
    { unfold alerts_for. rewrite Hl, Hfs, Hq. apply andb_false_r. }
    destruct (IH (tick_state tr rs now)) as (IH1 & IH2 & IH3); [done| | |].
    + rewrite tick_first_seen_64, decide_True by done. by rewrite Hl, Hfs.
    + by rewrite tick_last_alert_64, Hno.
    + split; [|done]. constructor; [|done].
      rewrite tick_alerts_elem_of_64, Hno. done.
Qed.

Lemma alert_due_fresh_64 now first :
  alert_due UNATTENDED now (Some first) None =
    elapsed now first UNATTENDED_THRESHOLD.
Proof. unfold alert_due. simpl. apply andb_true_r. Qed.


Lemma alert_due_cooled_down_64 now first (la : gmap string float64) k :
  alert_due UNATTENDED now (Some first) (la !! k) =
    elapsed now first UNATTENDED_THRESHOLD && cooled_down la k now.
Proof. unfold alert_due, cooled_down, elapsed. by destruct (la !! k). Qed.

Lemma alert_due_after_cooldown_64 st now fs last :
  alert_due st now fs (Some last) = true →
  elapsed now last ALERT_COOLDOWN = true.
Proof.
  unfold alert_due. destruct (state_eqb st UNATTENDED); [|done].
  destruct fs as [first|]; [|done]. simpl.
  by intros [_ H]%andb_true_iff.
Qed.

(** *** The log of alert events of a run *)

Lemma alert_log_cons_64 tr rs now rest :
  alert_log tr ((rs, now) :: rest) =
    map (λ k, (k, now)) (tick_alerts tr rs now) ++
    alert_log (tick_state tr rs now) rest.
Proof. unfold alert_log. by rewrite run_cons_64. Qed.

Lemma next_alert_app k l1 l2 :
  next_alert k (l1 ++ l2) =
    match next_alert k l1 with
    | Some T => Some T
    | None => next_alert k l2
    end.
Proof.
  induction l1 as [|[k' T] l1 IH]; [done|]. cbn [app next_alert].
  by destruct (decide (k' = k)).
Qed.

Lemma next_alert_None k l :
  (∀ T, (k, T) ∉ l) → next_alert k l = None.
Proof.
  induction l as [|[k' T] l IH]; intros H; [done|]. cbn [next_alert].
  destruct (decide (k' = k)) as [->|Hne].
  - destruct (H T). left.
  - apply IH. intros T' Hin. apply (H T'). by right.
Qed.

Lemma next_alert_frame k now (alerts : list string) :
  next_alert k (map (λ a, (a, now)) alerts) =
    if decide (k ∈ alerts) then Some now else None.
Proof.
  induction alerts as [|a alerts IH]; cbn [map next_alert].
  - destruct (decide (k ∈ [])) as [Hin|_]; [inversion Hin | done].
  - destruct (decide (a = k)) as [->|Hne].
    + destruct (decide (k ∈ k :: alerts)) as [_|Hn]; [done|].
      destruct Hn. left.
    + rewrite IH.
      destruct (decide (k ∈ alerts)) as [Hin|Hin];
        destruct (decide (k ∈ a :: alerts)) as [Hin'|Hin']; try done.
      * destruct Hin'. by right.
      * apply elem_of_cons in Hin'. intuition congruence.
Qed.

(** Once [last_alert_time] holds [last] for [k], the next alert for [k]
    comes in a frame that passes the cooldown test against [last]; until
    then the entry stays. *)
Lemma next_alert_after k frames : ∀ tr last,
  last_alert_time tr !! k = Some last →
  match next_alert k (alert_log tr frames) with
  | Some T => elapsed T last ALERT_COOLDOWN = true
  | None => last_alert_time (run tr frames).2 !! k = Some last
  end.
Proof.
  induction frames as [|[rs now] frames IH]; intros tr last Hla; [done|].
  rewrite alert_log_cons_64, next_alert_app, next_alert_frame, run_cons_64.
  cbn [snd].
  pose proof (tick_last_alert_64 tr rs now k) as Hla'.
  destruct (decide (k ∈ tick_alerts tr rs now)) as [Hin|Hin].
  - apply tick_alerts_elem_of_64 in Hin. unfold alerts_for in Hin.
    rewrite Hla in Hin. apply andb_true_iff in Hin as [_ Hin].
    by apply alert_due_after_cooldown_64 in Hin.
  - rewrite tick_alerts_elem_of_64 in Hin.
    apply not_true_is_false in Hin. rewrite Hin, Hla in Hla'.
    by apply IH.
Qed.

(** Every event of the log of a run is followed, if at all, by an event
    of the same type that passed the cooldown test against it. *)
Lemma alert_log_paced frames : ∀ tr before k T rest,
  alert_log tr frames = before ++ (k, T) :: rest →
  ∀ T', next_alert k rest = Some T' → elapsed T' T ALERT_COOLDOWN = true.
Proof.
  induction frames as [|[rs now] frames IH]; intros tr before k T rest Hlog.
  - by destruct before.
  - rewrite alert_log_cons_64 in Hlog.
    pose proof (tick_alerts_NoDup_64 tr rs now) as Hnd.
    set (tr' := tick_state tr rs now) in *.
    assert (∀ a, a ∈ tick_alerts tr rs now →
                 last_alert_time tr' !! a = Some now) as Hrec.
    { intros a Ha. unfold tr'. rewrite tick_last_alert_64.
      apply tick_alerts_elem_of_64 in Ha. by rewrite Ha. }
    revert before Hlog.
    induction Hnd as [|a l Ha Hl IHl]; intros before Hlog.
    + by apply (IH tr' before).
    + destruct before as [|e before]; cbn [map app] in Hlog.
      * assert (a = k ∧ now = T ∧ rest = map (λ k, (k, now)) l ++
                                          alert_log tr' frames)
          as (-> & -> & ->) by (split_and?; congruence).
        intros T'. rewrite next_alert_app, next_alert_frame.
        rewrite decide_False by done. intros HT'.
        pose proof (next_alert_after k frames tr' T) as Hn.
        rewrite HT' in Hn. apply Hn, Hrec. left.
      * apply (IHl (λ a' Ha', Hrec a' (proj2 (elem_of_cons _ _ _) (or_intror Ha')))
                 before).
        congruence.
Qed.

(** *** The cooldown as a distance between numbers *)

(** A frame time that passes the cooldown test against [last] stands for
    a number at least 5 - 2^-51 above that of [last]: the float nearest
    to a difference below that is below 5.0. *)
Lemma cooldown_test_lower (now last : float64) :
  timestamp now = true → timestamp last = true →
  elapsed now last ALERT_COOLDOWN = true →
  (5 - (1 # 2 ^ 51) <= to_Q now - to_Q last)%Q.
Proof.
  intros Hnow Hlast Htest.
  pose proof (elapsed_lower now last 5629499534213120 (-50) Hnow Hlast
                eq_refl Htest) as H.
  eapply Qle_trans; [|exact H]. by vm_compute.
Qed.

Lemma spaced_app gap l1 : ∀ l2,
  spaced gap l1 → spaced gap l2 →
  (∀ e1 e2, e1 ∈ l1 → e2 ∈ l2 → e2.1 = e1.1 →
            (gap <= to_Q e2.2 - to_Q e1.2)%Q) →
  spaced gap (l1 ++ l2).
Proof.
  induction l1 as [|e l1 IH]; intros l2 H1 H2 Hx; [done|].
  destruct H1 as [Hall H1]. simpl. split.
  - apply Forall_app. split; [done|].
    apply Forall_forall. intros e2 He2. apply Hx; [left | done].
  - apply IH; [done|done|]. intros e1 e2 He1. apply Hx. by right.
Qed.

Lemma spaced_middle gap before : ∀ e between e' after,
  spaced gap (before ++ e :: between ++ e' :: after) →
  e'.1 = e.1 → (gap <= to_Q e'.2 - to_Q e.2)%Q.
Proof.
  induction before as [|b before IH]; intros e between e' after Hs Heq.
  - destruct Hs as [Hall _]. rewrite Forall_forall in Hall.
    apply Hall; [|done]. apply elem_of_app. right. left.
  - destruct Hs as [_ Hs]. by apply (IH _ _ _ _ Hs).
Qed.

(** Once [last_alert_time] holds [last] for [k], every alert for [k]
    that the run still emits comes at least 5 - 2^-51 after [last]. *)
Lemma alert_after_last k frames : ∀ tr last T,
  Forall (λ f, timestamp f.2 = true) frames →
  timestamp last = true →
  last_alert_time tr !! k = Some last →
  (k, T) ∈ alert_log tr frames →
  (5 - (1 # 2 ^ 51) <= to_Q T - to_Q last)%Q.
Proof.
  assert (0 <= 5 - (1 # 2 ^ 51))%Q as Hgap by (by vm_compute).
  set (gap := (5 - (1 # 2 ^ 51))%Q) in *.
  induction frames as [|[rs now] frames IH]; intros tr last T Hts Hlast Hla Hin.
  - inversion Hin.
  - inversion Hts as [|? ? Hnow Hts']; subst. simpl in Hnow.
    rewrite alert_log_cons_64, elem_of_app in Hin.
    pose proof (tick_last_alert_64 tr rs now k) as Hla'.
    assert (alerts_for tr rs now k = true →
            (gap <= to_Q now - to_Q last)%Q) as Hstep.
    { unfold alerts_for. rewrite Hla. intros [_ H]%andb_true_iff.
      apply alert_due_after_cooldown_64 in H.
      by apply cooldown_test_lower. }
    destruct Hin as [Hin|Hin].
    + apply list_elem_of_fmap in Hin as (k' & [= <- <-] & Hin).
      by apply Hstep, tick_alerts_elem_of_64.
    + destruct (alerts_for tr rs now k) eqn:E.
      * specialize (Hstep eq_refl).
        pose proof (IH _ _ _ Hts' Hnow Hla' Hin). lra.
      * rewrite Hla in Hla'. by apply (IH _ _ _ Hts' Hlast Hla' Hin).
Qed.

Lemma alert_log_spaced frames : ∀ tr,
  Forall (λ f, timestamp f.2 = true) frames →
  spaced (5 - (1 # 2 ^ 51)) (alert_log tr frames).
Proof.
  induction frames as [|[rs now] frames IH]; intros tr Hts; [done|].
  inversion Hts as [|? ? Hnow Hts']; subst. simpl in Hnow.
  rewrite alert_log_cons_64. apply spaced_app; [|by apply IH|].
  - pose proof (tick_alerts_NoDup_64 tr rs now) as Hnd.
    induction Hnd as [|a l Ha Hl IHl]; [done|]. simpl. split; [|done].
    apply Forall_forall. intros e He Heq.
    apply list_elem_of_fmap in He as (k' & -> & Hk'). simpl in Heq.
    by subst.
  - intros e1 e2 He1 He2 Heq.
    apply list_elem_of_fmap in He1 as (k & -> & Hk). simpl in *.
    destruct e2 as [k2 T2]. simpl in *. subst k2.
    apply (alert_after_last k frames (tick_state tr rs now)); try done.
    rewrite tick_last_alert_64.
    apply tick_alerts_elem_of_64 in Hk. by rewrite Hk.
Qed.

End Tracker64Facts.

(** ** Properties of the tracker *)

(** C8. The label of a frame is NOTHING when neither utensils nor hands
    are detected, UNATTENDED with utensils and no hands, ATTENDED with
    both, and NOTHING again with hands but no utensils. *)
Theorem label_by_cases (rs : results) :
  label rs =
    match utensils rs, hands rs with
    | [], [] => NOTHING
    | _ :: _, [] => UNATTENDED
    | _ :: _, _ :: _ => ATTENDED
    | [], _ :: _ => NOTHING
    end.
Proof.
  unfold label.
  assert (has_hands rs = match hands rs with [] => false | _ => true end)
    as ->.
  { unfold has_hands, hand_count. by destruct (hands rs). }
  pose proof (has_utensils_true rs) as Hu.
  destruct (has_utensils rs) eqn:E.
  - destruct (utensils rs); [by destruct (proj1 Hu)|].
    by destruct (hands rs).
  - destruct (utensils rs); [by destruct (hands rs)|].
    by destruct Hu as [_ Hu]; discriminate Hu.
Qed.

(** C9. After every frame: the first-seen dictionary has one entry per
    key, each remaining key is a class detected in that frame, entries
    remain only when the frame's label is UNATTENDED, and any other
    label leaves the dictionary empty. *)
Theorem tick_invariant (tr : tracker) (rs : results) (now : Q) :
  let tr' := tick_state tr rs now in
  let st := (tick tr rs now).1.2 in
  NoDup (map fst (map_to_list (utensil_first_seen tr'))) ∧
  (∀ k, is_Some (utensil_first_seen tr' !! k) →
        k ∈ map class_name (utensils rs)) ∧
  (∀ k, is_Some (utensil_first_seen tr' !! k) → st = UNATTENDED) ∧
  (st ≠ UNATTENDED → utensil_first_seen tr' = ∅).
Proof.
  intros tr' st.
  assert (st = label rs) as Hst
    by exact (proj1 (tick_spec tr rs now EmptyString)).
  assert (∀ k, is_Some (utensil_first_seen tr' !! k) →
               detected rs k ∧ st = UNATTENDED) as Hk.
  { intros k. unfold tr'. rewrite tick_first_seen, Hst.
    unfold first_seen_after.
    destruct (decide (detected rs k)); [|by intros [? ?]].
    destruct (label rs); simpl; by intros [? ?]. }
  split; [apply NoDup_fst_map_to_list|].
  split; [intros k Hs; apply elem_of_keys_utensil_count; by apply Hk|].
  split; [intros k Hs; by apply (Hk k)|].
  intros Hne. apply map_eq. intros k. rewrite lookup_empty.
  destruct (utensil_first_seen tr' !! k) eqn:E; [|done].
  destruct Hne. by apply (Hk k).
Qed.

(** C1 as stated does not hold: after the frames of scenarios 1 to 3 the
    last-alert time of "fork" is still recorded, and the frame at
    t = 4.2 emits no alert for it. *)
Lemma restart_keeps_cooldown :
  let tr := (run initial scenario_1_to_3).2 in
  last_alert_time tr !! "fork"%string ≠ None ∧
  "fork"%string ∉ tick_alerts tr fork_alone (42 # 10).
Proof.
  split.
  - vm_compute. discriminate.
  - rewrite tick_alerts_elem_of. vm_compute. discriminate.
Qed.

(** C1, amended. After the frames of scenarios 1 to 3 the first-seen
    entry of "fork" is the fresh one of t = 2.2 while its last-alert time
    is still the 2.0 of the earlier alert; if "fork" then stays
    unattended, no frame before t = 7.0 alerts for it and the first
    frame at or after t = 7.0 does, once. *)
Theorem restart_next_alert (early : list frame_input)
    (rs1 : results) (t1 : Q) :
  Forall (λ f, shows_unattended "fork" f ∧ (f.2 < 7)%Q) early →
  shows_unattended "fork" (rs1, t1) →
  (7 <= t1)%Q →
  let tr := (run initial scenario_1_to_3).2 in
  (run initial scenario_1_to_3).1 = [[]; []; ["fork"%string]; []; []] ∧
  utensil_first_seen tr !! "fork"%string = Some (22 # 10) ∧
  last_alert_time tr !! "fork"%string = Some 2%Q ∧
  Forall (λ alerts, "fork"%string ∉ alerts) (run tr early).1 ∧
  only "fork" (tick_alerts (run tr early).2 rs1 t1) = ["fork"%string].
Proof.
  intros Hearly [Hl1 Hd1] Ht1 tr. simpl in Hl1, Hd1.
  assert (utensil_first_seen tr !! "fork"%string = Some (22 # 10)) as Hfs
    by (vm_compute; reflexivity).
  assert (last_alert_time tr !! "fork"%string = Some 2%Q) as Hla
    by (vm_compute; reflexivity).
  split; [vm_compute; reflexivity|]. split; [done|]. split; [done|].
  destruct (run_quiet "fork" (22 # 10) (Some 2%Q) early tr)
    as (Hq1 & Hq2 & Hq3); [|done|done|].
  { eapply Forall_impl; [exact Hearly|]. intros f [Hs Hlt]. split; [done|].
    rewrite alert_due_alerted. apply andb_false_iff. right.
    apply Qge_bool_false. unfold ALERT_COOLDOWN. lra. }
  split; [done|].
  rewrite tick_only. unfold alerts_for.
  rewrite bool_decide_eq_true_2, Hl1, Hq2, Hq3, alert_due_alerted by done.
  rewrite (proj2 (Qge_bool_true (t1 - (22 # 10)) UNATTENDED_THRESHOLD)),
          (proj2 (Qge_bool_true (t1 - 2) ALERT_COOLDOWN)); [done| |];
    unfold ALERT_COOLDOWN, UNATTENDED_THRESHOLD; lra.
Qed.

Lemma restart_next_alert_witness :
  let tr := (run initial scenario_1_to_3).2 in
  (run initial scenario_1_to_3).1 = [[]; []; ["fork"%string]; []; []] ∧
  utensil_first_seen tr !! "fork"%string = Some (22 # 10) ∧
  last_alert_time tr !! "fork"%string = Some 2%Q ∧
  Forall (λ alerts, "fork"%string ∉ alerts)
         (run tr [(fork_alone, 42 # 10); (fork_alone, 69 # 10)]).1 ∧
  only "fork"
       (tick_alerts (run tr [(fork_alone, 42 # 10); (fork_alone, 69 # 10)]).2
                    fork_alone 7) = ["fork"%string].
Proof.
  apply (restart_next_alert
           [(fork_alone, 42 # 10); (fork_alone, 69 # 10)] fork_alone 7).
  - repeat constructor; vm_compute; first [reflexivity | left].
  - split; [reflexivity | vm_compute; left].
  - vm_compute. discriminate.
Defined.

(** ** Thresholds and cooldowns, on float timestamps *)

Section OnFloats.

Import Binary64 Tracker64.

(** Measured from 0.0 the elapsed time is the timestamp itself, with no
    rounding, and the threshold test compares numbers. *)
Lemma fsub_zero (now : float64) : fsub now t_0 = now.
Proof. unfold fsub, t_0. by destruct now as [[]|[]| |]. Qed.

Lemma threshold_test_from_zero (now : float64) :
  timestamp now = true →
  fge (fsub now t_0) UNATTENDED_THRESHOLD = true ↔ (2 <= to_Q now)%Q.
Proof.
  intros Hnow. rewrite fsub_zero.
  change UNATTENDED_THRESHOLD with (S754_finite false 4503599627370496 (-51)).
  rewrite (fge_exact now 4503599627370496 (-51) Hnow eq_refl) by done.
  assert (scaled 4503599627370496 (-51) == 2)%Q as -> by (by vm_compute).
  done.
Qed.

(** A type with no entry in either dictionary that is unattended in
    every frame from time [t0] on gets no alert in the first frame nor in
    any frame in which [current_time - t0 >= UNATTENDED_THRESHOLD], as the
    code computes it on floats, is false, and exactly one alert in the
    first frame in which it is true. *)
Lemma first_alert_when_test_passes (k : string) (tr : tracker)
    (rs0 : results) (t0 : float64) (early : list frame_input)
    (rs1 : results) (t1 : float64) :
  utensil_first_seen tr !! k = None →
  last_alert_time tr !! k = None →
  shows_unattended k (rs0, t0) →
  Forall (λ f, shows_unattended k f ∧
               fge (fsub f.2 t0) UNATTENDED_THRESHOLD = false) early →
  shows_unattended k (rs1, t1) →
  fge (fsub t1 t0) UNATTENDED_THRESHOLD = true →
  ∃ before at_threshold,
    (run tr ((rs0, t0) :: early ++ [(rs1, t1)])).1 = before ++ [at_threshold] ∧
    length before = S (length early) ∧
    Forall (λ alerts, k ∉ alerts) before ∧
    only k at_threshold = [k].
Proof.
  intros Hfs Hla [Hl0 Hd0] Hearly [Hl1 Hd1] Hreach.
  simpl in Hl0, Hd0, Hl1, Hd1.
  rewrite run_cons_64, run_app_64, run_cons_64. cbn [fst snd run].
  set (tr0 := tick_state tr rs0 t0).
  assert (utensil_first_seen tr0 !! k = Some t0) as Hfs0.
  { unfold tr0. rewrite tick_first_seen_64, decide_True by done.
    by rewrite Hl0, Hfs. }
  assert (alerts_for tr rs0 t0 k = false) as Hno.
  { unfold alerts_for, alert_due. rewrite Hfs. by rewrite !andb_false_r. }
  assert (last_alert_time tr0 !! k = None) as Hla0.
  { unfold tr0. by rewrite tick_last_alert_64, Hno. }
  destruct (run_quiet_64 k t0 None early tr0) as (Hq1 & Hq2 & Hq3);
    [|done|done|].
  { eapply Forall_impl; [exact Hearly|]. intros f [Hs Hlt]. split; [done|].
    by rewrite alert_due_fresh_64. }
  exists (tick_alerts tr rs0 t0 :: (run tr0 early).1),
         (tick_alerts (run tr0 early).2 rs1 t1).
  split; [done|]. split.
  { simpl. by rewrite run_length_64. }
  split.
  { constructor; [|done]. by rewrite tick_alerts_elem_of_64, Hno. }
  rewrite tick_only_64. unfold alerts_for.
  rewrite bool_decide_eq_true_2, Hl1, Hq2, Hq3, alert_due_fresh_64 by done.
  unfold elapsed. by rewrite Hreach.
Qed.

(** C4. A type with no entry in either dictionary that is unattended
    in every frame from a frame at time 0.0 on gets no alert in that
    frame nor in any frame whose time is less than 2, and exactly one
    alert in the first frame whose time is 2 or more; frame times are
    finite floats, compared here as the numbers they stand for. *)
Theorem first_alert_at_threshold (k : string) (tr : tracker)
    (rs0 : results) (early : list frame_input)
    (rs1 : results) (t1 : float64) :
  utensil_first_seen tr !! k = None →
  last_alert_time tr !! k = None →
  shows_unattended k (rs0, t_0) →
  Forall (λ f, shows_unattended k f ∧
               timestamp f.2 = true ∧ (to_Q f.2 < 2)%Q) early →
  shows_unattended k (rs1, t1) →
  timestamp t1 = true →
  (2 <= to_Q t1)%Q →
  ∃ before at_threshold,
    (run tr ((rs0, t_0) :: early ++ [(rs1, t1)])).1 = before ++ [at_threshold] ∧
    length before = S (length early) ∧
    Forall (λ alerts, k ∉ alerts) before ∧
    only k at_threshold = [k].
Proof.
  intros Hfs Hla H0 Hearly H1 Ht1 Hreach.
  apply first_alert_when_test_passes; try done.
  - eapply Forall_impl; [exact Hearly|]. intros f (Hs & Hf & Hlt).
    split; [done|]. apply not_true_is_false. intros Htest.
    apply (threshold_test_from_zero _ Hf) in Htest.
    by apply Qle_not_lt in Htest.
  - by apply threshold_test_from_zero.
Qed.

(** Scenario 1: ticks at 0.0, 1.9 and 2.0. *)
Lemma first_alert_at_threshold_witness :
  ∃ before at_threshold,
    (run initial scenario_1).1 = before ++ [at_threshold] ∧
    length before = 2%nat ∧
    Forall (λ alerts, "fork"%string ∉ alerts) before ∧
    only "fork"%string at_threshold = ["fork"%string].
Proof.
  apply (first_alert_at_threshold "fork" initial fork_alone
           [(fork_alone, decimal 19 10)] fork_alone (of_Z 2)).
  - reflexivity.
  - reflexivity.
  - split; [reflexivity | vm_compute; left].
  - constructor; [|constructor].
    split; [split; [reflexivity | vm_compute; left]|].
    split; vm_compute; reflexivity.
  - split; [reflexivity | vm_compute; left].
  - reflexivity.
  - vm_compute. discriminate.
Defined.

(** From another starting time the difference that counts is the
    rounded one: a fork first seen at 0.4 gets its alert at 2.4, where
    the float difference is 2.0 although the numbers the two floats
    stand for are less than 2 apart. *)
Example alert_on_rounded_difference :
  (run initial from_0_4).1 = [[]; ["fork"%string]] ∧
  (to_Q (decimal 24 10) - to_Q (decimal 4 10) < 2)%Q.
Proof. split; vm_compute; reflexivity. Qed.

(** C6. A type with a first-seen entry loses it in a frame whose label
    is not UNATTENDED or that does not show the type; the next unattended
    frame that shows it records that frame's time, without alerting, and
    while the type stays unattended the threshold test of every later
    frame subtracts that time, not the original one. *)
Theorem threshold_restarts_on_reentry (k : string) (tr : tracker)
    (t_orig : float64) (rsA : results) (tA : float64)
    (rsB : results) (tB : float64) (later : list frame_input)
    (rsC : results) (tC : float64) :
  utensil_first_seen tr !! k = Some t_orig →
  (label rsA ≠ UNATTENDED ∨ ¬ detected rsA k) →
  shows_unattended k (rsB, tB) →
  Forall (shows_unattended k) later →
  shows_unattended k (rsC, tC) →
  let trA := tick_state tr rsA tA in
  let trB := tick_state trA rsB tB in
  let trC := (run trB later).2 in
  utensil_first_seen trA !! k = None ∧
  utensil_first_seen trB !! k = Some tB ∧
  (k ∉ tick_alerts trA rsB tB) ∧
  utensil_first_seen trC !! k = Some tB ∧
  (k ∈ tick_alerts trC rsC tC ↔
     fge (fsub tC tB) UNATTENDED_THRESHOLD = true ∧
     cooled_down (last_alert_time trC) k tC = true).
Proof.
  intros Horig HA [HlB HdB] Hlater [HlC HdC] trA trB trC.
  simpl in HlB, HdB, HlC, HdC.
  assert (utensil_first_seen trA !! k = None) as HfA.
  { unfold trA. rewrite tick_first_seen_64.
    destruct (decide (detected rsA k)) as [Hd|Hd]; [|done].
    destruct HA as [HA|HA]; [|done]. unfold first_seen_after.
    by destruct (label rsA). }
  assert (utensil_first_seen trB !! k = Some tB) as HfB.
  { unfold trB. rewrite tick_first_seen_64, decide_True by done.
    by rewrite HlB, HfA. }
  assert (utensil_first_seen trC !! k = Some tB) as HfC
    by (by apply run_keeps_first_seen_64).
  split; [done|]. split; [done|]. split.
  { rewrite tick_alerts_elem_of_64. unfold alerts_for, alert_due.
    rewrite HfA, !andb_false_r. done. }
  split; [done|].
  rewrite tick_alerts_elem_of_64. unfold alerts_for.
  rewrite bool_decide_eq_true_2, HlC, HfC, alert_due_cooled_down_64 by done.
  simpl. by rewrite andb_true_iff.
Qed.

(** A fork alone at 0.0, attended at 1.0 and alone again from 1.5: the
    frame at 3.0 is silent and the frame at 3.5 alerts. *)
Lemma threshold_restarts_on_reentry_witness :
  let tr := tick_state initial fork_alone t_0 in
  let trA := tick_state tr fork_with_person (of_Z 1) in
  let trB := tick_state trA fork_alone (decimal 15 10) in
  let trC := (run trB [(fork_alone, of_Z 3)]).2 in
  utensil_first_seen tr !! "fork"%string = Some t_0 ∧
  utensil_first_seen trA !! "fork"%string = None ∧
  utensil_first_seen trB !! "fork"%string = Some (decimal 15 10) ∧
  (run trB [(fork_alone, of_Z 3)]).1 = [[]] ∧
  "fork"%string ∈ tick_alerts trC fork_alone (decimal 35 10).
Proof.
  intros tr trA trB trC.
  destruct (threshold_restarts_on_reentry "fork" tr t_0
              fork_with_person (of_Z 1) fork_alone (decimal 15 10)
              [(fork_alone, of_Z 3)] fork_alone (decimal 35 10))
    as (HA & HB & _ & _ & HC).
  - vm_compute. reflexivity.
  - left. vm_compute. discriminate.
  - split; [reflexivity | vm_compute; left].
  - repeat constructor; vm_compute; first [reflexivity | left].
  - split; [reflexivity | vm_compute; left].
  - split; [vm_compute; reflexivity|]. split; [exact HA|].
    split; [exact HB|]. split; [vm_compute; reflexivity|].
    apply HC. split; vm_compute; reflexivity.
Defined.

(** The entry is dropped just the same when the type is missing from
    the frame. *)
Example absent_type_is_dropped :
  utensil_first_seen
    (tick_state (run initial scenario_1).2 (Results [] [] []) (decimal 21 10))
    !! "fork"%string = None.
Proof. vm_compute. reflexivity. Qed.

(** On floats too, the alert of 2.0 keeps the fork that is alone again
    from 2.2 silent at 4.2 and at 6.9; the next alert comes at 7.0. *)
Example restart_on_floats :
  alert_log initial scenario_1_to_3_and_on =
    [("fork"%string, of_Z 2); ("fork"%string, of_Z 7)].
Proof. vm_compute. reflexivity. Qed.

(** C5 as stated does not hold on floats: a fork left alone with ticks
    at 0.0, 2.1 and 7.1 gets an alert at 2.1 and another at 7.1, and the
    numbers these two floats stand for are 5 - 2^-51 apart, which is
    less than 5 (the float difference 7.1 - 2.1 is rounded up to
    5.0). *)
Lemma alerts_less_than_cooldown_apart :
  fge (decimal 21 10) t_0 = true ∧
  fge (decimal 71 10) (decimal 21 10) = true ∧
  alert_log initial left_alone =
    [("fork"%string, decimal 21 10); ("fork"%string, decimal 71 10)] ∧
  (to_Q (decimal 71 10) - to_Q (decimal 21 10) == 5 - (1 # 2 ^ 51))%Q ∧
  (to_Q (decimal 71 10) - to_Q (decimal 21 10) < 5)%Q.
Proof. repeat split; vm_compute; reflexivity. Qed.

(** C5, amended. In any run whose frame times are finite floats, two
    alerts for the same type are at least 5 - 2^-51 apart, as numbers,
    whatever the frames show in between; and from an alert to the next
    one for the same type the float difference of the two frame times,
    which is what the code tests, is at least [ALERT_COOLDOWN]. *)
Theorem cooldown_between_alerts (tr : tracker) (frames : list frame_input)
    (before : list (string * float64)) (k : string) (T1 : float64)
    (between : list (string * float64)) (T2 : float64)
    (after : list (string * float64)) :
  Forall (λ f, timestamp f.2 = true) frames →
  alert_log tr frames = before ++ (k, T1) :: between ++ (k, T2) :: after →
  (5 - (1 # 2 ^ 51) <= to_Q T2 - to_Q T1)%Q ∧
  ((∀ T, (k, T) ∉ between) → fge (fsub T2 T1) ALERT_COOLDOWN = true).
Proof.
  intros Hts Hlog. split.
  - apply (spaced_middle _ before (k, T1) between (k, T2) after); [|done].
    rewrite <- Hlog. by apply alert_log_spaced.
  - intros Hbetween.
    apply (alert_log_paced frames tr before k T1 _ Hlog).
    rewrite next_alert_app, (next_alert_None k between Hbetween).
    cbn [next_alert]. by rewrite decide_True.
Qed.

Lemma cooldown_between_alerts_witness :
  (5 - (1 # 2 ^ 51) <= to_Q (decimal 71 10) - to_Q (decimal 21 10))%Q ∧
  fge (fsub (decimal 71 10) (decimal 21 10)) ALERT_COOLDOWN = true.
Proof.
  destruct (cooldown_between_alerts initial left_alone [] "fork"
              (decimal 21 10) [] (decimal 71 10) []) as [H1 H2].
  - repeat constructor.
  - vm_compute. reflexivity.
  - split; [exact H1|]. apply H2. intros T H. inversion H.
Defined.

(** C7 as stated does not hold on floats: with somebody at the sink at
    3.0, so that the first-seen entry of "fork" is deleted, and gone
    again at 4.0, the alert of 2.1 is followed by one at 7.1, and the
    number that the float 7.1 stands for is less than that of 2.1 plus
    5. *)
Lemma alert_before_cooldown_after_reset :
  utensil_first_seen (run initial (take 3 left_attended_left)).2
    !! "fork"%string = None ∧
  alert_log initial left_attended_left =
    [("fork"%string, decimal 21 10); ("fork"%string, decimal 71 10)] ∧
  (to_Q (decimal 71 10) < to_Q (decimal 21 10) + 5)%Q.
Proof. repeat split; vm_compute; reflexivity. Qed.

(** C7, amended. No frame removes an entry of [last_alert_time]: an
    entry is either kept or overwritten with the frame's time, and a
    frame that alerts for a type records its own time.  Hence, once the
    entry of a type holds [last], every alert for the type comes at
    least 5 - 2^-51 after [last], as numbers; the next one comes in a
    frame that passes the code's test
    [current_time - last >= ALERT_COOLDOWN] on floats, and until then
    the entry still holds [last], whatever happens to the type's
    first-seen entry in between. *)
Theorem cooldown_survives_reset :
  (∀ tr rs now k last,
     last_alert_time tr !! k = Some last →
     last_alert_time (tick_state tr rs now) !! k = Some last ∨
     last_alert_time (tick_state tr rs now) !! k = Some now) ∧
  (∀ tr rs now k,
     k ∈ tick_alerts tr rs now →
     last_alert_time (tick_state tr rs now) !! k = Some now) ∧
  (∀ tr frames k last,
     last_alert_time tr !! k = Some last →
     match next_alert k (alert_log tr frames) with
     | Some T => fge (fsub T last) ALERT_COOLDOWN = true
     | None => last_alert_time (run tr frames).2 !! k = Some last
     end ∧
     (timestamp last = true →
      Forall (λ f, timestamp f.2 = true) frames →
      ∀ T, (k, T) ∈ alert_log tr frames →
           (5 - (1 # 2 ^ 51) <= to_Q T - to_Q last)%Q)).
Proof.
  split; [|split].
  - intros tr rs now k last Hla. rewrite tick_last_alert_64.
    destruct (alerts_for tr rs now k); [by right | by left].
  - intros tr rs now k Hin. rewrite tick_last_alert_64.
    apply tick_alerts_elem_of_64 in Hin. by rewrite Hin.
  - intros tr frames k last Hla. split.
    + by apply next_alert_after.
    + intros Hlast Hts T Hin. by apply (alert_after_last k frames tr).
Qed.

(** After the alert at 2.1: attended at 3.0, alone again at 4.0, and
    the next alert at 7.1. *)
Lemma cooldown_survives_reset_witness :
  let tr := (run initial (take 2 left_attended_left)).2 in
  let frames := drop 2 left_attended_left in
  alert_log tr frames = [("fork"%string, decimal 71 10)] ∧
  fge (fsub (decimal 71 10) (decimal 21 10)) ALERT_COOLDOWN = true ∧
  (5 - (1 # 2 ^ 51) <= to_Q (decimal 71 10) - to_Q (decimal 21 10))%Q.
Proof.
  intros tr frames.
  assert (alert_log tr frames = [("fork"%string, decimal 71 10)]) as Hlog
    by (vm_compute; reflexivity).
  destruct (proj2 (proj2 cooldown_survives_reset) tr frames "fork"
              (decimal 21 10)) as [Hnext Hall].
  - vm_compute. reflexivity.
  - split; [exact Hlog|]. split.
    + rewrite Hlog in Hnext. exact Hnext.
    + apply Hall.
      * reflexivity.
      * repeat constructor.
      * rewrite Hlog. left.
Defined.

End OnFloats.

(** ** Properties of the frame transport *)

(** *** The length prefix round-trips *)

Section Prefix.

Lemma to_N_byte_of_N n : Byte.to_N (byte_of_N n) = (n mod 256)%N.
Proof.
  unfold byte_of_N. destruct (Byte.of_N (n mod 256)) as [b|] eqn:E.
  - by apply Byte.to_of_N.
  - apply Byte.of_N_None_iff in E.
    pose proof (N.mod_upper_bound n 256). lia.
Qed.

Lemma length_le_bytes w : ∀ n, length (le_bytes w n) = w.
Proof. induction w as [|w IH]; intros n; simpl; [done | by rewrite IH]. Qed.

Lemma le_value_le_bytes w : ∀ n, le_value (le_bytes w n) = (n mod 256 ^ N.of_nat w)%N.
Proof.
  induction w as [|w IH]; intros n.
  - simpl. by rewrite N.mod_1_r.
  - cbn [le_bytes le_value]. rewrite to_N_byte_of_N, IH.
    rewrite Nat2N.inj_succ, N.pow_succ_r'.
    by rewrite N.Div0.mod_mul_r.
Qed.

Lemma pack_Q_length order n b : pack_Q order n = Done b → length b = payload_size.
Proof.
  unfold pack_Q. destruct (n <? 2 ^ 64)%N; [|done]. intros H.
  assert (b = match order with
              | LittleEndian => le_bytes payload_size n
              | BigEndian => rev (le_bytes payload_size n)
              end) as -> by congruence.
  destruct order; rewrite ?length_rev; apply length_le_bytes.
Qed.

Lemma unpack_pack_Q order n b : pack_Q order n = Done b → unpack_Q order b = Done n.
Proof.
  intros H. unfold unpack_Q.
  rewrite (pack_Q_length _ _ _ H), Nat.eqb_refl.
  unfold pack_Q in H. destruct (n <? 2 ^ 64)%N eqn:E; [|done].
  apply N.ltb_lt in E.
  assert (b = match order with
              | LittleEndian => le_bytes payload_size n
              | BigEndian => rev (le_bytes payload_size n)
              end) as -> by congruence.
  assert (le_value (le_bytes payload_size n) = n) as Hv.
  { rewrite le_value_le_bytes. apply N.mod_small. exact E. }
  f_equal. destruct order; rewrite ?rev_involutive; exact Hv.
Qed.

End Prefix.

(** *** What the loops do with a stream of chunks *)

Section Loops.

Lemma recv_chunk s bufsize :
  0 < bufsize → delivers s → incoming s ≠ [] →
  ∃ packet s',
    recv s bufsize = Done (packet, s') ∧ packet ≠ [] ∧
    packet ++ pending s' = pending s ∧ delivers s' ∧
    at_end s' = at_end s ∧ sendable s' = sendable s.
Proof.
  unfold delivers, pending, recv. intros Hpos Hd Hne.
  destruct (incoming s) as [|chunk rest]; [done|].
  inversion Hd as [|? ? Hc Hrest]; subst.
  destruct (Nat.leb (length chunk) bufsize) eqn:E.
  - by exists chunk, (Socket rest (at_end s) (sendable s)).
  - apply Nat.leb_gt in E.
    exists (take bufsize chunk),
           (Socket (drop bufsize chunk :: rest) (at_end s) (sendable s)).
    cbn [incoming at_end sendable concat].
    split; [done|]. split.
    { intros H0. apply (f_equal length) in H0.
      rewrite length_take in H0. cbn [length] in H0. lia. }
    split; [by rewrite app_assoc, take_drop|]. split; [|done].
    constructor; [|done]. intros H0. apply (f_equal length) in H0.
    rewrite length_drop in H0. cbn [length] in H0. lia.
Qed.

Lemma bufsize_pos : 0 < 4096.
Proof. apply Nat.lt_0_succ. Qed.

Lemma recv_at_close s bufsize :
  incoming s = [] → at_end s = OrderlyClose → recv s bufsize = Done ([], s).
Proof. unfold recv. by intros -> ->. Qed.

Lemma pending_nil s : incoming s = [] → pending s = [].
Proof. unfold pending. by intros ->. Qed.

(** The header loop on a stream that still holds a whole prefix: it
    either is still looping, which takes no more fuel than there are
    bytes to deliver, or has gathered at least the prefix. *)
Lemma recv_header_gathers fuel : ∀ s data,
  delivers s →
  payload_size ≤ length (data ++ pending s) →
  (recv_header fuel s data = Spinning ∧ fuel ≤ length (pending s)) ∨
  ∃ data' s',
    recv_header fuel s data = Done (data', s') ∧
    payload_size ≤ length data' ∧
    data' ++ pending s' = data ++ pending s ∧ delivers s' ∧
    at_end s' = at_end s ∧ sendable s' = sendable s ∧
    length (pending s') ≤ length (pending s).
Proof.
  induction fuel as [|fuel IH]; intros s data Hd Hlen.
  - left. split; [done | lia].
  - cbn [recv_header]. destruct (Nat.ltb (length data) payload_size) eqn:E.
    + apply Nat.ltb_lt in E.
      assert (incoming s ≠ []) as Hne.
      { intros H0. rewrite length_app, (pending_nil _ H0) in Hlen.
        simpl in Hlen. lia. }
      destruct (recv_chunk s 4096 bufsize_pos Hd Hne)
        as (packet & s' & -> & Hp & Hcat & Hd' & He & Hs).
      simpl. destruct packet as [|b packet]; [done|].
      assert (length (pending s) = length (b :: packet) + length (pending s'))
        as Hl by (by rewrite <- Hcat, length_app).
      simpl in Hl.
      destruct (IH s' (data ++ b :: packet)) as [[-> Hf]|Hdone]; [done| | |].
      * by rewrite <- app_assoc, Hcat.
      * left. split; [done | lia].
      * right. destruct Hdone as (data' & s2 & -> & H1 & H2 & H3 & H4 & H5 & H6).
        exists data', s2. rewrite H2, <- app_assoc, Hcat, H4, H5.
        repeat split; try done. lia.
    + apply Nat.ltb_ge in E. right. exists data, s. by repeat split.
Qed.

(** The payload loop on a stream that still holds the rest of the
    declared payload. *)
Lemma recv_body_gathers fuel : ∀ s data msg_size,
  delivers s →
  (msg_size <= N.of_nat (length (data ++ pending s)))%N →
  (recv_body fuel s data msg_size = Spinning ∧ fuel ≤ length (pending s)) ∨
  ∃ data' s',
    recv_body fuel s data msg_size = Done (data', s') ∧
    (msg_size <= N.of_nat (length data'))%N ∧
    data' ++ pending s' = data ++ pending s ∧ delivers s' ∧
    at_end s' = at_end s ∧ sendable s' = sendable s.
Proof.
  induction fuel as [|fuel IH]; intros s data msg_size Hd Hlen.
  - left. split; [done | lia].
  - cbn [recv_body].
    destruct (N.of_nat (length data) <? msg_size)%N eqn:E.
    + apply N.ltb_lt in E.
      assert (incoming s ≠ []) as Hne.
      { intros H0. rewrite length_app, (pending_nil _ H0) in Hlen.
        simpl in Hlen. lia. }
      destruct (recv_chunk s 4096 bufsize_pos Hd Hne)
        as (packet & s' & -> & Hp & Hcat & Hd' & He & Hs).
      simpl.
      assert (0 < length packet) as Hpos by (destruct packet; simpl; [done|lia]).
      assert (length (pending s) = length packet + length (pending s'))
        as Hl by (by rewrite <- Hcat, length_app).
      destruct (IH s' (data ++ packet) msg_size) as [[-> Hf]|Hdone]; [done| | |].
      * by rewrite <- app_assoc, Hcat.
      * left. split; [done | lia].
      * right. destruct Hdone as (data' & s2 & -> & H1 & H2 & H3 & H4 & H5).
        exists data', s2. rewrite H2, <- app_assoc, Hcat, H4, H5.
        by repeat split.
    + apply N.ltb_ge in E. right. exists data, s. by repeat split.
Qed.

(** The payload loop on a stream that an orderly close cut short of the
    declared size: it is still looping whatever the fuel. *)
Lemma recv_body_starved fuel : ∀ s data msg_size,
  delivers s → at_end s = OrderlyClose →
  (N.of_nat (length (data ++ pending s)) < msg_size)%N →
  recv_body fuel s data msg_size = Spinning.
Proof.
  induction fuel as [|fuel IH]; intros s data msg_size Hd He Hlen; [done|].
  cbn [recv_body].
  assert ((N.of_nat (length data) <? msg_size)%N = true) as ->.
  { apply N.ltb_lt. rewrite length_app in Hlen. lia. }
  destruct (incoming s) as [|chunk rest] eqn:Ei.
  - rewrite (recv_at_close s 4096 Ei He). simpl. rewrite app_nil_r.
    by apply IH.
  - destruct (recv_chunk s 4096 bufsize_pos Hd) as (packet & s' & -> & Hp & Hcat & Hd' & He' & Hs).
    { by rewrite Ei. }
    simpl. apply IH; [done | congruence |].
    by rewrite <- app_assoc, Hcat.
Qed.

Lemma delivers_pending_nil s : delivers s → pending s = [] → incoming s = [].
Proof.
  unfold delivers, pending. destruct (incoming s) as [|c rest]; [done|].
  intros Hd H. inversion Hd as [|? ? Hc _]; subst.
  simpl in H. by apply app_eq_nil in H as [? _].
Qed.

(** Both loops in sequence on a stream that starts with a whole message
    [hdr ++ payload], possibly followed by [extra] bytes. *)
Lemma gather_message order fuel s data payload hdr extra :
  pack_Q order (N.of_nat (length payload)) = Done hdr →
  delivers s →
  data ++ pending s = hdr ++ payload ++ extra →
  length (pending s) < fuel →
  ∃ data1 s1 data2 s2,
    recv_header fuel s data = Done (data1, s1) ∧
    Nat.ltb (length data1) payload_size = false ∧
    unpack_Q order (take payload_size data1) =
      Done (N.of_nat (length payload)) ∧
    recv_body fuel s1 (drop payload_size data1) (N.of_nat (length payload)) =
      Done (data2, s2) ∧
    take (length payload) data2 = payload ∧
    drop (length payload) data2 ++ pending s2 = extra ∧
    delivers s2 ∧ at_end s2 = at_end s ∧ sendable s2 = sendable s.
Proof.
  intros Hpack Hd Hstream Hfuel.
  pose proof (pack_Q_length _ _ _ Hpack) as Hlen.
  destruct (recv_header_gathers fuel s data Hd) as [[_ ?]|Hdone]; [|lia|].
  { rewrite Hstream, length_app. lia. }
  destruct Hdone as (data1 & s1 & H1 & Hl1 & Hcat1 & Hd1 & He1 & Hs1 & Hp1).
  rewrite Hstream in Hcat1.
  assert (take payload_size data1 = hdr) as Htake.
  { rewrite <- (take_app_le data1 (pending s1)) by done.
    rewrite Hcat1. by apply take_app_length'. }
  assert (drop payload_size data1 ++ pending s1 = payload ++ extra) as Hdrop.
  { rewrite <- (drop_app_le data1 (pending s1)) by done.
    rewrite Hcat1. by apply drop_app_length'. }
  destruct (recv_body_gathers fuel s1 (drop payload_size data1)
              (N.of_nat (length payload)) Hd1) as [[_ ?]|Hdone]; [|lia|].
  { rewrite Hdrop, length_app. lia. }
  destruct Hdone as (data2 & s2 & H2 & Hl2 & Hcat2 & Hd2 & He2 & Hs2).
  rewrite Hdrop in Hcat2.
  assert (length payload ≤ length data2) as Hl2' by lia.
  exists data1, s1, data2, s2. split; [done|].
  split; [by apply Nat.ltb_ge|].
  split; [rewrite Htake; by apply unpack_pack_Q|]. split; [done|].
  split.
  { rewrite <- (take_app_le data2 (pending s2)) by done.
    rewrite Hcat2. by apply take_app_length'. }
  split.
  { rewrite <- (drop_app_le data2 (pending s2)) by done.
    rewrite Hcat2. by apply drop_app_length'. }
  split; [done|]. split; congruence.
Qed.

End Loops.

(** ** Properties of the transport *)

(** C3. Whatever non-empty chunks the network cuts a framed payload
    into, both receive blocks, given fuel for one loop iteration per
    byte, return exactly the payload (and the server keeps nothing for
    the next message). *)
Theorem framing_round_trip (order : byte_order) (payload framed : bytes)
    (chunks : list bytes) (e : ending) (n fuel : nat) :
  frame_message order payload = Done framed →
  concat chunks = framed →
  Forall (λ c, c ≠ []) chunks →
  length framed < fuel →
  client_receive order fuel (Socket chunks e n) =
    Done (payload, Socket [] e n) ∧
  server_receive order fuel (Socket chunks e n) [] =
    Done (Some (payload, [], Socket [] e n)).
Proof.
  intros Hframe Hcat Hne Hfuel. unfold frame_message in Hframe.
  destruct (pack_Q order (N.of_nat (length payload))) as [hdr| |] eqn:Hpack;
    try done.
  assert (framed = hdr ++ payload) as -> by (simpl in Hframe; congruence).
  destruct (gather_message order fuel (Socket chunks e n) [] payload hdr []
              Hpack Hne)
    as (data1 & s1 & data2 & s2 & H1 & Hlt & Hun & H2 & Htake & Hdrop & Hd2
        & He2 & Hs2).
  { by rewrite app_nil_r. }
  { unfold pending. simpl. by rewrite Hcat. }
  apply app_eq_nil in Hdrop as [Hdrop Hpend].
  assert (s2 = Socket [] e n) as ->.
  { pose proof (delivers_pending_nil _ Hd2 Hpend) as Hi.
    destruct s2 as [inc e2 n2]. simpl in He2, Hs2, Hi. by subst. }
  unfold client_receive, server_receive.
  rewrite H1. cbn [mbind outcome_bind]. rewrite Hlt, Hun.
  cbn [mbind outcome_bind]. rewrite H2. cbn [mbind outcome_bind].
  by rewrite Nat2N.id, Htake, Hdrop.
Qed.

(** A stream that an orderly close cuts after the prefix and before the
    end of the payload starves both receive blocks. *)
Lemma receive_starved (order : byte_order)
    (payload framed sent missing : bytes) (chunks : list bytes)
    (n fuel : nat) :
  frame_message order payload = Done framed →
  framed = sent ++ missing →
  missing ≠ [] →
  payload_size ≤ length sent →
  concat chunks = sent →
  Forall (λ c, c ≠ []) chunks →
  client_receive order fuel (Socket chunks OrderlyClose n) = Spinning ∧
  server_receive order fuel (Socket chunks OrderlyClose n) [] = Spinning.
Proof.
  intros Hframe Hsplit Hmiss Hlen Hcat Hne. unfold frame_message in Hframe.
  destruct (pack_Q order (N.of_nat (length payload))) as [hdr| |] eqn:Hpack;
    try done.
  assert (framed = hdr ++ payload) as -> by (simpl in Hframe; congruence).
  pose proof (pack_Q_length _ _ _ Hpack) as Hhdr.
  set (s := Socket chunks OrderlyClose n).
  assert (pending s = sent) as Hpend by done.
  unfold client_receive, server_receive.
  destruct (recv_header_gathers fuel s [] Hne) as [[-> _]|Hdone];
    [by rewrite Hpend | done |].
  destruct Hdone as (data1 & s1 & -> & Hl1 & Hcat1 & Hd1 & He1 & _).
  cbn [mbind outcome_bind]. simpl in Hcat1. rewrite Hpend in Hcat1.
  assert (take payload_size sent = hdr) as Hhd.
  { rewrite <- (take_app_le sent missing) by done.
    rewrite <- Hsplit. by apply take_app_length'. }
  assert (take payload_size data1 = hdr) as Htake.
  { rewrite <- (take_app_le data1 (pending s1)) by done. by rewrite Hcat1. }
  assert (length sent < payload_size + length payload) as Hshort.
  { apply (f_equal length) in Hsplit. rewrite !length_app in Hsplit.
    destruct missing; [done|]. simpl in Hsplit. lia. }
  assert (drop payload_size data1 ++ pending s1 = drop payload_size sent)
    as Hdrop.
  { rewrite <- (drop_app_le data1 (pending s1)) by done. by rewrite Hcat1. }
  rewrite (proj2 (Nat.ltb_ge _ _) Hl1), Htake, (unpack_pack_Q _ _ _ Hpack).
  cbn [mbind outcome_bind].
  rewrite recv_body_starved; [done|done|done|].
  rewrite Hdrop, length_drop. lia.
Qed.

(** C2 fails on the code.  When the peer closes in an orderly way after
    the whole prefix and only part of the declared payload, neither
    receive block raises or returns: the payload loop keeps calling
    [recv], which keeps returning [b""], whatever the fuel. *)
Theorem short_payload_never_returns (order : byte_order)
    (payload framed sent missing : bytes) (chunks : list bytes)
    (n fuel : nat) :
  frame_message order payload = Done framed →
  framed = sent ++ missing →
  missing ≠ [] →
  payload_size ≤ length sent →
  concat chunks = sent →
  Forall (λ c, c ≠ []) chunks →
  client_receive order fuel (Socket chunks OrderlyClose n) = Spinning ∧
  server_receive order fuel (Socket chunks OrderlyClose n) [] = Spinning.
Proof. apply receive_starved. Qed.

Lemma short_payload_never_returns_witness :
  client_receive LittleEndian 100 (Socket prefix_and_two OrderlyClose 0)
    = Spinning ∧
  server_receive LittleEndian 100 (Socket prefix_and_two OrderlyClose 0) []
    = Spinning.
Proof.
  apply (short_payload_never_returns LittleEndian five_bytes
           five_bytes_framed
           [Byte.x05; Byte.x00; Byte.x00; Byte.x00; Byte.x00; Byte.x00;
            Byte.x00; Byte.x00; Byte.x61; Byte.x62]
           [Byte.x63; Byte.x64; Byte.x65]).
  - reflexivity.
  - reflexivity.
  - discriminate.
  - unfold payload_size. simpl. lia.
  - reflexivity.
  - repeat constructor; discriminate.
Defined.

Lemma framing_round_trip_witness :
  client_receive LittleEndian 14
    (one_frame_client Reset 0) =
    Done (five_bytes, Socket [] Reset 0) ∧
  server_receive LittleEndian 14
    (one_frame_client Reset 0) [] =
    Done (Some (five_bytes, [], Socket [] Reset 0)).
Proof.
  apply (framing_round_trip LittleEndian five_bytes five_bytes_framed).
  - reflexivity.
  - reflexivity.
  - repeat constructor; discriminate.
  - simpl. lia.
Defined.

(** ** Properties of the accept loop *)

Section ServerFacts.

Variable order : byte_order.
Variables frame results : Type.
Variable pickle_loads : bytes → outcome frame.
Variable process_frame : frame → outcome results.
Variable pickle_dumps : results → bytes.

Local Abbreviation respond :=
  (respond order pickle_loads process_frame pickle_dumps).
Local Abbreviation session :=
  (session order pickle_loads process_frame pickle_dumps).
Local Abbreviation serve :=
  (serve order pickle_loads process_frame pickle_dumps).

Lemma session_events fuel conn : ∀ s data,
  Forall (λ ev, event_conn ev = conn) (session fuel conn s data).1.
Proof.
  induction fuel as [|fuel IH]; intros s data; [constructor|].
  cbn [session].
  destruct (server_receive order fuel s data) as [[[[fd data'] s1]|]|e|];
    try constructor.
  destruct (respond s1 fd) as [[msg s2]|e|]; try by repeat constructor.
  specialize (IH s2 data'). destruct (session fuel conn s2 data').
  by repeat constructor.
Qed.

Lemma serve_events fuel clients : ∀ conn,
  Forall (λ ev, conn ≤ event_conn ev) (serve fuel conn clients).1.
Proof.
  induction clients as [|c rest IH]; intros conn; [constructor|].
  cbn [serve]. specialize (IH (S conn)).
  pose proof (session_events fuel conn c []) as Hs.
  assert (Forall (λ ev, conn ≤ event_conn ev) (session fuel conn c []).1)
    as Hs'.
  { eapply Forall_impl; [exact Hs|]. simpl. lia. }
  assert (Forall (λ ev, conn ≤ event_conn ev) (serve fuel (S conn) rest).1)
    as IH'.
  { eapply Forall_impl; [exact IH|]. simpl. lia. }
  destruct (session fuel conn c []) as [evs [[]|e|]];
    destruct (serve fuel (S conn) rest) as [later st]; simpl in *.
  - constructor; [done|]. apply Forall_app. split; [done|].
    by constructor.
  - constructor; [done|]. apply Forall_app. split; [done|].
    by repeat constructor.
  - by constructor.
Qed.

(** When a session raises, the server prints the error, closes the
    client socket and goes on with the next [accept]; every event of
    the failed session precedes the error, and everything the server
    does afterwards belongs to later connections. *)
Lemma error_ends_session (fuel conn : nat) (c : socket)
    (rest : list socket) (evs : list event) (e : exn) :
  session fuel conn c [] = (evs, Raised e) →
  serve fuel conn (c :: rest) =
    (Accepted conn :: evs ++
       ErrorPrinted conn e :: Closed conn :: (serve fuel (S conn) rest).1,
     (serve fuel (S conn) rest).2) ∧
  Forall (λ ev, event_conn ev = conn) evs ∧
  Forall (λ ev, conn < event_conn ev) (serve fuel (S conn) rest).1.
Proof.
  intros Hs. split; [|split].
  - cbn [serve]. rewrite Hs. by destruct (serve fuel (S conn) rest).
  - pose proof (session_events fuel conn c []) as H. by rewrite Hs in H.
  - apply serve_events.
Qed.

(** C10 fails for one receive failure.  A client that closes in an
    orderly way in the middle of a payload raises nothing in the
    server's receive block, which loops on the empty packets: however
    long it runs, the server is still inside that session, no error is
    printed, the socket is not closed and no other client is
    accepted. *)
Theorem short_payload_blocks_server (fuel conn : nat)
    (payload framed sent missing : bytes) (chunks : list bytes) (n : nat)
    (rest : list socket) :
  frame_message order payload = Done framed →
  framed = sent ++ missing →
  missing ≠ [] →
  payload_size ≤ length sent →
  concat chunks = sent →
  Forall (λ c, c ≠ []) chunks →
  serve fuel conn (Socket chunks OrderlyClose n :: rest) =
    ([Accepted conn], InSession conn).
Proof.
  intros H1 H2 H3 H4 H5 H6. cbn [serve].
  destruct fuel as [|fuel]; [done|]. cbn [session].
  by rewrite (proj2 (receive_starved order payload framed sent missing
                       chunks n fuel H1 H2 H3 H4 H5 H6)).
Qed.

End ServerFacts.

Example reset_in_prefix_raises :
  session LittleEndian Done echo_detector id 20 0
          (Socket [[Byte.x05]] Reset 1) [] = ([], Raised ConnectionError).
Proof. reflexivity. Qed.

Example failed_send_raises :
  session LittleEndian Done echo_detector id 20 0
          (one_frame_client OrderlyClose 0) [] =
    ([Received 0 five_bytes], Raised ConnectionError).
Proof. reflexivity. Qed.

Example served_then_closed :
  serve LittleEndian Done echo_detector id 20 0
        [one_frame_client OrderlyClose 1] =
    ([Accepted 0; Received 0 five_bytes;
      Sent 0 five_bytes_framed;
      Closed 0], Accepting).
Proof. reflexivity. Qed.

(** A detector failure does end the session: the error is printed, the
    socket closed and the next client accepted. *)
Example detector_failure_ends_session :
  serve LittleEndian Done failing_detector id 20 0
        [one_frame_client OrderlyClose 1; idle_client] =
    (Accepted 0 :: [Received 0 five_bytes] ++
       ErrorPrinted 0 DetectorError :: Closed 0 ::
       (serve LittleEndian Done failing_detector id 20 1 [idle_client]).1,
     (serve LittleEndian Done failing_detector id 20 1 [idle_client]).2) ∧
  Forall (λ ev, event_conn ev = 0) [Received 0 five_bytes] ∧
  Forall (λ ev, 0 < event_conn ev)
         (serve LittleEndian Done failing_detector id 20 1 [idle_client]).1.
Proof.
  apply (error_ends_session LittleEndian bytes bytes Done failing_detector id
           20 0 (one_frame_client OrderlyClose 1) [idle_client]
           [Received 0 five_bytes] DetectorError).
  reflexivity.
Qed.

(** The client of the example sends the prefix and two of the five
    bytes it announced, then closes; the client that connects next is
    never accepted. *)
Lemma short_payload_blocks_server_witness :
  serve LittleEndian Done echo_detector id 100 0
        [Socket prefix_and_two OrderlyClose 1; idle_client] =
    ([Accepted 0], InSession 0).
Proof.
  apply (short_payload_blocks_server LittleEndian bytes bytes Done
           echo_detector id 100 0 five_bytes five_bytes_framed
           (take 10 five_bytes_framed) (drop 10 five_bytes_framed)
           prefix_and_two 1 [idle_client]).
  - reflexivity.
  - reflexivity.
  - discriminate.
  - unfold payload_size. simpl. lia.
  - reflexivity.
  - repeat constructor; discriminate.
Defined.

(** * Further properties of the code *)

(** ** The length prefix and the framing *)

Section PrefixFacts.

Lemma byte_of_N_to_N b : byte_of_N (Byte.to_N b) = b.
Proof.
  unfold byte_of_N.
  pose proof (Byte.to_N_bounded b) as Hb.
  rewrite N.mod_small by lia. by rewrite Byte.of_to_N.
Qed.

Lemma le_value_bound bs : (le_value bs < 256 ^ N.of_nat (length bs))%N.
Proof.
  induction bs as [|b bs IH]; [simpl; lia|].
  cbn [le_value length]. rewrite Nat2N.inj_succ, N.pow_succ_r'.
  pose proof (Byte.to_N_bounded b). lia.
Qed.

Lemma le_bytes_le_value bs : le_bytes (length bs) (le_value bs) = bs.
Proof.
  induction bs as [|b bs IH]; [done|].
  cbn [le_value length le_bytes].
  pose proof (Byte.to_N_bounded b) as Hb. f_equal.
  - unfold byte_of_N.
    replace ((Byte.to_N b + 256 * le_value bs) mod 256)%N with (Byte.to_N b).
    + by rewrite Byte.of_to_N.
    + replace (Byte.to_N b + 256 * le_value bs)%N
        with (Byte.to_N b + le_value bs * 256)%N by lia.
      rewrite N.Div0.mod_add. symmetry. apply N.mod_small. lia.
  - replace ((Byte.to_N b + 256 * le_value bs) / 256)%N with (le_value bs);
      [done|].
    replace (Byte.to_N b + 256 * le_value bs)%N
      with (Byte.to_N b + le_value bs * 256)%N by lia.
    rewrite N.div_add by lia.
    rewrite (N.div_small (Byte.to_N b)) by lia. lia.
Qed.

End PrefixFacts.

(** X1. Whatever [struct.pack("Q", n)] returns is eight bytes long and
    [struct.unpack] reads [n] back from it, in either byte order. *)
Theorem length_prefix_round_trip (order : byte_order) (n : N) (b : bytes) :
  pack_Q order n = Done b →
  length b = 8 ∧ unpack_Q order b = Done n.
Proof.
  intros H. split; [exact (pack_Q_length _ _ _ H) | by apply unpack_pack_Q].
Qed.

Lemma length_prefix_round_trip_witness :
  length (take 8 five_bytes_framed) = 8 ∧
  unpack_Q LittleEndian (take 8 five_bytes_framed) = Done 5%N.
Proof.
  apply (length_prefix_round_trip LittleEndian 5 (take 8 five_bytes_framed)).
  reflexivity.
Defined.

(** X2. Every eight-byte string is the prefix of exactly one length:
    [struct.unpack] accepts it, the value is below 2^64 and
    [struct.pack] gives the same eight bytes back; any other size makes
    [struct.unpack] raise. *)
Theorem length_prefix_decode_encode (order : byte_order) (b : bytes) :
  (length b = 8 →
     ∃ n, unpack_Q order b = Done n ∧ (n < 2 ^ 64)%N ∧
          pack_Q order n = Done b) ∧
  (length b ≠ 8 → unpack_Q order b = Raised StructError).
Proof.
  split.
  - intros Hlen.
    set (le := match order with LittleEndian => b | BigEndian => rev b end).
    assert (length le = 8) as Hle by (unfold le; destruct order;
                                      by rewrite ?length_rev).
    exists (le_value le).
    assert (le_value le < 2 ^ 64)%N as Hlt.
    { pose proof (le_value_bound le) as Hb. rewrite Hle in Hb. exact Hb. }
    split; [|split; [done|]].
    + unfold unpack_Q, payload_size. by rewrite Hlen.
    + unfold pack_Q. rewrite (proj2 (N.ltb_lt _ _) Hlt).
      unfold payload_size. rewrite <- Hle, le_bytes_le_value.
      unfold le. destruct order; [done | by rewrite rev_involutive].
  - intros Hne. unfold unpack_Q, payload_size.
    by rewrite (proj2 (Nat.eqb_neq _ _) Hne).
Qed.

Lemma length_prefix_decode_encode_witness :
  (∃ n, unpack_Q LittleEndian (take 8 five_bytes_framed) = Done n ∧
        (n < 2 ^ 64)%N ∧
        pack_Q LittleEndian n = Done (take 8 five_bytes_framed)) ∧
  unpack_Q LittleEndian five_bytes = Raised StructError.
Proof.
  split.
  - apply (proj1 (length_prefix_decode_encode LittleEndian
                    (take 8 five_bytes_framed))). reflexivity.
  - apply (proj2 (length_prefix_decode_encode LittleEndian five_bytes)).
    simpl. lia.
Defined.

(** X3. A framed message is the payload with eight bytes in front, and
    framing is prefix-free: if two framed messages, each followed by
    anything, give the same byte stream, the payloads and the rests are
    equal. *)
Theorem framing_is_prefix_free (order : byte_order)
    (p1 p2 f1 f2 r1 r2 : bytes) :
  frame_message order p1 = Done f1 →
  frame_message order p2 = Done f2 →
  f1 ++ r1 = f2 ++ r2 →
  length f1 = 8 + length p1 ∧ drop 8 f1 = p1 ∧ p1 = p2 ∧ r1 = r2.
Proof.
  unfold frame_message. intros H1 H2 Heq.
  destruct (pack_Q order (N.of_nat (length p1))) as [h1| |] eqn:E1; try done.
  destruct (pack_Q order (N.of_nat (length p2))) as [h2| |] eqn:E2; try done.
  assert (f1 = h1 ++ p1) as -> by (simpl in H1; congruence).
  assert (f2 = h2 ++ p2) as -> by (simpl in H2; congruence).
  pose proof (pack_Q_length _ _ _ E1) as L1.
  pose proof (pack_Q_length _ _ _ E2) as L2.
  unfold payload_size in L1, L2.
  split; [rewrite length_app; lia|].
  split; [by apply drop_app_length'|].
  rewrite <- !app_assoc in Heq.
  apply app_inj_1 in Heq as [-> Heq]; [|congruence].
  pose proof (unpack_pack_Q _ _ _ E1) as U1.
  rewrite (unpack_pack_Q _ _ _ E2) in U1.
  assert (length p2 = length p1) as Hl by (injection U1; lia).
  by apply app_inj_1 in Heq as [-> ->].
Qed.

Lemma framing_is_prefix_free_witness :
  length five_bytes_framed = 8 + length five_bytes ∧
  drop 8 five_bytes_framed = five_bytes ∧
  five_bytes = five_bytes ∧ [Byte.x00] = [Byte.x00].
Proof.
  apply (framing_is_prefix_free LittleEndian five_bytes five_bytes
           five_bytes_framed five_bytes_framed [Byte.x00] [Byte.x00]);
    reflexivity.
Defined.

(** [recv] never returns more than [bufsize] bytes and neither loses nor
    invents any. *)
Lemma recv_split (s s' : socket) (bufsize : nat) (packet : bytes) :
  recv s bufsize = Done (packet, s') →
  length packet ≤ bufsize ∧
  packet ++ pending s' = pending s ∧
  at_end s' = at_end s ∧ sendable s' = sendable s.
Proof.
  unfold recv, pending. destruct (incoming s) as [|chunk rest] eqn:E.
  - destruct (at_end s) eqn:Ea; [|done]. intros [= <- <-].
    rewrite E. simpl. repeat split; [lia | done].
  - destruct (Nat.leb (length chunk) bufsize) eqn:El; intros [= <- <-];
      cbn [incoming at_end sendable concat].
    + apply Nat.leb_le in El. by repeat split.
    + repeat split.
      * rewrite length_take. lia.
      * by rewrite app_assoc, take_drop.
Qed.

(** ** What the receive blocks return, whatever the stream *)

Section ReceiveFacts.

Lemma bind_Done {A B} (m : outcome A) (k : A → outcome B) (b : B) :
  m ≫= k = Done b → ∃ a, m = Done a ∧ k a = Done b.
Proof. destruct m as [a| |]; [|done|done]. intros H. by exists a. Qed.

(** The header loop only appends what [recv] hands over. *)
Lemma recv_header_consumes fuel : ∀ s data data' s',
  recv_header fuel s data = Done (data', s') →
  ∃ got, data' = data ++ got ∧ got ++ pending s' = pending s ∧
         at_end s' = at_end s ∧ sendable s' = sendable s.
Proof.
  induction fuel as [|fuel IH]; intros s data data' s' H; [done|].
  cbn [recv_header] in H.
  destruct (Nat.ltb (length data) payload_size).
  - apply bind_Done in H as ([packet s1] & Hr & H).
    apply recv_split in Hr as (_ & Hcat & He & Hs).
    destruct packet as [|b packet].
    + injection H as <- <-. exists []. by rewrite app_nil_r.
    + apply IH in H as (got & -> & Hcat' & He' & Hs').
      exists ((b :: packet) ++ got).
      split; [by rewrite app_assoc|]. split; [|split; congruence].
      by rewrite <- Hcat, <- Hcat', <- app_assoc.
  - injection H as <- <-. exists []. by rewrite app_nil_r.
Qed.

(** So does the payload loop, and it only stops with the declared
    number of bytes in hand. *)
Lemma recv_body_consumes fuel : ∀ s data msg_size data' s',
  recv_body fuel s data msg_size = Done (data', s') →
  (msg_size <= N.of_nat (length data'))%N ∧
  ∃ got, data' = data ++ got ∧ got ++ pending s' = pending s ∧
         at_end s' = at_end s ∧ sendable s' = sendable s.
Proof.
  induction fuel as [|fuel IH]; intros s data msg_size data' s' H; [done|].
  cbn [recv_body] in H.
  destruct (N.of_nat (length data) <? msg_size)%N eqn:E.
  - apply bind_Done in H as ([packet s1] & Hr & H).
    apply recv_split in Hr as (_ & Hcat & He & Hs).
    apply IH in H as (Hlen & got & -> & Hcat' & He' & Hs').
    split; [done|]. exists (packet ++ got).
    split; [by rewrite app_assoc|]. split; [|split; congruence].
    by rewrite <- Hcat, <- Hcat', <- app_assoc.
  - apply N.ltb_ge in E. injection H as <- <-. split; [done|].
    exists []. by rewrite app_nil_r.
Qed.

(** The shape of a successful receive, shared by both endpoints. *)
Lemma receive_shape order fuel s data d1 s1 d2 s2 msg_size :
  recv_header fuel s data = Done (d1, s1) →
  unpack_Q order (take payload_size d1) = Done msg_size →
  recv_body fuel s1 (drop payload_size d1) msg_size = Done (d2, s2) →
  length (take payload_size d1) = 8 ∧
  unpack_Q order (take payload_size d1) =
    Done (N.of_nat (length (take (N.to_nat msg_size) d2))) ∧
  take payload_size d1 ++ take (N.to_nat msg_size) d2 ++
    drop (N.to_nat msg_size) d2 ++ pending s2 = data ++ pending s ∧
  at_end s2 = at_end s ∧ sendable s2 = sendable s.
Proof.
  intros Hh Hu Hb.
  assert (length (take payload_size d1) = 8) as Hl8.
  { unfold unpack_Q in Hu.
    destruct (Nat.eqb (length (take payload_size d1)) payload_size) eqn:E;
      [|done]. by apply Nat.eqb_eq in E. }
  apply recv_header_consumes in Hh as (got1 & -> & Hc1 & He1 & Hs1).
  apply recv_body_consumes in Hb as (Hlen & got2 & -> & Hc2 & He2 & Hs2).
  split; [done|]. split.
  { rewrite Hu. f_equal. rewrite length_take. lia. }
  split; [|split; congruence].
  rewrite (app_assoc (take _ _) (drop _ _)), take_drop.
  rewrite <- (app_assoc (drop _ _)), Hc2, (app_assoc (take _ _)), take_drop.
  by rewrite <- app_assoc, Hc1.
Qed.

End ReceiveFacts.

(** X4. Whenever the server's receive block hands over a frame, the
    frame has exactly the length that the eight bytes before it declare,
    and no byte of the stream is lost: prefix, frame, the bytes kept for
    the next message and the bytes still to come make up what was
    buffered and to come before. *)
Theorem server_receive_exact (order : byte_order) (fuel : nat)
    (s s' : socket) (data frame_data data' : bytes) :
  server_receive order fuel s data = Done (Some (frame_data, data', s')) →
  ∃ hdr,
    length hdr = 8 ∧
    unpack_Q order hdr = Done (N.of_nat (length frame_data)) ∧
    hdr ++ frame_data ++ data' ++ pending s' = data ++ pending s.
Proof.
  unfold server_receive. intros H.
  apply bind_Done in H as ([d1 s1] & Hh & H).
  destruct (Nat.ltb (length d1) payload_size); [done|].
  apply bind_Done in H as (msg_size & Hu & H).
  apply bind_Done in H as ([d2 s2] & Hb & H).
  injection H as <- <- <-.
  destruct (receive_shape _ _ _ _ _ _ _ _ _ Hh Hu Hb) as (H1 & H2 & H3 & _).
  by exists (take payload_size d1).
Qed.

Lemma server_receive_exact_witness :
  ∃ hdr,
    length hdr = 8 ∧
    unpack_Q LittleEndian hdr = Done (N.of_nat (length five_bytes)) ∧
    hdr ++ five_bytes ++ [Byte.x07] ++ pending (Socket [] Reset 2) =
      [] ++ pending (Socket [five_bytes_framed ++ [Byte.x07]] Reset 2).
Proof.
  apply (server_receive_exact LittleEndian 5
           (Socket [five_bytes_framed ++ [Byte.x07]] Reset 2)
           (Socket [] Reset 2) [] five_bytes [Byte.x07]).
  reflexivity.
Defined.

(** X5. Whenever the client's receive block returns, the result has
    exactly the declared length (never a truncated payload); bytes that
    arrived after it in the same [recv] are dropped, not kept. *)
Theorem client_receive_exact (order : byte_order) (fuel : nat)
    (s s' : socket) (result_data : bytes) :
  client_receive order fuel s = Done (result_data, s') →
  ∃ hdr dropped,
    length hdr = 8 ∧
    unpack_Q order hdr = Done (N.of_nat (length result_data)) ∧
    hdr ++ result_data ++ dropped ++ pending s' = pending s.
Proof.
  unfold client_receive. intros H.
  apply bind_Done in H as ([d1 s1] & Hh & H).
  apply bind_Done in H as (msg_size & Hu & H).
  apply bind_Done in H as ([d2 s2] & Hb & H).
  injection H as <- <-.
  destruct (receive_shape _ _ _ _ _ _ _ _ _ Hh Hu Hb) as (H1 & H2 & H3 & _).
  by exists (take payload_size d1), (drop (N.to_nat msg_size) d2).
Qed.

Lemma client_receive_exact_witness :
  ∃ hdr dropped,
    length hdr = 8 ∧
    unpack_Q LittleEndian hdr = Done (N.of_nat (length five_bytes)) ∧
    hdr ++ five_bytes ++ dropped ++ pending (Socket [] Reset 2) =
      pending (Socket [five_bytes_framed ++ [Byte.x07]] Reset 2).
Proof.
  apply (client_receive_exact LittleEndian 5
           (Socket [five_bytes_framed ++ [Byte.x07]] Reset 2)
           (Socket [] Reset 2) five_bytes).
  reflexivity.
Defined.

(** ** Streams that end too early *)

Section EarlyEnd.

(** The header loop on a stream that an orderly close ends before the
    prefix is complete: it reads everything and stops at the empty
    packet. *)
Lemma recv_header_drains fuel : ∀ s data,
  delivers s → at_end s = OrderlyClose →
  length (data ++ pending s) < payload_size →
  length (pending s) < fuel →
  recv_header fuel s data =
    Done (data ++ pending s, Socket [] OrderlyClose (sendable s)).
Proof.
  induction fuel as [|fuel IH]; intros s data Hd He Hlen Hfuel; [lia|].
  cbn [recv_header].
  assert (Nat.ltb (length data) payload_size = true) as ->.
  { apply Nat.ltb_lt. rewrite length_app in Hlen. lia. }
  destruct (incoming s) as [|chunk rest] eqn:Ei.
  - rewrite (recv_at_close s 4096 Ei He). simpl.
    rewrite (pending_nil s Ei), app_nil_r.
    destruct s as [inc e n]. simpl in Ei, He. by subst.
  - destruct (recv_chunk s 4096 bufsize_pos Hd)
      as (packet & s' & -> & Hp & Hcat & Hd' & He' & Hs'); [by rewrite Ei|].
    simpl. destruct packet as [|b packet]; [done|].
    assert (length (pending s) = length (b :: packet) + length (pending s'))
      as Hl by (by rewrite <- Hcat, length_app).
    simpl in Hl.
    rewrite IH; [|done|congruence| |lia].
    + by rewrite <- app_assoc, Hcat, Hs'.
    + by rewrite <- app_assoc, Hcat.
Qed.

(** The same stream ended by a reset: the loop raises. *)
Lemma recv_header_reset fuel : ∀ s data,
  delivers s → at_end s = Reset →
  length (data ++ pending s) < payload_size →
  length (pending s) < fuel →
  recv_header fuel s data = Raised ConnectionError.
Proof.
  induction fuel as [|fuel IH]; intros s data Hd He Hlen Hfuel; [lia|].
  cbn [recv_header].
  assert (Nat.ltb (length data) payload_size = true) as ->.
  { apply Nat.ltb_lt. rewrite length_app in Hlen. lia. }
  destruct (incoming s) as [|chunk rest] eqn:Ei.
  - unfold recv. by rewrite Ei, He.
  - destruct (recv_chunk s 4096 bufsize_pos Hd)
      as (packet & s' & -> & Hp & Hcat & Hd' & He' & Hs'); [by rewrite Ei|].
    simpl. destruct packet as [|b packet]; [done|].
    assert (length (pending s) = length (b :: packet) + length (pending s'))
      as Hl by (by rewrite <- Hcat, length_app).
    simpl in Hl.
    apply IH; [done|congruence| |lia].
    by rewrite <- app_assoc, Hcat.
Qed.

(** The payload loop on a stream that a reset cuts short of the
    declared size: it raises. *)
Lemma recv_body_reset fuel : ∀ s data msg_size,
  delivers s → at_end s = Reset →
  (N.of_nat (length (data ++ pending s)) < msg_size)%N →
  length (pending s) < fuel →
  recv_body fuel s data msg_size = Raised ConnectionError.
Proof.
  induction fuel as [|fuel IH]; intros s data msg_size Hd He Hlen Hfuel;
    [lia|].
  cbn [recv_body].
  assert ((N.of_nat (length data) <? msg_size)%N = true) as ->.
  { apply N.ltb_lt. rewrite length_app in Hlen. lia. }
  destruct (incoming s) as [|chunk rest] eqn:Ei.
  - unfold recv. by rewrite Ei, He.
  - destruct (recv_chunk s 4096 bufsize_pos Hd)
      as (packet & s' & -> & Hp & Hcat & Hd' & He' & Hs'); [by rewrite Ei|].
    simpl.
    assert (0 < length packet) as Hpos by (destruct packet; simpl; [done|lia]).
    assert (length (pending s) = length packet + length (pending s'))
      as Hl by (by rewrite <- Hcat, length_app).
    apply IH; [done|congruence| |lia].
    by rewrite <- app_assoc, Hcat.
Qed.

(** A short prefix, closed in an orderly way, at either endpoint. *)
Lemma short_prefix_receive order (sent : bytes) (chunks : list bytes)
    (n fuel : nat) :
  concat chunks = sent →
  Forall (λ c, c ≠ []) chunks →
  length sent < 8 →
  length sent < fuel →
  client_receive order fuel (Socket chunks OrderlyClose n) =
    Raised StructError ∧
  server_receive order fuel (Socket chunks OrderlyClose n) [] = Done None.
Proof.
  intros Hcat Hne Hlen Hfuel.
  set (s := Socket chunks OrderlyClose n).
  assert (pending s = sent) as Hp by done.
  unfold client_receive, server_receive.
  rewrite (recv_header_drains fuel s []); [|done|done| |];
    [|by rewrite Hp|by rewrite Hp].
  cbn [mbind outcome_bind app]. rewrite Hp.
  assert (Nat.ltb (length sent) payload_size = true) as ->
    by (by apply Nat.ltb_lt).
  split; [|done].
  rewrite take_ge by (unfold payload_size; lia).
  unfold unpack_Q.
  assert (Nat.eqb (length sent) payload_size = false) as ->.
  { apply Nat.eqb_neq. unfold payload_size. lia. }
  done.
Qed.

End EarlyEnd.

(** X6. When the peer closes in an orderly way before the eight-byte
    prefix is complete, the client's receive block raises
    [struct.error] (reported as a receive error), while the server's
    takes the [break]: the session ends without an error. *)
Theorem short_prefix_ends_receive (order : byte_order) (sent : bytes)
    (chunks : list bytes) (n fuel : nat) :
  concat chunks = sent →
  Forall (λ c, c ≠ []) chunks →
  length sent < 8 →
  length sent < fuel →
  client_receive order fuel (Socket chunks OrderlyClose n) =
    Raised StructError ∧
  server_receive order fuel (Socket chunks OrderlyClose n) [] = Done None.
Proof. apply short_prefix_receive. Qed.

Lemma short_prefix_ends_receive_witness :
  client_receive BigEndian 4
    (Socket [[Byte.x00; Byte.x00]; [Byte.x00]] OrderlyClose 1) =
    Raised StructError ∧
  server_receive BigEndian 4
    (Socket [[Byte.x00; Byte.x00]; [Byte.x00]] OrderlyClose 1) [] =
    Done None.
Proof.
  apply (short_prefix_ends_receive BigEndian [Byte.x00; Byte.x00; Byte.x00]).
  - reflexivity.
  - repeat constructor; discriminate.
  - simpl. lia.
  - simpl. lia.
Defined.

(** A framed message cut anywhere by a reset, at either endpoint. *)
Lemma receive_reset (order : byte_order)
    (payload framed sent missing : bytes) (chunks : list bytes)
    (n fuel : nat) :
  frame_message order payload = Done framed →
  framed = sent ++ missing →
  missing ≠ [] →
  concat chunks = sent →
  Forall (λ c, c ≠ []) chunks →
  length sent < fuel →
  client_receive order fuel (Socket chunks Reset n) = Raised ConnectionError ∧
  server_receive order fuel (Socket chunks Reset n) [] =
    Raised ConnectionError.
Proof.
  intros Hframe Hsplit Hmiss Hcat Hne Hfuel. unfold frame_message in Hframe.
  destruct (pack_Q order (N.of_nat (length payload))) as [hdr| |] eqn:Hpack;
    try done.
  assert (framed = hdr ++ payload) as -> by (simpl in Hframe; congruence).
  pose proof (pack_Q_length _ _ _ Hpack) as Hhdr.
  set (s := Socket chunks Reset n).
  assert (pending s = sent) as Hpend by done.
  unfold client_receive, server_receive.
  destruct (decide (length sent < payload_size)) as [Hshort|Hlong].
  - rewrite (recv_header_reset fuel s []); [done|done|done| |];
      by rewrite Hpend.
  - destruct (recv_header_gathers fuel s [] Hne) as [[_ ?]|Hdone];
      [rewrite Hpend; simpl; lia | rewrite Hpend in *; lia |].
    destruct Hdone as (data1 & s1 & -> & Hl1 & Hcat1 & Hd1 & He1 & _ & Hp1).
    cbn [mbind outcome_bind]. simpl in Hcat1. rewrite Hpend in Hcat1, Hp1.
    assert (take payload_size data1 = hdr) as Htake.
    { rewrite <- (take_app_le data1 (pending s1)) by done. rewrite Hcat1.
      rewrite <- (take_app_le sent missing) by lia.
      rewrite <- Hsplit. by apply take_app_length'. }
    assert (length sent < payload_size + length payload) as Hsh.
    { apply (f_equal length) in Hsplit. rewrite !length_app in Hsplit.
      destruct missing; [done|]. simpl in Hsplit. lia. }
    assert (drop payload_size data1 ++ pending s1 = drop payload_size sent)
      as Hdrop.
    { rewrite <- (drop_app_le data1 (pending s1)) by done.
      by rewrite Hcat1. }
    rewrite (proj2 (Nat.ltb_ge _ _) Hl1), Htake, (unpack_pack_Q _ _ _ Hpack).
    cbn [mbind outcome_bind].
    rewrite recv_body_reset; [done|done|done| |lia].
    rewrite Hdrop, length_drop. lia.
Qed.

(** X7. When the connection is reset anywhere before the end of a
    framed message, both receive blocks raise the connection error,
    given fuel for one loop iteration per byte sent. *)
Theorem reset_raises (order : byte_order)
    (payload framed sent missing : bytes) (chunks : list bytes)
    (n fuel : nat) :
  frame_message order payload = Done framed →
  framed = sent ++ missing →
  missing ≠ [] →
  concat chunks = sent →
  Forall (λ c, c ≠ []) chunks →
  length sent < fuel →
  client_receive order fuel (Socket chunks Reset n) = Raised ConnectionError ∧
  server_receive order fuel (Socket chunks Reset n) [] =
    Raised ConnectionError.
Proof. apply receive_reset. Qed.

Lemma reset_raises_witness :
  client_receive LittleEndian 11 (Socket prefix_and_two Reset 0) =
    Raised ConnectionError ∧
  server_receive LittleEndian 11 (Socket prefix_and_two Reset 0) [] =
    Raised ConnectionError.
Proof.
  apply (reset_raises LittleEndian five_bytes five_bytes_framed
           (take 10 five_bytes_framed) (drop 10 five_bytes_framed)).
  - reflexivity.
  - reflexivity.
  - discriminate.
  - reflexivity.
  - repeat constructor; discriminate.
  - simpl. lia.
Defined.

(** X8. When a whole framed message and more bytes arrive in one
    [recv], the client returns the payload and throws the surplus away
    (its buffer starts empty at every receive), whereas the server keeps
    the surplus for its next message. *)
Theorem client_discards_surplus (order : byte_order)
    (payload framed extra : bytes) (e : ending) (n fuel : nat) :
  frame_message order payload = Done framed →
  length (framed ++ extra) ≤ 4096 →
  1 < fuel →
  client_receive order fuel (Socket [framed ++ extra] e n) =
    Done (payload, Socket [] e n) ∧
  server_receive order fuel (Socket [framed ++ extra] e n) [] =
    Done (Some (payload, extra, Socket [] e n)).
Proof.
  intros Hframe Hlen Hfuel. unfold frame_message in Hframe.
  destruct (pack_Q order (N.of_nat (length payload))) as [hdr| |] eqn:Hpack;
    try done.
  assert (framed = hdr ++ payload) as -> by (simpl in Hframe; congruence).
  pose proof (pack_Q_length _ _ _ Hpack) as Hhdr.
  destruct fuel as [|[|fuel]]; [lia|lia|].
  assert (recv_header (S (S fuel)) (Socket [(hdr ++ payload) ++ extra] e n) []
          = Done ((hdr ++ payload) ++ extra, Socket [] e n)) as Hh.
  { cbn [recv_header length]. unfold recv. cbn [incoming at_end sendable].
    rewrite (proj2 (Nat.leb_le _ _) Hlen). cbn [mbind outcome_bind app].
    destruct ((hdr ++ payload) ++ extra) as [|b rest] eqn:E.
    { apply (f_equal length) in E. rewrite !length_app in E.
      unfold payload_size in Hhdr. simpl in E. lia. }
    rewrite <- E.
    assert (Nat.ltb (length ((hdr ++ payload) ++ extra)) payload_size = false)
      as ->; [|done].
    apply Nat.ltb_ge. rewrite !length_app. lia. }
  assert (take payload_size ((hdr ++ payload) ++ extra) = hdr) as Htake.
  { rewrite <- app_assoc. by apply take_app_length'. }
  assert (drop payload_size ((hdr ++ payload) ++ extra) = payload ++ extra)
    as Hdrop.
  { rewrite <- app_assoc. by apply drop_app_length'. }
  assert (recv_body (S (S fuel)) (Socket [] e n) (payload ++ extra)
            (N.of_nat (length payload)) =
          Done (payload ++ extra, Socket [] e n)) as Hb.
  { cbn [recv_body].
    assert ((N.of_nat (length (payload ++ extra)) <?
             N.of_nat (length payload))%N = false) as ->; [|done].
    apply N.ltb_ge. rewrite length_app. lia. }
  unfold client_receive, server_receive. rewrite Hh.
  cbn [mbind outcome_bind]. rewrite Htake, Hdrop, (unpack_pack_Q _ _ _ Hpack).
  assert (Nat.ltb (length ((hdr ++ payload) ++ extra)) payload_size = false)
    as -> by (apply Nat.ltb_ge; rewrite !length_app; lia).
  cbn [mbind outcome_bind]. rewrite Hb. cbn [mbind outcome_bind].
  rewrite Nat2N.id, take_app_length, drop_app_length. done.
Qed.

Lemma client_discards_surplus_witness :
  client_receive LittleEndian 2
    (Socket [five_bytes_framed ++ five_bytes_framed] OrderlyClose 0) =
    Done (five_bytes, Socket [] OrderlyClose 0) ∧
  server_receive LittleEndian 2
    (Socket [five_bytes_framed ++ five_bytes_framed] OrderlyClose 0) [] =
    Done (Some (five_bytes, five_bytes_framed, Socket [] OrderlyClose 0)).
Proof.
  apply (client_discards_surplus LittleEndian five_bytes five_bytes_framed
           five_bytes_framed).
  - reflexivity.
  - apply Nat.leb_le. vm_compute. reflexivity.
  - lia.
Defined.

(** ** Sessions that carry several frames *)

Section SessionFacts.

Variable order : byte_order.
Variables frame results : Type.
Variable pickle_loads : bytes → outcome frame.
Variable process_frame : frame → outcome results.
Variable pickle_dumps : results → bytes.

Local Abbreviation respond :=
  (respond order pickle_loads process_frame pickle_dumps).
Local Abbreviation session :=
  (session order pickle_loads process_frame pickle_dumps).
Local Abbreviation serve :=
  (serve order pickle_loads process_frame pickle_dumps).
Local Abbreviation reply_to :=
  (reply_to order pickle_loads process_frame pickle_dumps).

Lemma respond_reply s p :
  respond s p = msg ← reply_to p; s' ← sendall s msg; Done (msg, s').
Proof.
  unfold Server.respond, Server.reply_to.
  destruct (pickle_loads p) as [fr| |]; [|done|done]. simpl.
  destruct (process_frame fr) as [r| |]; [|done|done]. simpl.
  by destruct (frame_message order (pickle_dumps r)).
Qed.

(** The server's receive block on a buffer and a stream that start with
    a whole framed message. *)
Lemma server_receive_message fuel s data payload framed tail :
  frame_message order payload = Done framed →
  delivers s →
  data ++ pending s = framed ++ tail →
  length (pending s) < fuel →
  ∃ data' s',
    server_receive order fuel s data = Done (Some (payload, data', s')) ∧
    data' ++ pending s' = tail ∧ delivers s' ∧
    at_end s' = at_end s ∧ sendable s' = sendable s ∧
    length (pending s') ≤ length (pending s).
Proof.
  intros Hframe Hd Hstream Hfuel. unfold frame_message in Hframe.
  destruct (pack_Q order (N.of_nat (length payload))) as [hdr| |] eqn:Hpack;
    try done.
  assert (framed = hdr ++ payload) as -> by (simpl in Hframe; congruence).
  rewrite <- app_assoc in Hstream.
  destruct (gather_message order fuel s data payload hdr tail
              Hpack Hd Hstream Hfuel)
    as (d1 & s1 & d2 & s2 & H1 & Hlt & Hun & H2 & Htake & Hdrop & Hd2
        & He2 & Hs2).
  exists (drop (length payload) d2), s2.
  split.
  { unfold server_receive. rewrite H1. cbn [mbind outcome_bind].
    rewrite Hlt, Hun. cbn [mbind outcome_bind]. rewrite H2.
    cbn [mbind outcome_bind]. by rewrite Nat2N.id, Htake. }
  do 4 (split; [done|]).
  apply recv_header_consumes in H1 as (g1 & _ & Hc1 & _).
  apply recv_body_consumes in H2 as (_ & g2 & _ & Hc2 & _).
  rewrite <- Hc1, <- Hc2, !length_app. lia.
Qed.

(** A session whose stream starts with the frames [payloads], all of
    which can be answered, answers them in order and then goes on with
    the rest of the stream. *)
Lemma session_serves conn payloads : ∀ frames replies fuel s data tail,
  Forall2 (λ p f, frame_message order p = Done f) payloads frames →
  Forall2 (λ p m, reply_to p = Done m) payloads replies →
  delivers s →
  data ++ pending s = concat frames ++ tail →
  length payloads ≤ sendable s →
  length (pending s) + length payloads < fuel →
  ∃ s' data',
    data' ++ pending s' = tail ∧ delivers s' ∧ at_end s' = at_end s ∧
    length (pending s') ≤ length (pending s) ∧
    session fuel conn s data =
      (exchanges conn payloads replies ++
         (session (fuel - length payloads) conn s' data').1,
       (session (fuel - length payloads) conn s' data').2).
Proof.
  induction payloads as [|p ps IH];
    intros frames replies fuel s data tail Hf Hr Hd Hstream Hsend Hfuel.
  - inversion Hf; subst. exists s, data. simpl in Hstream.
    rewrite Nat.sub_0_r. repeat split; try done.
    by destruct (session fuel conn s data).
  - inversion Hf as [|? f ? fs Hpf Hfs]; subst.
    inversion Hr as [|? m ? ms Hpm Hms]; subst.
    simpl in Hstream, Hsend, Hfuel. rewrite <- app_assoc in Hstream.
    destruct fuel as [|fuel]; [lia|].
    destruct (server_receive_message fuel s data p f (concat fs ++ tail)
                Hpf Hd Hstream)
      as (d2 & s2 & Hrecv & Hcat2 & Hd2 & He2 & Hs2 & Hp2); [lia|].
    destruct (sendable s2) as [|n2] eqn:En2; [lia|].
    set (s3 := Socket (incoming s2) (at_end s2) n2).
    destruct (IH fs ms fuel s3 d2 tail Hfs Hms) as
      (s' & data' & Ht & Hd' & He' & Hp' & Hsess); [done|done| | |].
    { simpl. lia. }
    { unfold pending in *. simpl. lia. }
    exists s', data'. split; [done|]. split; [done|].
    split; [by rewrite He'|]. split; [unfold pending in *; simpl in *; lia|].
    cbn [Server.session]. rewrite Hrecv, respond_reply, Hpm.
    cbn [mbind outcome_bind]. unfold sendall. rewrite En2.
    cbn [mbind outcome_bind]. fold s3. rewrite Hsess.
    replace (S fuel - length (p :: ps)) with (fuel - length ps)
      by (simpl; lia).
    done.
Qed.

(** The session of a connection with nothing buffered and nothing to
    come, closed in an orderly way. *)
Lemma session_at_close fuel conn s data :
  delivers s → at_end s = OrderlyClose →
  data ++ pending s = [] → 1 < fuel →
  session fuel conn s data = ([], Done ()).
Proof.
  intros Hd He Hnil Hfuel. apply app_eq_nil in Hnil as [-> Hp].
  pose proof (delivers_pending_nil s Hd Hp) as Hi.
  destruct s as [inc e n]. simpl in Hi, He. subst.
  destruct fuel as [|fuel]; [lia|]. cbn [Server.session].
  destruct (short_prefix_receive order [] [] n fuel) as [_ ->];
    [done|constructor|simpl; lia|simpl; lia|done].
Qed.

(** X9. A client that sends any number of framed frames, cut into
    chunks in any way and possibly back to back, and then closes: if
    every frame can be answered and sent, the server answers each one,
    in order, closes the socket without printing an error and goes on
    to the next [accept]. *)
Theorem serve_answers_every_frame (conn fuel n : nat)
    (payloads frames replies : list bytes) (chunks : list bytes)
    (rest : list socket) :
  Forall2 (λ p f, frame_message order p = Done f) payloads frames →
  Forall2 (λ p m, reply_to p = Done m) payloads replies →
  concat chunks = concat frames →
  Forall (λ c, c ≠ []) chunks →
  length payloads ≤ n →
  length (concat chunks) + length payloads + 1 < fuel →
  serve fuel conn (Socket chunks OrderlyClose n :: rest) =
    (Accepted conn :: exchanges conn payloads replies ++
       Closed conn :: (serve fuel (S conn) rest).1,
     (serve fuel (S conn) rest).2).
Proof.
  intros Hf Hr Hcat Hne Hn Hfuel.
  destruct (session_serves conn payloads frames replies fuel
              (Socket chunks OrderlyClose n) [] [] Hf Hr Hne)
    as (s' & data' & Ht & Hd' & He' & Hp' & Hsess).
  { unfold pending. simpl. by rewrite Hcat, app_nil_r. }
  { done. }
  { unfold pending. simpl. lia. }
  assert (session (fuel - length payloads) conn s' data' = ([], Done ()))
    as Hend by (apply session_at_close; [done | exact He' | done | lia]).
  rewrite Hend in Hsess.
  cbn [Server.serve]. rewrite Hsess, app_nil_r. simpl.
  by destruct (Server.serve _ _ _ _ fuel (S conn) rest).
Qed.

(** X10. If the frames [payloads] can be answered and the next frame
    [bad] makes [pickle.loads], [process_frame] or [struct.pack] raise,
    the session answers exactly [payloads], receives [bad] and raises
    without answering it or reading further. *)
Theorem failure_stops_service (conn fuel : nat)
    (payloads frames replies : list bytes) (bad bad_frame tail : bytes)
    (e : exn) (s : socket) :
  Forall2 (λ p f, frame_message order p = Done f) payloads frames →
  Forall2 (λ p m, reply_to p = Done m) payloads replies →
  frame_message order bad = Done bad_frame →
  reply_to bad = Raised e →
  delivers s →
  pending s = concat frames ++ bad_frame ++ tail →
  length payloads ≤ sendable s →
  length (pending s) + length payloads + 1 < fuel →
  session fuel conn s [] =
    (exchanges conn payloads replies ++ [Received conn bad], Raised e).
Proof.
  intros Hf Hr Hbad He Hd Hstream Hsend Hfuel.
  destruct (session_serves conn payloads frames replies fuel s []
              (bad_frame ++ tail) Hf Hr Hd)
    as (s' & data' & Ht & Hd' & He' & Hp' & Hsess); [done|done|lia|].
  rewrite Hsess.
  destruct (fuel - length payloads) as [|fuel'] eqn:Efuel; [lia|].
  destruct (server_receive_message fuel' s' data' bad bad_frame tail
              Hbad Hd' Ht) as (d2 & s2 & Hrecv & _); [lia|].
  cbn [Server.session]. rewrite Hrecv, respond_reply, He. done.
Qed.

End SessionFacts.

Lemma serve_answers_every_frame_witness :
  serve LittleEndian Done echo_detector id 30 0
    [Socket [five_bytes_framed ++ take 3 five_bytes_framed;
             drop 3 five_bytes_framed] OrderlyClose 2; idle_client] =
    (Accepted 0 ::
       exchanges 0 [five_bytes; five_bytes]
                 [five_bytes_framed; five_bytes_framed] ++
       Closed 0 ::
       (serve LittleEndian Done echo_detector id 30 1 [idle_client]).1,
     (serve LittleEndian Done echo_detector id 30 1 [idle_client]).2).
Proof.
  apply (serve_answers_every_frame LittleEndian bytes bytes Done echo_detector
           id 0 30 2 [five_bytes; five_bytes]
           [five_bytes_framed; five_bytes_framed]
           [five_bytes_framed; five_bytes_framed]).
  - repeat constructor.
  - repeat constructor.
  - reflexivity.
  - repeat constructor; discriminate.
  - simpl. lia.
  - simpl. lia.
Defined.

Lemma failure_stops_service_witness :
  session LittleEndian loads_nonempty echo_detector id 30 0
    (Socket [five_bytes_framed; [Byte.x00; Byte.x00; Byte.x00; Byte.x00];
             [Byte.x00; Byte.x00; Byte.x00; Byte.x00; Byte.x09]]
            OrderlyClose 5) [] =
    (exchanges 0 [five_bytes] [five_bytes_framed] ++ [Received 0 []],
     Raised PickleError).
Proof.
  apply (failure_stops_service LittleEndian bytes bytes loads_nonempty
           echo_detector id 0 30 [five_bytes] [five_bytes_framed]
           [five_bytes_framed] []
           [Byte.x00; Byte.x00; Byte.x00; Byte.x00;
            Byte.x00; Byte.x00; Byte.x00; Byte.x00] [Byte.x09]).
  - repeat constructor.
  - repeat constructor.
  - reflexivity.
  - reflexivity.
  - repeat constructor; discriminate.
  - reflexivity.
  - simpl. lia.
  - simpl. lia.
Defined.

(** ** More about the tracker *)

Section TrackerMore.

Lemma dict_get_count_up d k' k :
  dict_get (count_up d k') k =
    dict_get d k + (if decide (k' = k) then 1 else 0).
Proof.
  induction d as [|[k0 n] d IH]; cbn [count_up dict_get].
  - destruct (decide (k' = k)); lia.
  - destruct (decide (k0 = k')) as [->|Hne]; cbn [dict_get].
    + destruct (decide (k' = k)); lia.
    + destruct (decide (k0 = k)) as [->|Hne'].
      * rewrite decide_False by congruence. lia.
      * exact IH.
Qed.

Lemma dict_get_fold l : ∀ d k,
  dict_get (fold_left count_up l d) k =
    dict_get d k + length (filter (λ c, c = k) l).
Proof.
  induction l as [|c l IH]; intros d k; cbn [fold_left].
  - simpl. lia.
  - rewrite IH, dict_get_count_up, filter_cons.
    destruct (decide (c = k)); simpl; lia.
Qed.

Lemma label_unattended rs :
  label rs = UNATTENDED ↔ utensils rs ≠ [] ∧ hands rs = [].
Proof.
  unfold label, classify. pose proof (has_utensils_true rs) as Hu.
  assert (has_hands rs = true ↔ hands rs ≠ []) as Hh.
  { unfold has_hands, hand_count. destruct (hands rs); simpl; [|done].
    split; [discriminate | done]. }
  destruct (has_utensils rs), (has_hands rs); simpl; split;
    try discriminate; try done.
  - intros [_ H]. by destruct (proj1 Hh eq_refl).
  - intros _. split; [by apply Hu|].
    destruct (hands rs) as [|h hs]; [done|].
    assert (false = true) as Hf by (by apply Hh). discriminate Hf.
  - intros [H _]. apply Hu in H. discriminate H.
  - intros [H _]. apply Hu in H. discriminate H.
Qed.

Lemma label_by_emptiness rs :
  label rs = classify (bool_decide (utensils rs ≠ []))
                      (bool_decide (hands rs ≠ [])).
Proof.
  unfold label. f_equal.
  - pose proof (has_utensils_true rs) as Hu.
    destruct (has_utensils rs).
    + by rewrite bool_decide_eq_true_2 by (by apply Hu).
    + rewrite bool_decide_eq_false_2; [done|].
      intros H. apply Hu in H. discriminate H.
  - unfold has_hands, hand_count. by destruct (hands rs).
Qed.

(** What the loop appends to the alerts is a sublist of the keys it
    walks over. *)
Lemma track_loop_sublist st now l : ∀ tr alerts,
  ∃ new, (fold_left (track_utensil st now) l (tr, alerts)).2 = alerts ++ new ∧
         sublist new l.
Proof.
  induction l as [|a l IH]; intros tr alerts; cbn [fold_left].
  - exists []. by rewrite app_nil_r.
  - pose proof (track_utensil_alerts st now tr alerts a) as Ha.
    destruct (track_utensil st now (tr, alerts) a) as [tr1 al1].
    simpl in Ha. destruct (IH tr1 al1) as (new & -> & Hsub). rewrite Ha.
    destruct (alert_due _ _ _ _).
    + exists (a :: new). rewrite <- app_assoc. split; [done|].
      by constructor.
    + exists new. rewrite app_nil_r. split; [done|]. by constructor.
Qed.

Lemma tracker_eq (t1 t2 : tracker) :
  (∀ k, utensil_first_seen t1 !! k = utensil_first_seen t2 !! k) →
  (∀ k, last_alert_time t1 !! k = last_alert_time t2 !! k) →
  t1 = t2.
Proof.
  destruct t1, t2. simpl. intros H1 H2.
  f_equal; by apply map_eq.
Qed.

End TrackerMore.

(** X11. The count kept for a class is the number of detections of
    that class in the frame (zero for a class that is not a key), and
    the keys are the classes detected, each once. *)
Theorem utensil_count_counts (rs : results) (k : string) :
  dict_get (utensil_count rs) k =
    length (filter (λ d, class_name d = k) (utensils rs)) ∧
  (k ∈ keys (utensil_count rs) ↔ 0 < dict_get (utensil_count rs) k) ∧
  NoDup (keys (utensil_count rs)).
Proof.
  assert (dict_get (utensil_count rs) k =
          length (filter (λ d, class_name d = k) (utensils rs))) as Hc.
  { unfold utensil_count. rewrite dict_get_fold. simpl.
    induction (utensils rs) as [|d ds IH]; [done|].
    simpl. rewrite !filter_cons.
    destruct (decide (class_name d = k)); simpl; by rewrite IH. }
  split; [done|]. split; [|apply keys_utensil_count_NoDup].
  rewrite Hc, elem_of_keys_utensil_count, list_elem_of_fmap.
  split.
  - intros (d & -> & Hd).
    assert (d ∈ filter (λ d', class_name d' = class_name d) (utensils rs))
      as Hin by (by apply list_elem_of_filter).
    destruct (filter _ (utensils rs)); [inversion Hin | simpl; lia].
  - intros Hpos.
    destruct (filter (λ d, class_name d = k) (utensils rs)) as [|d ds] eqn:E;
      [simpl in Hpos; lia|].
    assert (d ∈ filter (λ d, class_name d = k) (utensils rs)) as Hin
      by (rewrite E; left).
    apply list_elem_of_filter in Hin as [Hk Hin]. by exists d.
Qed.

Section AlertsOnFloats.

Import Binary64 Tracker64.

(** X12. A frame alerts for a class exactly when nobody is detected, the
    class is detected, it already had a first-seen entry for which the
    code's test [current_time - first >= UNATTENDED_THRESHOLD] on floats
    holds, and any earlier alert for it passes
    [current_time - last >= ALERT_COOLDOWN]; in particular never on
    first sight. *)
Theorem alert_exactly_when (tr : tracker) (rs : results) (now : float64)
    (k : string) :
  k ∈ tick_alerts tr rs now ↔
    hands rs = [] ∧
    k ∈ map class_name (utensils rs) ∧
    ∃ first,
      utensil_first_seen tr !! k = Some first ∧
      fge (fsub now first) UNATTENDED_THRESHOLD = true ∧
      ∀ last, last_alert_time tr !! k = Some last →
              fge (fsub now last) ALERT_COOLDOWN = true.
Proof.
  rewrite tick_alerts_elem_of_64. unfold alerts_for.
  rewrite andb_true_iff, bool_decide_eq_true.
  unfold detected. rewrite elem_of_keys_utensil_count.
  split.
  - intros [Hk Hdue]. unfold alert_due, elapsed in Hdue.
    destruct (label rs) eqn:El; try done. simpl in Hdue.
    apply label_unattended in El as [_ Hh].
    destruct (utensil_first_seen tr !! k) as [first|]; [|done].
    apply andb_true_iff in Hdue as [H1 H2].
    split; [done|]. split; [done|]. exists first. split; [done|].
    split; [done|]. intros last Hl. by rewrite Hl in H2.
  - intros (Hh & Hk & first & Hf & H1 & H2). split; [done|].
    assert (label rs = UNATTENDED) as ->.
    { apply label_unattended. split; [|done].
      intros Hnil. rewrite Hnil in Hk. inversion Hk. }
    rewrite Hf. unfold alert_due, elapsed. simpl.
    rewrite H1. simpl.
    destruct (last_alert_time tr !! k) as [last|]; [|done].
    by apply H2.
Qed.

End AlertsOnFloats.

(** X13. The alerts of a frame come in the order in which their
    classes were first detected in it, each class at most once. *)
Theorem alerts_in_detection_order (tr : tracker) (rs : results) (now : Q) :
  sublist (tick_alerts tr rs now) (keys (utensil_count rs)) ∧
  NoDup (tick_alerts tr rs now).
Proof.
  split; [|apply tick_alerts_NoDup].
  unfold tick_alerts, tick.
  destruct (track_loop_sublist (label rs) now (keys (utensil_count rs)) tr [])
    as (new & Hnew & Hsub).
  destruct (fold_left _ _ _) as [tr1 alerts]. simpl in *. by subst.
Qed.

(** X14. The tracker is keyed by class, not by instance: two frames
    that show the same classes, and people in both or in neither, leave
    the same dictionaries and emit the same alerts, however many
    instances each shows and in whatever order. *)
Theorem same_classes_same_state (tr : tracker) (rs1 rs2 : results) (now : Q) :
  (∀ k, k ∈ map class_name (utensils rs1) ↔
        k ∈ map class_name (utensils rs2)) →
  (hands rs1 = [] ↔ hands rs2 = []) →
  tick_state tr rs1 now = tick_state tr rs2 now ∧
  tick_alerts tr rs1 now ≡ₚ tick_alerts tr rs2 now.
Proof.
  intros Hk Hh.
  assert (∀ k, detected rs1 k ↔ detected rs2 k) as Hd.
  { intros k. unfold detected. by rewrite !elem_of_keys_utensil_count. }
  assert (label rs1 = label rs2) as Hl.
  { rewrite !label_by_emptiness. f_equal; apply bool_decide_ext.
    - split; intros Hne Hnil.
      + destruct (utensils rs1) as [|d ds] eqn:E; [done|].
        assert (class_name d ∈ map class_name (utensils rs2)) as Hin
          by (apply Hk; left).
        rewrite Hnil in Hin. inversion Hin.
      + destruct (utensils rs2) as [|d ds] eqn:E; [done|].
        assert (class_name d ∈ map class_name (utensils rs1)) as Hin
          by (apply Hk; left).
        rewrite Hnil in Hin. inversion Hin.
    - split; intros Hne Hnil; apply Hne; by apply Hh. }
  assert (∀ k, alerts_for tr rs1 now k = alerts_for tr rs2 now k) as Ha.
  { intros k. unfold alerts_for. rewrite Hl. f_equal.
    apply bool_decide_ext, Hd. }
  split.
  - apply tracker_eq; intros k.
    + rewrite !tick_first_seen, Hl.
      destruct (decide (detected rs1 k)) as [H1|H1],
               (decide (detected rs2 k)) as [H2|H2]; try done.
      * by destruct H2; apply Hd.
      * by destruct H1; apply Hd.
    + by rewrite !tick_last_alert, Ha.
  - apply NoDup_Permutation; try apply tick_alerts_NoDup.
    intros k. by rewrite !tick_alerts_elem_of, Ha.
Qed.

Lemma same_classes_same_state_witness :
  tick_state initial two_forks_and_cup 3 = tick_state initial cup_and_fork 3 ∧
  tick_alerts initial two_forks_and_cup 3 ≡ₚ
    tick_alerts initial cup_and_fork 3.
Proof.
  apply (same_classes_same_state initial two_forks_and_cup cup_and_fork 3).
  - intros k. simpl. rewrite !elem_of_cons. tauto.
  - done.
Defined.

Section RealertOnFloats.

Import Binary64 Tracker64.



End RealertOnFloats.

(** X16. After an unattended frame the first-seen dictionary has an
    entry for exactly the classes the frame shows: a class that already
    had one keeps its time, the others get the time of the frame. *)
Theorem unattended_frame_tracks (tr : tracker) (rs : results) (now : Q) :
  label rs = UNATTENDED →
  ∀ k,
    utensil_first_seen (tick_state tr rs now) !! k =
      if decide (k ∈ map class_name (utensils rs))
      then Some (default now (utensil_first_seen tr !! k))
      else None.
Proof.
  intros Hl k. rewrite tick_first_seen, Hl. unfold first_seen_after. simpl.
  destruct (decide (detected rs k)) as [H|H],
           (decide (k ∈ map class_name (utensils rs))) as [H'|H']; try done.
  - destruct H'. by apply elem_of_keys_utensil_count.
  - destruct H. by apply elem_of_keys_utensil_count.
Qed.

Lemma unattended_frame_tracks_witness :
  utensil_first_seen
    (tick_state (run initial scenario_1).2 two_forks_and_cup 3)
    !! "cup"%string = Some 3%Q ∧
  utensil_first_seen
    (tick_state (run initial scenario_1).2 two_forks_and_cup 3)
    !! "fork"%string = Some 0%Q.
Proof.
  split.
  - rewrite (unattended_frame_tracks (run initial scenario_1).2
               two_forks_and_cup 3 eq_refl "cup"%string).
    vm_compute. reflexivity.
  - rewrite (unattended_frame_tracks (run initial scenario_1).2
               two_forks_and_cup 3 eq_refl "fork"%string).
    vm_compute. reflexivity.
Defined.

(** ** [process_frame] and the counting loops *)

Section DetectionFacts.

Lemma class_name_to_detection cn b : class_name (to_detection cn b) = cn.
Proof. unfold to_detection. by destruct (xyxy b) as [[[x1 y1] x2] y2]. Qed.

(** Both extraction loops are one recursion, differing in the test and
    in the class name they store. *)
Lemma extraction_spec (keep : string → bool) (store : string → string)
    (loop : gmap nat string → list box → outcome (list detection)) :
  (∀ nm, loop nm [] = Done []) →
  (∀ nm b rest,
     loop nm (b :: rest) =
       match nm !! cls b with
       | None => Raised DetectorError
       | Some cn =>
           ds ← loop nm rest;
           Done (if keep cn then to_detection (store cn) b :: ds else ds)
       end) →
  ∀ nm bs,
    (Forall (λ b, is_Some (nm !! cls b)) bs →
       ∃ ds, loop nm bs = Done ds ∧ length ds ≤ length bs ∧
         ∀ d, d ∈ ds ↔
              ∃ b cn, b ∈ bs ∧ nm !! cls b = Some cn ∧ keep cn = true ∧
                      d = to_detection (store cn) b) ∧
    (¬ Forall (λ b, is_Some (nm !! cls b)) bs →
       loop nm bs = Raised DetectorError).
Proof.
  intros Hnil Hcons nm bs. induction bs as [|b bs [IH1 IH2]].
  - split; [|intros H; by destruct H].
    intros _. exists []. rewrite Hnil. split; [done|]. split; [done|].
    intros d. split; [intros H; inversion H|].
    intros (b & cn & H & _). inversion H.
  - rewrite Hcons. split.
    + intros Hall. inversion Hall as [|? ? [cn Hcn] Hall']; subst.
      destruct (IH1 Hall') as (ds & -> & Hlen & Hds). rewrite Hcn.
      cbn [mbind outcome_bind].
      exists (if keep cn then to_detection (store cn) b :: ds else ds).
      split; [done|]. split; [destruct (keep cn); simpl; lia|].
      intros d. destruct (keep cn) eqn:Ek.
      * rewrite elem_of_cons, Hds. split.
        -- intros [->|(b' & cn' & Hb' & H1 & H2 & H3)].
           ++ exists b, cn. by repeat split; [left|..].
           ++ exists b', cn'. by repeat split; [right|..].
        -- intros (b' & cn' & Hb' & H1 & H2 & H3).
           apply elem_of_cons in Hb' as [->|Hb'].
           ++ left. congruence.
           ++ right. by exists b', cn'.
      * rewrite Hds. split.
        -- intros (b' & cn' & Hb' & H1 & H2 & H3).
           exists b', cn'. by repeat split; [right|..].
        -- intros (b' & cn' & Hb' & H1 & H2 & H3).
           apply elem_of_cons in Hb' as [->|Hb'].
           ++ congruence.
           ++ by exists b', cn'.
    + intros Hnot. destruct (nm !! cls b) as [cn|] eqn:Hcn; [|done].
      rewrite IH2; [done|]. intros Hall. apply Hnot.
      constructor; [by exists cn | done].
Qed.

Lemma utensil_detections_spec nm bs :
  (Forall (λ b, is_Some (nm !! cls b)) bs →
     ∃ ds, utensil_detections nm bs = Done ds ∧ length ds ≤ length bs ∧
       ∀ d, d ∈ ds ↔
            ∃ b cn, b ∈ bs ∧ nm !! cls b = Some cn ∧ is_utensil cn = true ∧
                    d = to_detection cn b) ∧
  (¬ Forall (λ b, is_Some (nm !! cls b)) bs →
     utensil_detections nm bs = Raised DetectorError).
Proof. by apply (extraction_spec is_utensil id utensil_detections). Qed.

Lemma hand_detections_spec nm bs :
  (Forall (λ b, is_Some (nm !! cls b)) bs →
     ∃ ds, hand_detections nm bs = Done ds ∧ length ds ≤ length bs ∧
       ∀ d, d ∈ ds ↔
            ∃ b cn, b ∈ bs ∧ nm !! cls b = Some cn ∧ is_person cn = true ∧
                    d = to_detection "person" b) ∧
  (¬ Forall (λ b, is_Some (nm !! cls b)) bs →
     hand_detections nm bs = Raised DetectorError).
Proof.
  by apply (extraction_spec is_person (λ _, "person"%string) hand_detections).
Qed.

(** The guard [len(kpts) > 10] keeps both indices in range. *)
Lemma wrists_of_done xy : ∃ l, wrists_of xy = Done l.
Proof.
  destruct xy as [kpts|]; [|by exists []]. unfold wrists_of, index.
  destruct (Nat.ltb 10 (length kpts)) eqn:E; [|by exists []].
  apply Nat.ltb_lt in E.
  destruct (lookup_lt_is_Some_2 kpts 9) as [l ->]; [lia|].
  destruct (lookup_lt_is_Some_2 kpts 10) as [r ->]; [lia|].
  by eexists.
Qed.

Lemma keypoints_data_done pose : ∃ l, keypoints_data pose = Done l.
Proof.
  unfold keypoints_data. destruct (pose_keypoints pose) as [kps|];
    [|by exists []].
  induction kps as [|xy kps [l IH]]; [by exists []|].
  cbn [keypoints_loop]. destruct (wrists_of_done xy) as [h ->].
  rewrite IH. by eexists.
Qed.

Lemma process_outputs_inv r p rs :
  process_outputs r p = Done rs →
  utensil_detections (names r) (boxes r) = Done (utensils rs) ∧
  hand_detections (names p) (boxes p) = Done (hands rs).
Proof.
  unfold process_outputs. intros H.
  apply bind_Done in H as (u & Hu & H).
  apply bind_Done in H as (h & Hh & H).
  apply bind_Done in H as (k & Hk & H).
  injection H as <-. by split.
Qed.

Lemma in_utensil_classes_of_detection nm bs ds d :
  utensil_detections nm bs = Done ds → d ∈ ds →
  class_name d ∈ map fst UTENSIL_CLASSES.
Proof.
  intros Hd Hin.
  destruct (decide (Forall (λ b, is_Some (nm !! cls b)) bs)) as [Hall|Hnot].
  - destruct (proj1 (utensil_detections_spec nm bs) Hall)
      as (ds' & Hds & _ & Hmem).
    rewrite Hd in Hds. injection Hds as <-.
    apply Hmem in Hin as (b & cn & _ & _ & Hu & ->).
    rewrite class_name_to_detection.
    by apply bool_decide_eq_true in Hu.
  - rewrite (proj2 (utensil_detections_spec nm bs) Hnot) in Hd. done.
Qed.

Lemma inline_count_agrees nm bs : ∀ ds d,
  utensil_detections nm bs = Done ds →
  inline_count nm bs d = Done (fold_left count_up (map class_name ds) d).
Proof.
  induction bs as [|b bs IH]; intros ds d H.
  - injection H as <-. done.
  - cbn [utensil_detections inline_count] in *.
    destruct (nm !! cls b) as [cn|]; [|done].
    apply bind_Done in H as (ds' & Hds' & H). injection H as <-.
    rewrite (IH ds' _ Hds').
    destruct (is_utensil cn); [|done].
    simpl. by rewrite class_name_to_detection.
Qed.

Lemma inline_hand_count_agrees nm bs : ∀ ds n,
  hand_detections nm bs = Done ds →
  inline_hand_count nm bs n = Done (n + length ds).
Proof.
  induction bs as [|b bs IH]; intros ds n H.
  - injection H as <-. simpl. f_equal. lia.
  - cbn [hand_detections inline_hand_count] in *.
    destruct (nm !! cls b) as [cn|]; [|done].
    apply bind_Done in H as (ds' & Hds' & H). injection H as <-.
    rewrite (IH ds' _ Hds').
    destruct (is_person cn); simpl; f_equal; lia.
Qed.

End DetectionFacts.

(** X17. What [process_frame] reports is exactly what the models saw:
    a detection is among the utensils if and only if it was built from
    an object box whose class is one of the seven [UTENSIL_CLASSES], and
    among the hands if and only if it was built from a pose box of class
    'person'; boxes of other classes are left out. *)
Theorem process_outputs_filters (r p : yolo_result) (rs : results) :
  process_outputs r p = Done rs →
  (∀ d, d ∈ utensils rs ↔
        ∃ b cn, b ∈ boxes r ∧ names r !! cls b = Some cn ∧
                cn ∈ map fst UTENSIL_CLASSES ∧ d = to_detection cn b) ∧
  (∀ d, d ∈ hands rs ↔
        ∃ b, b ∈ boxes p ∧ names p !! cls b = Some "person"%string ∧
             d = to_detection "person" b) ∧
  length (utensils rs) ≤ length (boxes r) ∧
  length (hands rs) ≤ length (boxes p).
Proof.
  intros H. apply process_outputs_inv in H as [Hu Hh].
  destruct (decide (Forall (λ b, is_Some (names r !! cls b)) (boxes r)))
    as [Ar|Nr];
    [|by rewrite (proj2 (utensil_detections_spec _ _) Nr) in Hu].
  destruct (decide (Forall (λ b, is_Some (names p !! cls b)) (boxes p)))
    as [Ap|Np];
    [|by rewrite (proj2 (hand_detections_spec _ _) Np) in Hh].
  destruct (proj1 (utensil_detections_spec _ _) Ar) as (u & Hu' & Lu & Mu).
  destruct (proj1 (hand_detections_spec _ _) Ap) as (h & Hh' & Lh & Mh).
  rewrite Hu in Hu'. rewrite Hh in Hh'.
  injection Hu' as <-. injection Hh' as <-.
  split; [|split; [|by split]].
  - intros d. rewrite Mu. split.
    + intros (b & cn & H1 & H2 & H3 & H4). exists b, cn.
      apply bool_decide_eq_true in H3. by repeat split.
    + intros (b & cn & H1 & H2 & H3 & H4). exists b, cn.
      repeat split; try done. by apply bool_decide_eq_true.
  - intros d. rewrite Mh. split.
    + intros (b & cn & H1 & H2 & H3 & H4). exists b.
      apply bool_decide_eq_true in H3. subst cn. by repeat split.
    + intros (b & H1 & H2 & H3). exists b, "person"%string.
      by repeat split.
Qed.

Lemma process_outputs_filters_witness :
  process_outputs (Yolo [cat_box; fork_box] coco_names None)
                  (Yolo [person_box] coco_names None) =
    Done (Results [Detection "fork" (9 # 10) (10, 20, 30, 41)%Z]
                  [Detection "person" (7 # 10) (0, 0, 99, 99)%Z] []) ∧
  length [Detection "fork" (9 # 10) (10, 20, 30, 41)%Z] ≤
    length [cat_box; fork_box].
Proof.
  split; [vm_compute; reflexivity|].
  apply (process_outputs_filters
           (Yolo [cat_box; fork_box] coco_names None)
           (Yolo [person_box] coco_names None)
           (Results [Detection "fork" (9 # 10) (10, 20, 30, 41)%Z]
                    [Detection "person" (7 # 10) (0, 0, 99, 99)%Z] [])).
  vm_compute. reflexivity.
Defined.

(** X18. [process_frame] returns unless a box carries a class id that
    is missing from the model's [names] (a [KeyError]); the wrist
    indices 9 and 10 are never out of range, because of the guard
    [len(kpts) > 10]. *)
Theorem process_outputs_raises_iff (r p : yolo_result) :
  (Forall (λ b, is_Some (names r !! cls b)) (boxes r) ∧
   Forall (λ b, is_Some (names p !! cls b)) (boxes p) →
   ∃ rs, process_outputs r p = Done rs) ∧
  (¬ (Forall (λ b, is_Some (names r !! cls b)) (boxes r) ∧
      Forall (λ b, is_Some (names p !! cls b)) (boxes p)) →
   process_outputs r p = Raised DetectorError).
Proof.
  unfold process_outputs. split.
  - intros [Ar Ap].
    destruct (proj1 (utensil_detections_spec _ _) Ar) as (u & -> & _).
    destruct (proj1 (hand_detections_spec _ _) Ap) as (h & -> & _).
    destruct (keypoints_data_done p) as [k ->]. by eexists.
  - intros Hnot.
    destruct (decide (Forall (λ b, is_Some (names r !! cls b)) (boxes r)))
      as [Ar|Nr].
    + destruct (proj1 (utensil_detections_spec _ _) Ar) as (u & -> & _).
      cbn [mbind outcome_bind].
      rewrite (proj2 (hand_detections_spec _ _)); [done|]. tauto.
    + by rewrite (proj2 (utensil_detections_spec _ _) Nr).
Qed.

Lemma process_outputs_raises_iff_witness :
  (∃ rs, process_outputs (Yolo [cat_box; fork_box] coco_names None)
                         (Yolo [person_box] coco_names None) = Done rs) ∧
  process_outputs (Yolo [fork_box; unknown_box] coco_names None)
                  (Yolo [person_box] coco_names None) =
    Raised DetectorError.
Proof.
  split.
  - apply (proj1 (process_outputs_raises_iff
                    (Yolo [cat_box; fork_box] coco_names None)
                    (Yolo [person_box] coco_names None))).
    split; repeat constructor; by eexists.
  - apply (proj2 (process_outputs_raises_iff
                    (Yolo [fork_box; unknown_box] coco_names None)
                    (Yolo [person_box] coco_names None))).
    intros [H _]. inversion H as [|? ? _ H']; subst.
    inversion H' as [|? ? [x Hx] _]; subst. vm_compute in Hx. discriminate Hx.
Defined.

(** X19. Fed with what [process_frame] returns, the tracker only ever
    holds first-seen entries for the seven [UTENSIL_CLASSES], hence at
    most seven of them. *)
Theorem tracked_classes_bounded (r p : yolo_result) (rs : results)
    (tr : tracker) (now : Q) :
  process_outputs r p = Done rs →
  (∀ k, is_Some (utensil_first_seen (tick_state tr rs now) !! k) →
        k ∈ map fst UTENSIL_CLASSES) ∧
  size (utensil_first_seen (tick_state tr rs now)) ≤ 7.
Proof.
  intros H. apply process_outputs_inv in H as [Hu _].
  assert (∀ k, is_Some (utensil_first_seen (tick_state tr rs now) !! k) →
               k ∈ map fst UTENSIL_CLASSES) as Hk.
  { intros k. rewrite tick_first_seen.
    destruct (decide (detected rs k)) as [Hd|Hd]; [|by intros [? ?]].
    intros _. apply elem_of_keys_utensil_count in Hd.
    apply list_elem_of_fmap in Hd as (d & -> & Hd).
    by eapply in_utensil_classes_of_detection. }
  split; [done|].
  rewrite <- size_dom.
  transitivity (size (list_to_set (C := gset string)
                        (map fst UTENSIL_CLASSES))).
  - apply subseteq_size. intros k Hin. apply elem_of_dom in Hin.
    apply elem_of_list_to_set. by apply Hk.
  - rewrite size_list_to_set; [done|].
    apply NoDup_ListNoDup. repeat constructor; simpl;
      intuition discriminate.
Qed.

(** A cat, a fork and a cup with nobody around: the tracker, which
    held an entry for "fork" already, now holds one for "fork" and one
    for "cup". *)
Lemma tracked_classes_bounded_witness :
  let r := Yolo [cat_box; fork_box; Box 47 (1 # 2) (0, 0, 1, 1)%Q]
                coco_names None in
  let p := Yolo [] coco_names None in
  let rs := Results [Detection "fork" (9 # 10) (10, 20, 30, 41)%Z;
                     Detection "cup" (1 # 2) (0, 0, 1, 1)%Z] [] [] in
  let tr := tick_state (run initial scenario_1).2 rs 3 in
  process_outputs r p = Done rs ∧
  utensil_first_seen tr !! "fork"%string = Some 0%Q ∧
  utensil_first_seen tr !! "cup"%string = Some 3%Q ∧
  "cup"%string ∈ map fst UTENSIL_CLASSES ∧
  size (utensil_first_seen tr) ≤ 7.
Proof.
  intros r p rs tr.
  assert (process_outputs r p = Done rs) as Hrs by (vm_compute; reflexivity).
  assert (utensil_first_seen tr !! "cup"%string = Some 3%Q) as Hcup
    by (vm_compute; reflexivity).
  destruct (tracked_classes_bounded r p rs (run initial scenario_1).2 3 Hrs)
    as [Hk Hsize].
  split; [exact Hrs|]. split; [vm_compute; reflexivity|].
  split; [exact Hcup|]. split; [|exact Hsize].
  apply Hk. fold tr. rewrite Hcup. by eexists.
Defined.

(** X20. On the same model outputs the counting loops of the
    standalone detectors end with the very [utensil_count] and
    [hand_count] that the client computes from what [process_frame]
    sends, so both label and track the frame alike. *)
Theorem standalone_counts_agree (r p : yolo_result) (rs : results) :
  process_outputs r p = Done rs →
  inline_count (names r) (boxes r) [] = Done (utensil_count rs) ∧
  inline_hand_count (names p) (boxes p) 0 = Done (hand_count rs).
Proof.
  intros H. apply process_outputs_inv in H as [Hu Hh]. split.
  - by rewrite (inline_count_agrees _ _ _ [] Hu).
  - by rewrite (inline_hand_count_agrees _ _ _ 0 Hh).
Qed.

Lemma standalone_counts_agree_witness :
  inline_count coco_names [cat_box; fork_box] [] =
    Done (utensil_count
            (Results [Detection "fork" (9 # 10) (10, 20, 30, 41)%Z]
                     [Detection "person" (7 # 10) (0, 0, 99, 99)%Z] [])) ∧
  inline_hand_count coco_names [person_box] 0 =
    Done (hand_count
            (Results [Detection "fork" (9 # 10) (10, 20, 30, 41)%Z]
                     [Detection "person" (7 # 10) (0, 0, 99, 99)%Z] [])).
Proof.
  apply (standalone_counts_agree
           (Yolo [cat_box; fork_box] coco_names None)
           (Yolo [person_box] coco_names None)).
  vm_compute. reflexivity.
Defined.

(** ** The capture loops *)

Section CaptureFacts.

Context {F : Type}.

Lemma detector_loop_failures n : ∀ (rest : list (read F)) fc c,
  c + n ≤ 30 →
  detector_loop (replicate n NoFrame ++ rest) fc c =
    detector_loop rest fc (c + n).
Proof.
  induction n as [|n IH]; intros rest fc c Hle.
  - simpl. by rewrite Nat.add_0_r.
  - cbn [replicate app detector_loop].
    rewrite (proj2 (Nat.ltb_ge 30 (S c))) by lia.
    rewrite IH by lia. f_equal. lia.
Qed.

Lemma detector_loop_gives_up n : ∀ (post : list (read F)) fc c,
  c ≤ 30 → 31 ≤ c + n →
  detector_loop (replicate n NoFrame ++ post) fc c =
    ([], fc, TooManyFailures).
Proof.
  induction n as [|n IH]; intros post fc c Hc Hn; [lia|].
  cbn [replicate app detector_loop].
  destruct (Nat.ltb 30 (S c)) eqn:E; [done|].
  apply Nat.ltb_ge in E. apply IH; lia.
Qed.

Lemma cv_loop_good (fs : list F) (rest : list (read F)) :
  cv_loop (map (λ f, Frame f false) fs ++ rest) =
    (fs ++ (cv_loop rest).1, (cv_loop rest).2).
Proof.
  induction fs as [|f fs IH]; [simpl; by destruct (cv_loop rest)|].
  simpl. by rewrite IH.
Qed.

Lemma detector_loop_good (fs : list F) : ∀ (rest : list (read F)) fc c,
  let r := detector_loop rest (fc + length fs)
             (match fs with [] => c | _ => 0 end) in
  detector_loop (map (λ f, Frame f false) fs ++ rest) fc c =
    (fs ++ r.1.1, r.1.2, r.2).
Proof.
  induction fs as [|f fs IH]; intros rest fc c.
  - simpl. rewrite Nat.add_0_r.
    by destruct (detector_loop rest fc c) as [[? ?] ?].
  - cbn [map app detector_loop]. rewrite (IH rest (S fc) 0). simpl.
    replace (fc + S (length fs)) with (S (fc + length fs)) by lia.
    by destruct fs.
Qed.

(** Frames that each come after at most thirty failed reads are all
    processed; what follows is handled with the failure count at 0. *)
Lemma detector_loop_segments (segs : list (nat * F)) :
  ∀ (rest : list (read F)) fc,
  Forall (λ s, s.1 ≤ 30) segs →
  let r := detector_loop rest (fc + length segs) 0 in
  detector_loop
    (concat (map (λ s, replicate s.1 NoFrame ++ [Frame s.2 false]) segs)
       ++ rest) fc 0 =
    (map snd segs ++ r.1.1, r.1.2, r.2).
Proof.
  induction segs as [|[n f] segs IH]; intros rest fc Hall.
  - simpl. rewrite Nat.add_0_r.
    by destruct (detector_loop rest fc 0) as [[? ?] ?].
  - inversion Hall as [|? ? Hn Hall']; subst. simpl in Hn.
    cbn [map concat fst snd]. rewrite <- !app_assoc.
    rewrite detector_loop_failures by lia.
    cbn [app detector_loop]. rewrite (IH rest (S fc) Hall'). simpl.
    replace (fc + S (length segs)) with (S (fc + length segs)) by lia.
    done.
Qed.

End CaptureFacts.

(** X21. [utensil_detector.py] shrugs off up to thirty failed reads in
    a row.  On a camera that delivers frames each after at most thirty
    failures, every one of these frames is processed, in order, and
    [frame_count] goes up by their number; up to thirty more failures
    at the end change nothing, and a frame that then comes with 'q'
    pressed is processed too.  The thirty-first failure in a row ends
    the loop with just those frames processed, whatever the camera
    would deliver afterwards. *)
Theorem detector_failure_tolerance {F : Type} (segs : list (nat * F))
    (fc : nat) :
  Forall (λ s, s.1 ≤ 30) segs →
  let reads :=
    concat (map (λ s, replicate s.1 NoFrame ++ [Frame s.2 false]) segs) in
  (∀ m, m ≤ 30 →
     detector_loop (reads ++ replicate m NoFrame) fc 0 =
       (map snd segs, fc + length segs, OutOfReads)) ∧
  (∀ m f rest, m ≤ 30 →
     detector_loop (reads ++ replicate m NoFrame ++ Frame f true :: rest)
                   fc 0 =
       (map snd segs ++ [f], S (fc + length segs), Quit)) ∧
  (∀ post,
     detector_loop (reads ++ replicate 31 NoFrame ++ post) fc 0 =
       (map snd segs, fc + length segs, TooManyFailures)).
Proof.
  intros Hsegs reads. unfold reads. split; [|split].
  - intros m Hm. rewrite detector_loop_segments by done.
    pose proof (detector_loop_failures m (@nil (read F))
                  (fc + length segs) 0) as H.
    rewrite app_nil_r in H. rewrite H by lia. simpl.
    by rewrite app_nil_r.
  - intros m f rest Hm. rewrite detector_loop_segments by done.
    rewrite detector_loop_failures by lia. done.
  - intros post. rewrite detector_loop_segments by done.
    rewrite detector_loop_gives_up by lia. simpl. by rewrite app_nil_r.
Qed.

(** Frame 1 at once, frame 2 after thirty failures: both are processed,
    and thirty more failures do not end the loop but thirty-one do. *)
Lemma detector_failure_tolerance_witness :
  let reads := [Frame 1 false] ++ replicate 30 NoFrame ++ [Frame 2 false] in
  detector_loop (reads ++ replicate 30 NoFrame) 0 0 = ([1; 2], 2, OutOfReads) ∧
  detector_loop (reads ++ replicate 31 NoFrame ++ [Frame 3 false]) 0 0 =
    ([1; 2], 2, TooManyFailures).
Proof.
  destruct (detector_failure_tolerance [(0, 1); (30, 2)] 0) as (H1 & _ & H3).
  - repeat constructor; simpl; lia.
  - split.
    + apply (H1 30). lia.
    + apply (H3 [Frame 3 false]).
Defined.

(** X22. On a camera that fails once between good frames, [cv.py]
    stops at the failure and never sees the later frames, while
    [utensil_detector.py] processes all of them. *)
Theorem one_failure_cv_stops_detector_goes_on {F : Type}
    (before after : list F) (fc : nat) :
  let reads := map (λ f, Frame f false) before ++
               NoFrame :: map (λ f, Frame f false) after in
  cv_loop reads = (before, CaptureFailed) ∧
  detector_loop reads fc 0 =
    (before ++ after, fc + length (before ++ after), OutOfReads).
Proof.
  intros reads. unfold reads. split.
  - rewrite cv_loop_good. simpl. by rewrite app_nil_r.
  - rewrite detector_loop_good. cbn [detector_loop].
    assert (Nat.ltb 30 (S (match before with [] => 0 | _ => 0 end)) = false)
      as -> by (by destruct before).
    replace (S (match before with [] => 0 | _ => 0 end)) with 1
      by (by destruct before).
    pose proof (detector_loop_good after [] (fc + length before) 1) as H.
    rewrite app_nil_r in H. rewrite H. simpl.
    rewrite app_nil_r, length_app. f_equal. f_equal. lia.
Qed.

(** ** The client's main loop *)

Section ClientFacts.

Variable order : byte_order.
Variable F : Type.
Variable pickle_dumps : F → bytes.
Variable pickle_loads : bytes → outcome results.
Variable fuel : nat.

Local Abbreviation receive_results :=
  (receive_results order pickle_loads fuel).
Local Abbreviation client_loop :=
  (client_loop order F pickle_dumps pickle_loads fuel).

(** [recv] on a socket whose next chunks are [cs]: it takes from the
    first of them and leaves what follows [cs] alone. *)
Lemma recv_front (cs rest : list bytes) e n :
  cs ≠ [] → Forall (λ c, c ≠ []) cs →
  ∃ packet cs',
    recv (Socket (cs ++ rest) e n) 4096 =
      Done (packet, Socket (cs' ++ rest) e n) ∧
    packet ≠ [] ∧ packet ++ concat cs' = concat cs ∧
    Forall (λ c, c ≠ []) cs'.
Proof.
  intros Hne Hall. destruct cs as [|c cs]; [done|].
  inversion Hall as [|? ? Hc Hcs]; subst.
  unfold recv. cbn [incoming at_end sendable app].
  destruct (Nat.leb (length c) 4096) eqn:E.
  - by exists c, cs.
  - apply Nat.leb_gt in E.
    exists (take 4096 c), (drop 4096 c :: cs).
    split; [done|]. split.
    { intros H0. apply (f_equal length) in H0.
      rewrite length_take in H0. cbn [length] in H0. lia. }
    split; [cbn [concat]; by rewrite app_assoc, take_drop|].
    constructor; [|done]. intros H0. apply (f_equal length) in H0.
    rewrite length_drop in H0. cbn [length] in H0. lia.
Qed.

Lemma concat_nonempty (cs : list bytes) :
  Forall (λ c, c ≠ []) cs → concat cs = [] → cs = [].
Proof.
  destruct cs as [|c cs]; [done|]. intros Hall H.
  inversion Hall; subst. simpl in H. by apply app_eq_nil in H as [? _].
Qed.

Lemma recv_header_front fuel' (rest : list bytes) e n : ∀ cs data,
  Forall (λ c, c ≠ []) cs →
  payload_size ≤ length (data ++ concat cs) →
  length (concat cs) < fuel' →
  ∃ got cs',
    recv_header fuel' (Socket (cs ++ rest) e n) data =
      Done (data ++ got, Socket (cs' ++ rest) e n) ∧
    got ++ concat cs' = concat cs ∧ Forall (λ c, c ≠ []) cs' ∧
    payload_size ≤ length (data ++ got).
Proof.
  induction fuel' as [|fuel' IH]; intros cs data Hall Hlen Hfuel; [lia|].
  cbn [recv_header]. destruct (Nat.ltb (length data) payload_size) eqn:E.
  - apply Nat.ltb_lt in E.
    assert (cs ≠ []) as Hne.
    { intros ->. simpl in Hlen. rewrite app_nil_r in Hlen. lia. }
    destruct (recv_front cs rest e n Hne Hall)
      as (packet & cs1 & -> & Hp & Hcat & Hall1).
    cbn [mbind outcome_bind]. destruct packet as [|b packet]; [done|].
    assert (length (concat cs) = length (b :: packet) + length (concat cs1))
      as Hl by (by rewrite <- Hcat, length_app).
    simpl in Hl.
    destruct (IH cs1 (data ++ b :: packet) Hall1)
      as (got & cs' & -> & Hcat' & Hall' & Hlen'); [|lia|].
    { by rewrite <- app_assoc, Hcat. }
    exists ((b :: packet) ++ got), cs'. rewrite !app_assoc.
    split; [done|]. split; [|by split].
    by rewrite <- Hcat, <- Hcat', <- !app_assoc.
  - apply Nat.ltb_ge in E. exists [], cs. rewrite app_nil_r. by repeat split.
Qed.

Lemma recv_body_front fuel' (rest : list bytes) e n msg_size : ∀ cs data,
  Forall (λ c, c ≠ []) cs →
  N.of_nat (length (data ++ concat cs)) = msg_size →
  length (concat cs) < fuel' →
  recv_body fuel' (Socket (cs ++ rest) e n) data msg_size =
    Done (data ++ concat cs, Socket rest e n).
Proof.
  induction fuel' as [|fuel' IH]; intros cs data Hall Hlen Hfuel; [lia|].
  cbn [recv_body]. rewrite length_app in Hlen.
  destruct (N.of_nat (length data) <? msg_size)%N eqn:E.
  - apply N.ltb_lt in E.
    assert (cs ≠ []) as Hne by (intros ->; simpl in Hlen; lia).
    destruct (recv_front cs rest e n Hne Hall)
      as (packet & cs1 & -> & Hp & Hcat & Hall1).
    cbn [mbind outcome_bind].
    assert (0 < length packet) as Hpos by (destruct packet; simpl; [done|lia]).
    assert (length (concat cs) = length packet + length (concat cs1))
      as Hl by (by rewrite <- Hcat, length_app).
    rewrite (IH cs1 (data ++ packet) Hall1); [|rewrite !length_app; lia|lia].
    by rewrite <- app_assoc, Hcat.
  - apply N.ltb_ge in E.
    assert (concat cs = []) as Hnil by (apply length_zero_iff_nil; lia).
    rewrite Hnil, app_nil_r. by rewrite (concat_nonempty cs Hall Hnil).
Qed.

(** The client's receive block takes one framed message off the front
    of the stream and stops at its last chunk. *)
Lemma client_receive_one (cs rest : list bytes) e n payload :
  frame_message order payload = Done (concat cs) →
  Forall (λ c, c ≠ []) cs →
  length (concat cs) < fuel →
  client_receive order fuel (Socket (cs ++ rest) e n) =
    Done (payload, Socket rest e n).
Proof.
  intros Hframe Hall Hfuel. unfold frame_message in Hframe.
  destruct (pack_Q order (N.of_nat (length payload))) as [hdr| |] eqn:Hpack;
    try done.
  assert (concat cs = hdr ++ payload) as Hcs
    by (simpl in Hframe; congruence).
  pose proof (pack_Q_length _ _ _ Hpack) as Hhdr.
  destruct (recv_header_front fuel rest e n cs [] Hall)
    as (got & cs1 & Hh & Hcat & Hall1 & Hlen); [|done|].
  { simpl. rewrite Hcs, length_app. lia. }
  simpl in Hh, Hlen. rewrite Hcs in Hcat.
  assert (take payload_size got = hdr) as Htake.
  { rewrite <- (take_app_le got (concat cs1)) by done.
    rewrite Hcat. by apply take_app_length'. }
  assert (drop payload_size got ++ concat cs1 = payload) as Hdrop.
  { rewrite <- (drop_app_le got (concat cs1)) by done.
    rewrite Hcat. by apply drop_app_length'. }
  unfold client_receive. rewrite Hh. cbn [mbind outcome_bind].
  rewrite Htake, (unpack_pack_Q _ _ _ Hpack). cbn [mbind outcome_bind].
  rewrite (recv_body_front fuel rest e n _ cs1 (drop payload_size got) Hall1).
  - cbn [mbind outcome_bind]. rewrite Hdrop, Nat2N.id. by rewrite take_ge.
  - by rewrite Hdrop.
  - apply (f_equal length) in Hcat. rewrite length_app in Hcat.
    rewrite Hcs in Hfuel. lia.
Qed.

Lemma tick_parts tr rs now :
  tick tr rs now = (tick_state tr rs now, (tick tr rs now).1.2,
                    tick_alerts tr rs now).
Proof. unfold tick_state, tick_alerts. by destruct (tick tr rs now) as [[? ?] ?]. Qed.

End ClientFacts.

(** X23. The client's rounds compose: with a reply to every frame, each
    arriving in its own chunks however they are cut, the client sends
    the framed pickle of every frame, in order, shows the results in
    order and nothing else, and ends with the tracker and the alerts
    that a plain run of the tracker over those results gives. *)
Theorem client_round_trips (order : byte_order) (F : Type)
    (pickle_dumps : F → bytes) (pickle_loads : bytes → outcome results)
    (fuel : nat) (rounds : list (round F)) (e : ending) (n : nat)
    (tr : tracker) :
  Forall (λ r,
    (∃ msg, frame_message order (pickle_dumps (round_frame r)) = Done msg) ∧
    Forall (λ c, c ≠ []) (reply_chunks r) ∧
    length (concat (reply_chunks r)) < fuel ∧
    ∃ payload,
      frame_message order payload = Done (concat (reply_chunks r)) ∧
      pickle_loads payload = Done (reply r)) rounds →
  length rounds ≤ n →
  let reads := map (λ r, Frame (round_frame r, round_time r) false) rounds in
  let s := Socket (concat (map reply_chunks rounds)) e n in
  let inputs := map (λ r, (reply r, round_time r)) rounds in
  let out := client_loop order F pickle_dumps pickle_loads fuel reads s tr in
  out.2 = OutOfReads ∧
  out.1.2 = (run tr inputs).2 ∧
  shown out.1.1 = zip (map reply rounds) (run tr inputs).1 ∧
  Forall2 (λ r msg,
             frame_message order (pickle_dumps (round_frame r)) = Done msg)
          rounds (sent out.1.1) ∧
  out.1.1 =
    concat (zip_with (λ msg sh, [FrameSent msg; ResultsShown sh.1 sh.2])
                     (sent out.1.1) (shown out.1.1)).
Proof.
  revert n tr. induction rounds as [|r rounds IH]; intros n tr Hall Hn.
  - simpl. repeat split; constructor.
  - inversion Hall as [|? ? (Hmsg & Hne & Hfuel & payload & Hfr & Hld) Hall'];
      subst.
    destruct Hmsg as [msg Hmsg]. simpl in Hn.
    destruct n as [|n]; [lia|].
    specialize (IH n (tick_state tr (reply r) (round_time r)) Hall').
    cbn [map concat client_loop]. rewrite Hmsg.
    unfold sendall. cbn [sendable incoming at_end].
    unfold receive_results.
    rewrite (client_receive_one order fuel _ _ e n payload Hfr Hne Hfuel).
    cbn [mbind outcome_bind]. rewrite Hld. cbn [mbind outcome_bind].
    rewrite run_cons, tick_parts.
    destruct IH as (IH1 & IH2 & IH3 & IH4 & IH5); [lia|].
    destruct (client_loop order F pickle_dumps pickle_loads fuel _ _ _)
      as [[evs tr_end] st].
    simpl in *. rewrite <- IH5, IH3. repeat split; try done.
    by constructor.
Qed.

Lemma client_round_trips_witness :
  let rounds :=
    [Round five_bytes 0%Q [[Byte.x05; Byte.x00; Byte.x00]; [Byte.x00];
                           [Byte.x00; Byte.x00; Byte.x00; Byte.x00];
                           [Byte.x01; Byte.x01; Byte.x01; Byte.x01; Byte.x01]]
           (Results (replicate 5 (item "fork"%string)) [] []);
     Round five_bytes 3%Q [[Byte.x01; Byte.x00; Byte.x00; Byte.x00;
                            Byte.x00; Byte.x00; Byte.x00; Byte.x00; Byte.x01]]
           (Results [item "fork"%string] [] [])] in
  let out :=
    client_loop LittleEndian bytes id toy_loads 20
      (map (λ r, Frame (round_frame r, round_time r) false) rounds)
      (Socket (concat (map reply_chunks rounds)) Reset 2) initial in
  out.2 = OutOfReads ∧
  out.1.2 = (run initial (map (λ r, (reply r, round_time r)) rounds)).2 ∧
  shown out.1.1 =
    zip (map reply rounds)
        (run initial (map (λ r, (reply r, round_time r)) rounds)).1 ∧
  Forall2 (λ r msg, frame_message LittleEndian (id (round_frame r)) = Done msg)
          rounds (sent out.1.1) ∧
  out.1.1 =
    concat (zip_with (λ msg sh, [FrameSent msg; ResultsShown sh.1 sh.2])
                     (sent out.1.1) (shown out.1.1)).
Proof.
  intros rounds.
  apply (client_round_trips LittleEndian bytes id toy_loads 20 rounds Reset 2
           initial).
  - repeat constructor; try discriminate; try (simpl; lia);
      try (by eexists);
      try (exists [Byte.x01; Byte.x01; Byte.x01; Byte.x01; Byte.x01];
           split; reflexivity);
      try (exists [Byte.x01]; split; reflexivity).
  - simpl. lia.
Defined.

(** X24. A reply that stops after its prefix but before the end of its
    payload ends the client's loop at that frame, with the tracker
    untouched and nothing more sent: if the server closed in an orderly
    way the client never leaves the receive block; if the connection
    was reset it reports the receive error. *)
Theorem client_stops_on_short_reply (order : byte_order) (F : Type)
    (pickle_dumps : F → bytes) (pickle_loads : bytes → outcome results)
    (fuel : nat) (f : F) (now : Q) (quit : bool)
    (rest : list (read (F * Q))) (msg payload framed got missing : bytes)
    (chunks : list bytes) (n : nat) (tr : tracker) :
  frame_message order (pickle_dumps f) = Done msg →
  frame_message order payload = Done framed →
  framed = got ++ missing →
  missing ≠ [] →
  payload_size ≤ length got →
  concat chunks = got →
  Forall (λ c, c ≠ []) chunks →
  client_loop order F pickle_dumps pickle_loads fuel
    (Frame (f, now) quit :: rest) (Socket chunks OrderlyClose (S n)) tr =
    ([FrameSent msg], tr, Hung) ∧
  (length got < fuel →
   client_loop order F pickle_dumps pickle_loads fuel
     (Frame (f, now) quit :: rest) (Socket chunks Reset (S n)) tr =
     ([FrameSent msg], tr, ReceiveError ConnectionError)).
Proof.
  intros Hmsg Hframe Hsplit Hmiss Hlen Hcat Hne.
  cbn [client_loop]. rewrite Hmsg. unfold sendall.
  cbn [sendable incoming at_end]. unfold receive_results. split.
  - by rewrite (proj1 (receive_starved order payload framed got missing
                         chunks n fuel Hframe Hsplit Hmiss Hlen Hcat Hne)).
  - intros Hfuel.
    by rewrite (proj1 (receive_reset order payload framed got missing
                         chunks n fuel Hframe Hsplit Hmiss Hcat Hne Hfuel)).
Qed.

Lemma client_stops_on_short_reply_witness :
  client_loop LittleEndian bytes id toy_loads 20
    [Frame (five_bytes, 1%Q) false; Frame (five_bytes, 2%Q) false]
    (Socket prefix_and_two OrderlyClose 1) initial =
    ([FrameSent five_bytes_framed], initial, Hung) ∧
  (length (take 10 five_bytes_framed) < 20 →
   client_loop LittleEndian bytes id toy_loads 20
     [Frame (five_bytes, 1%Q) false; Frame (five_bytes, 2%Q) false]
     (Socket prefix_and_two Reset 1) initial =
     ([FrameSent five_bytes_framed], initial, ReceiveError ConnectionError)).
Proof.
  apply (client_stops_on_short_reply LittleEndian bytes id toy_loads 20
           five_bytes 1%Q false [Frame (five_bytes, 2%Q) false]
           five_bytes_framed five_bytes five_bytes_framed
           (take 10 five_bytes_framed) (drop 10 five_bytes_framed)).
  - reflexivity.
  - reflexivity.
  - reflexivity.
  - discriminate.
  - unfold payload_size. simpl. lia.
  - reflexivity.
  - repeat constructor; discriminate.
Defined.
